(** * Entity-parameter binding and query classification (Automative-SpaCy)

    Shallow embedding of the rule-based pipeline of the repository:
    - [src/pipeline/processors/llm_processor.py]: the keyword detectors and
      [determine_status];
    - [src/pipeline/exctractors/parameter_extractor.py]: segmentation,
      entity extraction, parameter de-duplication, binding and routing;
    - [src/pipeline/ipg_pipeline.py]: the final routing of the pipeline;
    - [src/core/normalization/model_normalization.py]: the canonical-model
      registry.

    Python strings are sequences of code points; they are modelled as
    [list Z].  String constants are written as UTF-8 Rocq literals and
    decoded with [u]. *)

From Stdlib Require Import List String Ascii ZArith Bool Arith Lia QArith Sorted Permutation.
Import ListNotations.
Open Scope list_scope.
Open Scope Z_scope.
Abbreviation length := List.length (only parsing).

(** ** Python strings *)

Definition ustr := list Z.

(** UTF-8 decoding of a byte sequence into code points (well-formed input). *)
Fixpoint utf8_dec (bs : list Z) : ustr :=
  match bs with
  | [] => []
  | b0 :: r0 =>
      if b0 <? 128 then b0 :: utf8_dec r0
      else if b0 <? 224 then
        match r0 with
        | b1 :: r1 => (Z.land b0 31 * 64 + Z.land b1 63) :: utf8_dec r1
        | [] => []
        end
      else if b0 <? 240 then
        match r0 with
        | b1 :: b2 :: r2 =>
            (Z.land b0 15 * 4096 + Z.land b1 63 * 64 + Z.land b2 63)
              :: utf8_dec r2
        | _ => []
        end
      else
        match r0 with
        | b1 :: b2 :: b3 :: r3 =>
            (Z.land b0 7 * 262144 + Z.land b1 63 * 4096
               + Z.land b2 63 * 64 + Z.land b3 63) :: utf8_dec r3
        | _ => []
        end
  end.

Definition u (s : string) : ustr :=
  utf8_dec (map (fun a => Z.of_N (N_of_ascii a)) (list_ascii_of_string s)).

Definition in_range (lo hi c : Z) : bool := (lo <=? c) && (c <=? hi).

(** [str.isspace] (the code points Python treats as whitespace; this is
    also the set matched by [\s] and removed by [str.strip()]). *)
Definition is_space (c : Z) : bool :=
  in_range 9 13 c || in_range 28 32 c || (c =? 133) || (c =? 160)
  || (c =? 5760) || in_range 8192 8202 c || (c =? 8232) || (c =? 8233)
  || (c =? 8239) || (c =? 8287) || (c =? 12288).

(** A partial model of [str.lower] on one code point: it lowers the ASCII
    capitals, the Latin-1 capitals (192-222 except 215), the basic Cyrillic
    capitals (1024-1071) and the even code points of the Cyrillic ranges
    1120-1153 and 1162-1215; every other code point (among them Latin
    Extended-A such as 'Ł' and all of Greek) is left unchanged. Python's
    [str.lower] lowers more, and can lengthen a string ('İ' becomes two
    code points). *)
Definition lower_cp (c : Z) : Z :=
  if in_range 65 90 c then c + 32
  else if in_range 192 222 c && negb (c =? 215) then c + 32
  else if in_range 1040 1071 c then c + 32
  else if in_range 1024 1039 c then c + 80
  else if (in_range 1120 1153 c || in_range 1162 1215 c) && Z.even c then c + 1
  else c.

(** [s.lower()] as the code point map of [lower_cp]; unlike Python's, it
    always preserves the length. *)
Definition lower (s : ustr) : ustr := map lower_cp s.

(** A partial model of the word characters of [\w] ([str.isalnum()] or
    underscore): the ASCII digits and letters, underscore, the Latin-1
    letters, digits and number signs, Latin Extended-A and B (192-591
    except 215 and 247) and Cyrillic (1024-1153, 1162-1327). Characters
    of other scripts (Greek, CJK, other digits, ...) count as non-word
    here although Python counts many of them as alphanumeric. *)
Definition is_word (c : Z) : bool :=
  in_range 48 57 c || in_range 65 90 c || in_range 97 122 c || (c =? 95)
  || (c =? 170) || (c =? 178) || (c =? 179) || (c =? 181) || (c =? 185)
  || (c =? 186) || in_range 188 190 c
  || (in_range 192 591 c && negb (c =? 215) && negb (c =? 247))
  || in_range 1024 1153 c || in_range 1162 1327 c.

Fixpoint drop_space (s : ustr) : ustr :=
  match s with
  | c :: r => if is_space c then drop_space r else s
  | [] => []
  end.

(** [str.strip()] *)
Definition strip (s : ustr) : ustr := rev (drop_space (rev (drop_space s))).

(** [s[i:j]] for [0 <= i <= j]. *)
Definition slice (s : ustr) (i j : nat) : ustr := firstn (j - i) (skipn i s).

Fixpoint ustr_eqb (a b : ustr) : bool :=
  match a, b with
  | [], [] => true
  | x :: a', y :: b' => (x =? y) && ustr_eqb a' b'
  | _, _ => false
  end.

(** ** The [re] module: backtracking search

    [ends] lists, in the order Python's backtracking matcher tries them,
    the end positions of the matches of a pattern starting at position [i].
    Greedy quantifiers try more iterations first; [re.search] succeeds
    when some start position has a match, and the match it reports is the
    first end position at the leftmost such start. *)
Module Re.

Inductive regex :=
| Lit (cs : ustr)             (* a literal sequence of code points *)
| Cls (p : Z -> bool)         (* one code point of a class *)
| WordB                       (* [\b] *)
| Seq (r1 r2 : regex)
| Alt (r1 r2 : regex)         (* [r1|r2] *)
| Opt (r : regex)             (* greedy [r?] *)
| Star (r : regex).           (* greedy [r*] *)

Section Match.
Variable icase : bool.        (* [re.IGNORECASE] *)
Variable s : ustr.

Definition cp_eqb (a b : Z) : bool :=
  if icase then lower_cp a =? lower_cp b else a =? b.

Fixpoint lit_prefix (cs t : ustr) : bool :=
  match cs, t with
  | [], _ => true
  | c :: cs', x :: t' => cp_eqb c x && lit_prefix cs' t'
  | _ :: _, [] => false
  end.

Definition word_at (i : nat) : bool :=
  match nth_error s i with Some c => is_word c | None => false end.

Definition boundary (i : nat) : bool :=
  match i with
  | O => word_at 0
  | S k => xorb (word_at k) (word_at i)
  end.

Fixpoint ends (r : regex) (i : nat) : list nat :=
  match r with
  | Lit cs => if lit_prefix cs (skipn i s) then [(i + List.length cs)%nat] else []
  | Cls p =>
      match nth_error s i with
      | Some c => if p c then [S i] else []
      | None => []
      end
  | WordB => if boundary i then [i] else []
  | Seq r1 r2 => flat_map (ends r2) (ends r1 i)
  | Alt r1 r2 => ends r1 i ++ ends r2 i
  | Opt r1 => ends r1 i ++ [i]
  | Star r1 =>
      (fix go (n j : nat) {struct n} : list nat :=
         match n with
         | O => [j]
         | S n' =>
             flat_map (fun e => if (j <? e)%nat then go n' e else []) (ends r1 j)
               ++ [j]
         end) (S (List.length s)) i
  end.

(** Leftmost match at or after [pos]: its start and end. *)
Fixpoint first_from (r : regex) (fuel pos : nat) : option (nat * nat) :=
  match fuel with
  | O => None
  | S f =>
      match ends r pos with
      | e :: _ => Some (pos, e)
      | [] => first_from r f (S pos)
      end
  end.

Definition search (r : regex) : option (nat * nat) :=
  first_from r (S (List.length s)) 0.

(** [re.finditer]: successive non-overlapping leftmost matches.  (An empty
    match would make the scan advance by one position; the patterns used
    with [finditer] below never match the empty string.) *)
Fixpoint finditer_go (r : regex) (fuel pos : nat) : list (nat * nat) :=
  match fuel with
  | O => []
  | S f =>
      match first_from r (S (List.length s - pos)) pos with
      | Some (st, en) =>
          (st, en) :: finditer_go r f (if (st <? en)%nat then en else S en)
      | None => []
      end
  end.

Definition finditer (r : regex) : list (nat * nat) :=
  finditer_go r (S (List.length s)) 0.

End Match.

Definition matches (r : regex) (s : ustr) : bool :=
  match search false s r with Some _ => true | None => false end.

(** Pattern builders. *)
Definition L (x : string) : regex := Lit (u x).
Fixpoint seqs (rs : list regex) : regex :=
  match rs with
  | [] => Lit []
  | [r] => r
  | r :: rs' => Seq r (seqs rs')
  end.
Fixpoint alts (rs : list regex) : regex :=
  match rs with
  | [] => Cls (fun _ => false)
  | [r] => r
  | r :: rs' => Alt r (alts rs')
  end.
Definition W : regex := Cls is_word.                    (* [\w] *)
Definition Sp : regex := Cls is_space.                  (* [\s] *)
Definition Dot : regex := Cls (fun c => negb (c =? 10)). (* [.] *)
Definition Plus (r : regex) : regex := Seq r (Star r).  (* [r+] *)
(** Greedy [r{0,n}]. *)
Fixpoint upto (n : nat) (r : regex) : regex :=
  match n with
  | O => Lit []
  | S n' => Opt (Seq r (upto n' r))
  end.
Definition alt_lits (xs : list string) : regex := alts (map L xs).

End Re.

(** ** [llm_processor.py]: keyword detectors *)
Module Detect.
Local Open Scope string_scope.
Import Re.

Definition word_pat (stem : string) : regex :=                (* \bstem\w*\b *)
  seqs [WordB; L stem; Star W; WordB].
Definition dash_or_space : regex :=                          (* [-\s] *)
  Cls (fun c => Z.eqb c 45 || is_space c).

Definition parallel_patterns : list regex :=
  [ word_pat "паралел"; word_pat "паралельн"; word_pat "стек";
    word_pat "параллел"; word_pat "параллельн"; word_pat "стек";
    word_pat "parallel"; word_pat "stack";
    seqs [WordB; L "stacking"; WordB];
    seqs [WordB; Opt (seqs [L "чи"; Plus Sp; L "можна"; Plus Sp]);
          alt_lits ["зібрат"; "зробит"; "побудуват"; "реалізуват"; "створит";
                    "підключит"; "використат"];
          Star W; WordB; upto 30 Dot;
          WordB; alt_lits ["3"; "три"]; Opt dash_or_space;
          alt_lits ["фаз"; "фазн"]; Star W; WordB];
    seqs [WordB; alt_lits ["3"; "три"]; Opt dash_or_space;
          alt_lits ["фаз"; "фазн"]; Star W; WordB; upto 30 Dot;
          WordB; alt_lits ["підключат"; "зєднуват"; "збирати"; "використовуват"];
          Star W; WordB];
    seqs [WordB; Opt (seqs [L "можно"; Plus Sp]);
          alt_lits ["собрат"; "сделат"; "построит"; "реализоват"; "создат";
                    "подключит"; "использоват"];
          Star W; WordB; upto 30 Dot;
          WordB; alt_lits ["3"; "три"]; Opt dash_or_space;
          L "фаз"; Star W; WordB];
    seqs [WordB; Opt (seqs [L "can"; Plus Sp; L "i"; Plus Sp]);
          alt_lits ["build"; "make"; "connect"; "configure"; "create"; "use"];
          Star W; WordB; upto 30 Dot;
          WordB; alt_lits ["3"; "three"]; Opt dash_or_space; L "phase"; WordB] ].

Definition detect_parallel_query (text : ustr) : bool :=
  existsb (fun p => matches p (lower text)) parallel_patterns.

Definition compat_patterns : list regex :=
  [ word_pat "сумісн";
    seqs [WordB; L "чи можна ";
          alt_lits ["підключити"; "з'єднати"; "використати"]; WordB];
    seqs [WordB; L "в одну систему"; WordB];
    seqs [WordB; L "чи працю"; Star W; L " "; alt_lits ["з"; "разом"]; WordB];
    word_pat "совмест";
    seqs [WordB; L "можно ли ";
          alt_lits ["подключить"; "соединить"; "использовать"]; WordB];
    seqs [WordB; L "в одну систему"; WordB];
    seqs [WordB; L "работа"; Star W; L " "; alt_lits ["с"; "вместе"]; WordB];
    word_pat "compat";
    seqs [WordB; L "can "; alt_lits ["i"; "we"]; L " ";
          alt_lits ["connect"; "use"; "combine"]; WordB];
    seqs [WordB; L "work "; alt_lits ["with"; "together"]; WordB];
    seqs [WordB; L "ac"; Opt (Cls (fun c => Z.eqb c 45 || Z.eqb c 32));
          L "coupling"; WordB] ].

(** The loop of [detect_compatibility_query] returns [True] at the first
    pattern that matches. *)
Fixpoint any_pattern (ps : list regex) (t : ustr) : bool :=
  match ps with
  | [] => false
  | p :: ps' => if matches p t then true else any_pattern ps' t
  end.

Definition detect_compatibility_query (text : ustr) : bool :=
  any_pattern compat_patterns (lower text).

End Detect.

(** ** Data model: the dictionaries built by [parameter_extractor.py] *)
Module Data.

(** A row of the model-metadata registry ([get_model_metadata]). *)
Record model_metadata := mkMetadata {
  md_manufacturer : option ustr;
  md_equipment_type : option ustr }.

(** An entity dictionary: ["value"] is [None] for a MODEL whose canonical
    form is unknown; ["original_value"] and ["metadata"] are only present
    on MODEL entities. *)
Record entity := mkEntity {
  value : option ustr;
  confidence : Q;
  position : nat;
  end_position : nat;
  original_value : option ustr;
  metadata : option model_metadata }.

(** A parameter match of [find_parameters]. *)
Record param_match := mkParam {
  key : ustr;
  synonym_matched : ustr;
  p_confidence : Q;
  p_position : nat;
  p_end_position : nat;
  extracted_value : ustr;
  match_type : ustr;
  fuzzy_score : option Q }.

(** ["extracted_entities"]: a missing list is the empty list of [.get(k, [])]. *)
Record extracted := mkExtracted {
  manufacturer : list entity;
  model : list entity;
  equipment_type : list entity;
  parameters : list param_match }.

End Data.

(** ** [determine_status] *)
Module Status.
Import Data Detect.

Inductive status := St_parallel | St_compat | St_simple | St_complex.

Definition is_not_none {A} (o : option A) : bool :=
  match o with Some _ => true | None => false end.

(** [valid_models = [m for m in models if m.get("value") is not None]] *)
Definition valid_models (ee : extracted) : list entity :=
  filter (fun m => is_not_none (value m)) (model ee).

Definition determine_status (ee : extracted) (original_text : ustr) : status :=
  if detect_parallel_query original_text then St_parallel
  else if detect_compatibility_query original_text then St_compat
  else
    let num_valid_models := length (valid_models ee) in
    let num_params := length (parameters ee) in
    if (1 <=? num_valid_models)%nat && (1 <=? num_params)%nat then
      if (num_valid_models <=? 2)%nat && (num_params <=? 2)%nat then St_simple
      else St_complex
    else St_complex.

End Status.

(** ** [split_into_segments] *)
Module Segment.
Import Re.
Local Open Scope string_scope.

(** [CONJUNCTION_REGEX], compiled with [re.IGNORECASE]. *)
Definition CONJUNCTION_REGEX : regex :=
  Alt (seqs [Plus Sp; alt_lits ["і"; "та"; "и"; "а"; "й"; ","; ";"]; Plus Sp])
      (seqs [Plus Sp; alt_lits ["and"; "or"; ","; ";"]; Plus Sp]).
Local Close Scope string_scope.

Record segment := mkSegment { seg_text : ustr; seg_start : nat; seg_end : nat }.

(** One iteration of the [finditer] loop; the state is
    [(segments, last_end)]. *)
Definition split_step (text : ustr) (st : list segment * nat) (m : nat * nat)
  : list segment * nat :=
  let (segments, last_end) := st in
  let (mstart, mend) := m in
  let segments :=
    if (last_end <? mstart)%nat then
      match strip (slice text last_end mstart) with
      | [] => segments
      | segment_text => segments ++ [mkSegment segment_text last_end mstart]
      end
    else segments in
  (segments, mend).

Definition split_tail (text : ustr) (st : list segment * nat) : list segment :=
  let (segments, last_end) := st in
  if (last_end <? length text)%nat then
    match strip (slice text last_end (length text)) with
    | [] => segments
    | segment_text => segments ++ [mkSegment segment_text last_end (length text)]
    end
  else segments.

Definition split_into_segments (text : ustr) : list segment :=
  let ms := finditer true text CONJUNCTION_REGEX in
  match split_tail text (fold_left (split_step text) ms ([], 0%nat)) with
  | [] => [mkSegment text 0 (length text)]
  | segments => segments
  end.

(** Re-joining the segment texts with the original text between two
    consecutive segments (the separators). *)
Fixpoint rejoin (text : ustr) (segs : list segment) : ustr :=
  match segs with
  | [] => []
  | [s] => seg_text s
  | s :: ((s' :: _) as rest) =>
      seg_text s ++ slice text (seg_end s) (seg_start s') ++ rejoin text rest
  end.

End Segment.

(** ** [map_parameters_to_models] and [build_routing] *)
Module Binder.
Import Data Segment.

Definition BORDER_TOLERANCE : nat := 2.

(** [abs(a - b)] on character offsets. *)
Definition dist (a b : nat) : nat := ((a - b) + (b - a))%nat.

(** Python's [min(xs, key=f)] on a non-empty list: the first minimal item. *)
Definition min_by {A} (f : A -> nat) (x : A) (xs : list A) : A :=
  fold_left (fun best y => if (f y <? f best)%nat then y else best) xs x.

(** Truthiness of an optional string. *)
Definition truthy (o : option ustr) : bool :=
  match o with Some (_ :: _) => true | _ => false end.

Record sub_query := mkSubQuery {
  sq_manufacturer : option ustr;
  sq_model : ustr;
  sq_equipment_type : option ustr;
  sq_parameter : ustr;
  sq_original_part : ustr;
  sq_confidence : Q;
  sq_match_type : ustr }.

Definition first_value (es : list entity) : option ustr :=
  match es with e :: _ => value e | [] => None end.

(** A MODEL entity with its ["canonical"] field. *)
Record cmodel := mkCModel { cm_entity : entity; cm_canonical : ustr }.

Definition overlaps_with_segment (ent_start ent_end seg_start seg_end : nat) : bool :=
  negb ((ent_end + BORDER_TOLERANCE <? seg_start)%nat
        || (seg_end + BORDER_TOLERANCE <? ent_start)%nat).

Definition in_segment (seg : segment) (pos : nat) : bool :=
  (seg_start seg <=? pos)%nat && (pos <? seg_end seg)%nat.

(** The ["recommended_strategy"] of a routing dictionary. *)
Inductive routing (SQ : Type) :=
| R_noEntities (message : ustr)        (* ["options"] is [[]] *)
| R_single (sub_query : SQ)
| R_multi (sub_queries : list SQ).
Arguments R_noEntities {SQ} message.
Arguments R_single {SQ} sub_query.
Arguments R_multi {SQ} sub_queries.

Definition strategy {SQ} (r : routing SQ) : ustr :=
  match r with
  | R_noEntities _ => u "noEntities"
  | R_single _ => u "single_query"
  | R_multi _ => u "multi_query"
  end.

Section Bind.
Variable normalize_model : ustr -> option ustr.

(** [m["canonical"] = normalize_model(m.get("original_value", ""))], kept
    when truthy. *)
Definition valid_cmodels (models : list entity) : list cmodel :=
  flat_map (fun m =>
    match normalize_model (match original_value m with Some o => o | None => [] end) with
    | Some (c :: cs) => [mkCModel m (c :: cs)]
    | _ => []
    end) models.

Definition cm_pos (m : cmodel) : nat := position (cm_entity m).

Definition bind_param (manufacturers eq_types : list entity)
    (vm0 : cmodel) (vms : list cmodel) (seg : segment) (param : param_match)
    : sub_query :=
  let ppos := p_position param in
  let seg_models := filter (fun m => in_segment seg (cm_pos m)) (vm0 :: vms) in
  let seg_manufacturers := filter (fun m => in_segment seg (position m)) manufacturers in
  let seg_eq_types := filter (fun e => in_segment seg (position e)) eq_types in
  let closest_model :=
    match seg_models with
    | m0 :: ms => min_by (fun m => dist (cm_pos m) ppos) m0 ms
    | [] => min_by (fun m => dist (cm_pos m) ppos) vm0 vms
    end in
  let model_value := cm_canonical closest_model in
  let md := metadata (cm_entity closest_model) in
  let manufacturer_value :=
    match seg_manufacturers with
    | f0 :: fs => value (min_by (fun m => dist (position m) ppos) f0 fs)
    | [] =>
        let mv := match md with
                  | Some d => match md_manufacturer d with Some v => Some v | None => Some [] end
                  | None => Some []
                  end in
        if negb (truthy mv) && (match manufacturers with [] => false | _ => true end)
        then first_value manufacturers else mv
    end in
  let eq_type_value :=
    match seg_eq_types with
    | e0 :: _ => value e0
    | [] =>
        let ev := match md with Some d => md_equipment_type d | None => None end in
        if negb (truthy ev) && (match eq_types with [] => false | _ => true end)
        then first_value eq_types else ev
    end in
  mkSubQuery manufacturer_value model_value eq_type_value (key param)
             (extracted_value param) (p_confidence param) (match_type param).

Definition map_parameters_to_models (parameters : list param_match)
    (models manufacturers eq_types : list entity) (text : ustr) : list sub_query :=
  match valid_cmodels models with
  | [] =>
      map (fun param =>
             mkSubQuery
               (match manufacturers with m :: _ => value m | [] => Some [] end)
               (u "ALL_LISTED")
               (first_value eq_types)
               (key param) (extracted_value param) (p_confidence param)
               (match_type param))
          parameters
  | vm0 :: vms =>
      let segments := split_into_segments text in
      flat_map (fun seg =>
        let seg_params :=
          filter (fun p => overlaps_with_segment (p_position p) (p_end_position p)
                             (seg_start seg) (seg_end seg)) parameters in
        map (bind_param manufacturers eq_types vm0 vms seg) seg_params)
        segments
  end.

Definition build_routing (manufacturers models eq_types : list entity)
    (parameters : list param_match) (text : ustr) : routing sub_query :=
  match manufacturers, models, parameters with
  | [], [], [] => R_noEntities (u "No entities detected")
  | _, _, _ =>
      match map_parameters_to_models parameters models manufacturers eq_types text with
      | [] => R_noEntities (u "No valid parameter-model bindings")
      | [sq] => R_single sq
      | sqs => R_multi sqs
      end
  end.

End Bind.
End Binder.

(** ** [IPGPipeline] ([src/pipeline/ipg_pipeline.py]) *)
Module Pipeline.
Import Data Binder.

(** An entry of ["param_bindings"] (missing keys read as [""] and [[]]). *)
Record binding := mkBinding { b_model : ustr; b_parameters : list ustr }.

(** The dictionary returned by the LLM step (missing keys are [None]). *)
Record llm_result := mkLLMResult {
  lr_status : option ustr;
  lr_intent : option ustr;
  lr_param_bindings : list binding }.

Record final_sub_query := mkFinalSubQuery {
  fq_manufacturer : option ustr;
  fq_model : ustr;
  fq_equipment_type : option ustr;
  fq_parameter : ustr;
  fq_original_part : ustr }.

Fixpoint is_prefix (a b : ustr) : bool :=
  match a, b with
  | [], _ => true
  | x :: a', y :: b' => (x =? y) && is_prefix a' b'
  | _ :: _, [] => false
  end.

(** Python's [a in b] on strings. *)
Fixpoint is_substring (a b : ustr) : bool :=
  is_prefix a b || match b with [] => false | _ :: b' => is_substring a b' end.

Definition opt_ustr_eqb (a b : option ustr) : bool :=
  match a, b with
  | Some x, Some y => ustr_eqb x y
  | None, None => true
  | _, _ => false
  end.

Definition find_closest_manufacturer (model_value : ustr) (ee : extracted)
    : option ustr :=
  match manufacturer ee with
  | [] => Some []
  | f0 :: fs =>
      match find (fun m =>
                    opt_ustr_eqb (value m) (Some model_value)
                    || is_substring
                         (lower (match original_value m with Some o => o | None => [] end))
                         (lower model_value))
                 (model ee) with
      | None => value f0
      | Some target_model =>
          value (min_by (fun m => dist (position m) (position target_model)) f0 fs)
      end
  end.

Definition build_final_routing (llm : llm_result) (ee : extracted) (text : ustr)
    : routing final_sub_query :=
  match lr_param_bindings llm with
  | [] => R_noEntities (u "No valid parameter bindings found")
  | param_bindings =>
      let eq_type_value := first_value (equipment_type ee) in
      let sub_queries :=
        flat_map (fun b =>
          let manufacturer_value := find_closest_manufacturer (b_model b) ee in
          map (fun param =>
                 mkFinalSubQuery manufacturer_value (b_model b) eq_type_value
                                 param (firstn 100 text))
              (b_parameters b))
          param_bindings in
      match sub_queries with
      | [sq] => R_single sq
      | sqs => R_multi sqs
      end
  end.

(** A parameter of the final list: a fuzzy match that the LLM confirmed,
    or a parameter only the LLM found. *)
Inductive final_param :=
| FP_fuzzy (p : param_match) (mapped_to_model : ustr) (batch : bool)
| FP_llm (param_key : ustr) (mapped_to_model : ustr) (batch : bool).

Fixpoint dedup (l : list ustr) : list ustr :=
  match l with
  | [] => []
  | x :: l' => x :: filter (fun y => negb (ustr_eqb x y)) (dedup l')
  end.

Fixpoint join (sep : ustr) (l : list ustr) : ustr :=
  match l with
  | [] => []
  | [x] => x
  | x :: l' => x ++ sep ++ join sep l'
  end.

(** [build_parameters_from_llm].  The set [llm_confirmed_params] is
    iterated in first-insertion order. *)
Definition build_parameters_from_llm (fuzzy_parameters : list param_match)
    (llm : llm_result) : list final_param :=
  let bs := lr_param_bindings llm in
  let confirmed := dedup (flat_map b_parameters bs) in
  map (fun k =>
         let models := flat_map (fun b =>
                         map (fun _ => b_model b)
                             (filter (ustr_eqb k) (b_parameters b))) bs in
         let batch := (1 <? length models)%nat in
         let mapped := if batch then join (u ", ") models
                       else match models with m :: _ => m | [] => u "UNKNOWN" end in
         match find (fun p => ustr_eqb (key p) k) (rev fuzzy_parameters) with
         | Some p => FP_fuzzy p mapped batch
         | None => FP_llm k mapped batch
         end)
      confirmed.

Record output := mkOutput {
  out_question_raw : ustr;
  out_status : ustr;
  out_question_type : ustr;
  out_intent : ustr;
  out_entities : extracted;
  out_parameters : list final_param;   (* ["extracted_entities"]["parameters"] *)
  out_routing : routing final_sub_query }.

Definition get_or (o : option ustr) (d : ustr) : ustr :=
  match o with Some x => x | None => d end.

Section Process.
(** The collaborators of [process]: the question-type detector (imported
    from [pipeline.processors.llm_processor], not present there), the
    extraction step ([process_question]'s ["extracted_entities"]) and the
    LLM step. *)
Variable detect_question_type : ustr -> ustr.
Variable extract_entities : ustr -> extracted.
Variable llm_process_question : extracted -> ustr -> llm_result.

Definition process (text : ustr) : output :=
  let question_type := detect_question_type text in
  let ee := extract_entities text in
  let llm :=
    if ustr_eqb question_type (u "compat")
    then mkLLMResult (Some (u "complex")) (Some (u "compatibility_query")) []
    else llm_process_question ee text in
  let final_params := build_parameters_from_llm (parameters ee) llm in
  let routing := build_final_routing llm ee text in
  mkOutput text (get_or (lr_status llm) (u "complex")) question_type
           (get_or (lr_intent llm) (u "uncertain")) ee final_params routing.

End Process.
End Pipeline.

(** ** The conflict-resolution phase of [find_parameters]

    [results] is the list of accepted matches of the exact and fuzzy
    phases, in the order they were appended.  Confidences are compared as
    rationals (Python floats; only [>] and [==] are used). *)
Module Params.
Import Data Binder.

Definition Qgtb (a b : Q) : bool := negb (Qle_bool a b).

Definition optQ_eqb (a b : option Q) : bool :=
  match a, b with
  | Some x, Some y => Qeq_bool x y
  | None, None => true
  | _, _ => false
  end.

(** Dictionary equality [==] of two match dictionaries. *)
Definition param_eqb (a b : param_match) : bool :=
  ustr_eqb (key a) (key b) && ustr_eqb (synonym_matched a) (synonym_matched b)
  && Qeq_bool (p_confidence a) (p_confidence b)
  && (p_position a =? p_position b)%nat
  && (p_end_position a =? p_end_position b)%nat
  && ustr_eqb (extracted_value a) (extracted_value b)
  && ustr_eqb (match_type a) (match_type b)
  && optQ_eqb (fuzzy_score a) (fuzzy_score b).

(** [list.remove(x)]: drop the first item equal to [x]. *)
Fixpoint remove_first (x : param_match) (l : list param_match) : list param_match :=
  match l with
  | [] => []
  | y :: l' => if param_eqb y x then l' else y :: remove_first x l'
  end.

(** [list.sort(key=lambda r: r["position"])]: a stable insertion sort. *)
Fixpoint insert_pos (r : param_match) (l : list param_match) : list param_match :=
  match l with
  | [] => [r]
  | y :: l' => if (p_position y <=? p_position r)%nat then y :: insert_pos r l'
               else r :: l
  end.

Definition sort_by_position (l : list param_match) : list param_match :=
  fold_left (fun acc r => insert_pos r acc) l [].

(** The overlap test of the loop, with [existing] already retained. *)
Definition overlaps (r existing : param_match) : bool :=
  let pos := p_position r in
  let end_pos := p_end_position r in
  let existing_start := p_position existing in
  let existing_end := p_end_position existing in
  ((existing_start <=? pos)%nat && (pos <? existing_end)%nat)
  || ((existing_start <? end_pos)%nat && (end_pos <=? existing_end)%nat)
  || ((pos <=? existing_start)%nat && (existing_end <=? end_pos)%nat).

(** [seen_keys]: key -> match, as an association list. *)
Definition seen := list (ustr * param_match).

Fixpoint seen_get (k : ustr) (s : seen) : option param_match :=
  match s with
  | [] => None
  | (k', v) :: s' => if ustr_eqb k' k then Some v else seen_get k s'
  end.

Fixpoint seen_del (k : ustr) (s : seen) : seen :=
  match s with
  | [] => []
  | (k', v) :: s' => if ustr_eqb k' k then seen_del k s' else (k', v) :: seen_del k s'
  end.

Definition seen_set (k : ustr) (v : param_match) (s : seen) : seen :=
  (k, v) :: seen_del k s.

(** The [seen_keys] part of one iteration. *)
Definition key_step (r : param_match) (final : list param_match) (sk : seen)
  : list param_match * seen :=
  match seen_get (key r) sk with
  | Some existing =>
      if (50 <? dist (p_position r) (p_position existing))%nat
      then (final ++ [r], sk)
      else if Qgtb (p_confidence r) (p_confidence existing)
      then (remove_first existing final ++ [r], seen_set (key r) r sk)
      else (final, sk)
  | None => (final ++ [r], seen_set (key r) r sk)
  end.

(** One iteration of [for r in results]. *)
Definition dedup_step (st : list param_match * seen) (r : param_match)
  : list param_match * seen :=
  let (final, sk) := st in
  match find (overlaps r) final with
  | Some existing =>
      if Qgtb (p_confidence r) (p_confidence existing) then
        let final := remove_first existing final in
        let sk := match seen_get (key existing) sk with
                  | Some v => if param_eqb v existing then seen_del (key existing) sk else sk
                  | None => sk
                  end in
        key_step r final sk
      else (final, sk)
  | None => key_step r final sk
  end.

Definition resolve_conflicts (results : list param_match) : list param_match :=
  sort_by_position (fst (fold_left dedup_step (sort_by_position results) ([], []))).

End Params.

(** ** The canonical-model registry ([model_normalization.py]) *)
Module Registry.

Inductive exn := FileNotFoundError.

(** A computation that returns a value or raises. *)
Inductive result (A : Type) := Ok (a : A) | Raise (e : exn).
Arguments Ok {A} a.
Arguments Raise {A} e.

(** The ["mapping"] dictionary, in insertion order. *)
Definition registry := list (ustr * ustr).

Fixpoint reg_get (k : ustr) (m : registry) : option ustr :=
  match m with
  | [] => None
  | (k', v) :: m' => if ustr_eqb k' k then Some v else reg_get k m'
  end.

(** [mapping[k] = v]: an existing key keeps its place. *)
Fixpoint reg_set (k v : ustr) (m : registry) : registry :=
  match m with
  | [] => [(k, v)]
  | (k', v') :: m' => if ustr_eqb k' k then (k', v) :: m' else (k', v') :: reg_set k v m'
  end.

(** [raw.split("->", 1)] when ["->"] occurs in [raw]. *)
Fixpoint split_arrow (s : ustr) : option (ustr * ustr) :=
  match s with
  | [] => None
  | c :: rest =>
      if (c =? 45) && match rest with d :: _ => d =? 62 | [] => false end
      then Some ([], tl rest)
      else match split_arrow rest with
           | Some (l, r) => Some (c :: l, r)
           | None => None
           end
  end.

(** The body of the [for line in f] loop. *)
Definition load_line (mapping : registry) (line : ustr) : registry :=
  let raw := strip line in
  match raw with
  | [] => mapping
  | c :: _ =>
      if c =? 35 then mapping                       (* a "#" comment *)
      else match split_arrow raw with
           | None => mapping
           | Some (left_part, right_part) =>
               let original := strip left_part in
               let normalized := strip right_part in
               reg_set (lower original) normalized mapping
           end
  end.

(** [load_canonical_models()]: the file is given by its lines, [None]
    when it does not exist. *)
Definition load_canonical_models (data_file : option (list ustr)) : result registry :=
  match data_file with
  | None => Raise FileNotFoundError
  | Some lines => Ok (fold_left load_line lines [])
  end.

Definition normalize_model (data_file : option (list ustr)) (model_name : ustr)
  : result (option ustr) :=
  match model_name with
  | [] => Ok None
  | _ =>
      match load_canonical_models data_file with
      | Raise e => Raise e
      | Ok mapping => Ok (reg_get (lower (strip model_name)) mapping)
      end
  end.

End Registry.

(** ** [extract_entities_with_metadata] *)
Module Extract.
Import Data Binder Pipeline.

(** A span of the NER model ([doc.ents]). *)
Record ner_span := mkSpan {
  label : ustr; ent_text : ustr; start_char : nat; end_char : nat }.

Local Open Scope string_scope.
Definition stopwords : list ustr :=
  map u [ "які"; "який"; "яка"; "яке"; "що"; "чи"; "для"; "від"; "при";
          "під"; "над"; "про"; "без"; "через"; "після"; "перед"; "біля"; "коло";
          "поза"; "між"; "поміж"; "серед"; "вздовж"; "всередині";
          "какой"; "какая"; "какое"; "какие"; "что"; "для"; "от"; "при";
          "под"; "над"; "про"; "без"; "через"; "после"; "перед";
          "what"; "which"; "how"; "for"; "from"; "with"; "without"; "the";
          "this"; "that"; "these"; "those"; "and"; "or"; "give"; "me"; "tell";
          "inverter"; "battery" ].
Local Close Scope string_scope.

Definition is_stopword_or_common (word : ustr) : bool :=
  existsb (ustr_eqb (strip (lower word))) stopwords.

(** [grouped]: label -> list of entities, in insertion order. *)
Definition grouped := list (ustr * list entity).

Fixpoint group_get (l : ustr) (g : grouped) : list entity :=
  match g with
  | [] => []
  | (l', es) :: g' => if ustr_eqb l' l then es else group_get l g'
  end.

Fixpoint group_set (l : ustr) (es : list entity) (g : grouped) : grouped :=
  match g with
  | [] => [(l, es)]
  | (l', es') :: g' => if ustr_eqb l' l then (l', es) :: g' else (l', es') :: group_set l es g'
  end.

Section Extract.
(** The NER post-processing helpers ([clean_word], [normalize_entity]), the
    canonical-model lookup and the metadata registry. *)
Variable clean_word : ustr -> ustr.
Variable normalize_entity : ustr -> ustr -> ustr.
Variable normalize_model : ustr -> option ustr.
Variable get_model_metadata : ustr -> option model_metadata.

(** The entity dictionary built for a span. *)
Definition entity_of (ent : ner_span) (normalized : ustr) : entity :=
  let c := ((70 # 100) + inject_Z (Z.of_nat (length (ent_text ent))) / 50)%Q in
  let confidence := if Qle_bool (95 # 100) c then 95 # 100 else c in
  if ustr_eqb (label ent) (u "MODEL") then
    let canonical := normalize_model (ent_text ent) in
    mkEntity canonical confidence (start_char ent) (end_char ent)
             (Some (ent_text ent))
             (match canonical with
              | Some (c0 :: cs) => get_model_metadata (c0 :: cs)
              | _ => None
              end)
  else mkEntity (Some normalized) confidence (start_char ent) (end_char ent) None None.

Definition extract_step (g : grouped) (ent : ner_span) : grouped :=
  let lbl := label ent in
  let normalized := normalize_entity (clean_word (ent_text ent)) lbl in
  if ustr_eqb lbl (u "MANUFACTURER") && is_stopword_or_common normalized then g
  else
    let entity_dict := entity_of ent normalized in
    let group := group_get lbl g in
    if existsb (fun e => opt_ustr_eqb (value e) (value entity_dict)) group
    then group_set lbl group g
    else group_set lbl (group ++ [entity_dict]) g.

Definition extract_entities_with_metadata (ents : list ner_span) : grouped :=
  fold_left extract_step ents [].

End Extract.
End Extract.

(** ** [build_param_bindings_logic] ([llm_processor.py]) *)
Module LLMLogic.
Import Data Binder Pipeline.

(** [bindings_dict]: model value -> parameter keys, in insertion order. *)
Definition bdict := list (ustr * list ustr).

Fixpoint bd_get (k : ustr) (d : bdict) : option (list ustr) :=
  match d with
  | [] => None
  | (k', v) :: d' => if ustr_eqb k' k then Some v else bd_get k d'
  end.

(** [bindings_dict[k] = v]: an existing key keeps its place. *)
Fixpoint bd_set (k : ustr) (v : list ustr) (d : bdict) : bdict :=
  match d with
  | [] => [(k, v)]
  | (k', v') :: d' => if ustr_eqb k' k then (k', v) :: d' else (k', v') :: bd_set k v d'
  end.

(** [valid_models]: the MODEL entities whose value is not [None], as
    (position, value) pairs. *)
Definition valid_values (models : list entity) : list (nat * ustr) :=
  flat_map (fun m => match value m with Some v => [(position m, v)] | None => [] end)
           models.

(** One iteration of [for param in parameters]. *)
Definition bindings_step (vm0 : nat * ustr) (vms : list (nat * ustr)) (d : bdict)
    (param : param_match) : bdict :=
  let param_pos := p_position param in
  let closest_model := min_by (fun m => dist (fst m) param_pos) vm0 vms in
  let model_value := snd closest_model in
  let param_key := key param in
  let d := match bd_get model_value d with Some _ => d | None => bd_set model_value [] d end in
  let cur := match bd_get model_value d with Some l => l | None => [] end in
  if existsb (ustr_eqb param_key) cur then d else bd_set model_value (cur ++ [param_key]) d.

Definition build_param_bindings_logic (models : list entity) (parameters : list param_match)
    : list binding :=
  match valid_values models, parameters with
  | [], _ => []
  | _, [] => []
  | vm0 :: vms, _ =>
      let bindings_dict := fold_left (bindings_step vm0 vms) parameters [] in
      flat_map (fun '(model, params) =>
                  match model with [] => [] | _ => [mkBinding model params] end)
               bindings_dict
  end.

(** The string [determine_status] returns. *)
Definition status_name (st : Status.status) : ustr :=
  match st with
  | Status.St_parallel => u "parallel"
  | Status.St_compat => u "compat"
  | Status.St_simple => u "simple"
  | Status.St_complex => u "complex"
  end.

Definition determine_intent_logic (status : ustr) (extracted_entities : extracted) : ustr :=
  if ustr_eqb status (u "compat") then u "compatibility_query"
  else if ustr_eqb status (u "simple") then u "sql_query"
  else match parameters extracted_entities with
       | _ :: _ => u "multi_model_query"
       | [] => match model extracted_entities with
               | _ :: _ => u "uncertain"
               | [] => u "no_entities"
               end
       end.

End LLMLogic.

(** ** [model_metadata.py] *)
Module Metadata.
Import Registry.

Record meta_entry := mkMeta { me_manufacturer : ustr; me_equipment_type : ustr }.

(** A row of [csv.DictReader]: column -> field; a field missing from a
    short line is [None] (the reader's [restval]). *)
Definition csv_row := list (ustr * option ustr).

(** [row.get(k, d)]; a later column of the same name wins.  [None]: the
    field is [None], and [.strip()] on it raises. *)
Definition row_get (row : csv_row) (k d : ustr) : option ustr :=
  match find (fun kv => ustr_eqb (fst kv) k) (rev row) with
  | Some (_, Some v) => Some v
  | Some (_, None) => None
  | None => Some d
  end.

(** The [metadata] dictionary, in insertion order. *)
Definition mdict := list (ustr * meta_entry).

Fixpoint md_get (k : ustr) (m : mdict) : option meta_entry :=
  match m with
  | [] => None
  | (k', v) :: m' => if ustr_eqb k' k then Some v else md_get k m'
  end.

Fixpoint md_set (k : ustr) (v : meta_entry) (m : mdict) : mdict :=
  match m with
  | [] => [(k, v)]
  | (k', v') :: m' => if ustr_eqb k' k then (k', v) :: m' else (k', v') :: md_set k v m'
  end.

Local Open Scope string_scope.
(** The [for row in reader] loop; an exception (a [None] field) ends it
    and the [except] clause returns the entries loaded so far. *)
Fixpoint load_rows (rows : list csv_row) (metadata : mdict) : mdict :=
  match rows with
  | [] => metadata
  | row :: rows' =>
      match row_get row (u "model_code") [], row_get row (u "manufacturer_id") [],
            row_get row (u "equipment_type_id") [], row_get row (u "is_active") (u "1") with
      | Some mc, Some mf, Some et, Some ia =>
          let model_code := lower (strip mc) in
          let manufacturer := lower (strip mf) in
          let equipment_type := lower (strip et) in
          let is_active := strip ia in
          let metadata :=
            match model_code with
            | [] => metadata
            | _ => if ustr_eqb is_active (u "1")
                   then md_set model_code (mkMeta manufacturer equipment_type) metadata
                   else metadata
            end in
          load_rows rows' metadata
      | _, _, _, _ => metadata
      end
  end.
Local Close Scope string_scope.

(** [load_model_metadata()]: the CSV file by its rows, [None] when it
    does not exist (a warning is printed and [{}] returned). *)
Definition load_model_metadata (data_file : option (list csv_row)) : mdict :=
  match data_file with
  | None => []
  | Some rows => load_rows rows []
  end.

Definition get_model_metadata (data_file : option (list csv_row)) (canonical_model : ustr)
  : option meta_entry :=
  match canonical_model with
  | [] => None
  | _ => md_get (lower (strip canonical_model)) (load_model_metadata data_file)
  end.

Definition get_manufacturer (data_file : option (list csv_row)) (canonical_model : ustr)
  : option ustr :=
  match get_model_metadata data_file canonical_model with
  | Some meta => Some (me_manufacturer meta)
  | None => None
  end.

Definition get_equipment_type (data_file : option (list csv_row)) (canonical_model : ustr)
  : option ustr :=
  match get_model_metadata data_file canonical_model with
  | Some meta => Some (me_equipment_type meta)
  | None => None
  end.

End Metadata.

(** ** [clean_canon_models.py] and [is_model_in_canon] *)
Module CleanCanon.
Import Registry.

(** The class [[a-zA-Z0-9]]. *)
Definition is_ascii_alnum (c : Z) : bool :=
  in_range 48 57 c || in_range 65 90 c || in_range 97 122 c.

Definition clean_model_name (model_name : ustr) : ustr :=
  match model_name with
  | [] => []
  | _ => lower (filter is_ascii_alnum model_name)
  end.

(** The output line of one input line of [clean_canon_file]. *)
Definition clean_line (line : ustr) : ustr :=
  let raw := strip line in
  match raw with
  | [] => line
  | c :: _ =>
      if c =? 35 then line
      else match split_arrow raw with
           | None => line
           | Some (left_part, right_part) =>
               let original := strip left_part in
               let canonical := strip right_part in
               let cleaned_left := clean_model_name original in
               match cleaned_left with
               | [] => line
               | _ => cleaned_left ++ u " -> " ++ canonical ++ [10]
               end
           end
  end.

(** [clean_canon_file(input_file)] on the file's lines ([None]: the file
    does not exist and nothing is written).  The backup copy is not
    modelled. *)
Definition clean_canon_file (input_file : option (list ustr)) : option (list ustr) :=
  match input_file with
  | None => None
  | Some lines => Some (map clean_line lines)
  end.

Definition is_model_in_canon (data_file : option (list ustr)) (model_name : ustr)
  : result bool :=
  match model_name with
  | [] => Ok false
  | _ =>
      match load_canonical_models data_file with
      | Raise e => Raise e
      | Ok mapping =>
          Ok (match reg_get (lower (strip model_name)) mapping with
              | Some _ => true
              | None => false
              end)
      end
  end.

End CleanCanon.

(** ** The exact-match phase of [find_parameters] *)
Module ExactMatch.
Import Data Binder Pipeline Registry.

(** [param_glossary]: key -> synonyms, in insertion order. *)
Definition glossary := list (ustr * list ustr).

(** [synonym_to_key]: [syn.lower().strip()] -> key. *)
Definition build_synonym_to_key (param_glossary : glossary) : registry :=
  fold_left (fun m ks =>
               fold_left (fun m syn => reg_set (strip (lower syn)) (fst ks) m) (snd ks) m)
            param_glossary [].

(** [sorted(..., key=len, reverse=True)]: stable, longest first. *)
Fixpoint insert_desc (x : ustr * ustr) (l : list (ustr * ustr)) : list (ustr * ustr) :=
  match l with
  | [] => [x]
  | y :: l' => if (length (fst y) <? length (fst x))%nat then x :: l
               else y :: insert_desc x l'
  end.

Definition sorted_synonyms (m : registry) : list (ustr * ustr) :=
  fold_left (fun acc x => insert_desc x acc) m [].

(** [s.find(sub, start)] for a non-empty [sub]. *)
Fixpoint find_at (sub s : ustr) (i : nat) : option nat :=
  if is_prefix sub s then Some i
  else match s with [] => None | _ :: s' => find_at sub s' (S i) end.

Definition str_find (sub s : ustr) (start : nat) : option nat :=
  if (start <=? length s)%nat then find_at sub (skipn start s) start else None.

(** [str.isalnum()] on one character, within the coverage of
    [is_word]. *)
Definition isalnum (c : Z) : bool := is_word c && negb (c =? 95).

Definition before_ok (text : ustr) (idx : nat) : bool :=
  match idx with
  | O => true
  | S j => match nth_error text j with Some c => negb (isalnum c) | None => true end
  end.

Definition after_ok (text : ustr) (e : nat) : bool :=
  (length text <=? e)%nat
  || match nth_error text e with Some c => negb (isalnum c) | None => true end.

(** [any(abs(p - pos) < 5 for p in found_positions)] *)
Definition near (found_positions : list nat) (pos : nat) : bool :=
  existsb (fun p => (dist p pos <? 5)%nat) found_positions.

(** The [while True] loop for one synonym; [fuel] bounds the iterations
    (each one moves [start] forward). *)
Fixpoint exact_scan (text lower_text syn key : ustr) (fuel start : nat)
    (found_positions : list nat) (results : list param_match)
    : list nat * list param_match :=
  match fuel with
  | O => (found_positions, results)
  | S f =>
      match str_find syn lower_text start with
      | None => (found_positions, results)
      | Some idx =>
          let next := (idx + length syn)%nat in
          if near found_positions idx then
            exact_scan text lower_text syn key f next found_positions results
          else if negb (before_ok text idx && after_ok text next) then
            exact_scan text lower_text syn key f next found_positions results
          else
            exact_scan text lower_text syn key f next (idx :: found_positions)
              (results ++ [mkParam key syn (95 # 100) idx next
                             (strip (slice text idx next)) (u "exact") None])
      end
  end.

(** The exact phase: the positions found and the exact matches. *)
Definition exact_phase (text : ustr) (param_glossary : glossary)
    : list nat * list param_match :=
  let lower_text := lower text in
  fold_left (fun st sk =>
               match fst sk with
               | [] => st
               | _ => exact_scan text lower_text (fst sk) (snd sk)
                        (S (length lower_text)) 0 (fst st) (snd st)
               end)
            (sorted_synonyms (build_synonym_to_key param_glossary)) ([], []).

End ExactMatch.

(** * Theorems *)

(** ** Classification *)
Module StatusFacts.
Import Data Detect Status.

(** Example queries of the [__main__] block of [llm_processor.py]. *)
Definition ent (v : option string) (pos : nat) : entity :=
  mkEntity (option_map u v) (9 # 10) pos pos None None.
Definition prm (k : string) (pos : nat) : param_match :=
  mkParam (u k) (u k) (95 # 100) pos pos (u k) (u "exact") None.

Definition q_weight : ustr := u "Вага Pylontech US5000".
Definition ee_weight : extracted :=
  mkExtracted [ent (Some "pylontech"%string) 5] [ent (Some "us5000"%string) 15] []
              [prm "weight_kg" 0].

Definition q_compat : ustr := u "Чи сумісний Pylontech US5000 з Victron MultiPlus?".
Definition ee_compat : extracted :=
  mkExtracted [ent (Some "pylontech"%string) 15; ent (Some "victron"%string) 40]
              [ent (Some "us5000"%string) 25; ent (Some "multiplus"%string) 50] [] [].

Definition q_compat_parallel : ustr :=
  u "Are these batteries compatible in parallel?".

(** C1: when neither keyword detector fires, the status is [simple]
    exactly when 1 to 2 models have a canonical value and 1 to 2
    parameters were retained, and [complex] otherwise; models with a
    [None] value do not take part. *)
Theorem determine_status_simple_iff (ee : extracted) (text : ustr)
  (Hpar : detect_parallel_query text = false)
  (Hcomp : detect_compatibility_query text = false) :
  (determine_status ee text = St_simple <->
     (1 <= length (valid_models ee) <= 2 /\ 1 <= length (parameters ee) <= 2)%nat)
  /\ (determine_status ee text <> St_simple -> determine_status ee text = St_complex)
  /\ (forall ee', valid_models ee' = valid_models ee ->
        parameters ee' = parameters ee ->
        determine_status ee' text = determine_status ee text).
Proof.
  unfold determine_status; rewrite Hpar, Hcomp.
  split; [|split].
  - destruct (Nat.leb_spec 1 (length (valid_models ee)));
      destruct (Nat.leb_spec 1 (length (parameters ee)));
      destruct (Nat.leb_spec (length (valid_models ee)) 2);
      destruct (Nat.leb_spec (length (parameters ee)) 2);
      cbn; split; intros; try discriminate; try lia; reflexivity.
  - destruct (_ && _)%bool; [destruct (_ && _)%bool|]; congruence.
  - intros ee' Hv Hp; rewrite Hv, Hp; reflexivity.
Qed.

Lemma determine_status_simple_iff_witness :
  detect_parallel_query q_weight = false
  /\ detect_compatibility_query q_weight = false
  /\ determine_status ee_weight q_weight = St_simple.
Proof.
  assert (H1 : detect_parallel_query q_weight = false) by (vm_compute; reflexivity).
  assert (H2 : detect_compatibility_query q_weight = false) by (vm_compute; reflexivity).
  split; [exact H1 | split; [exact H2 |]].
  apply (proj2 (proj1 (determine_status_simple_iff ee_weight q_weight H1 H2))).
  cbn; lia.
Defined.

(** C3 (as stated): a text with a compatibility keyword that also has a
    parallel keyword is classified [parallel], not [compat]. *)
Lemma determine_status_compat_keyword_cex :
  detect_compatibility_query q_compat_parallel = true
  /\ determine_status ee_compat q_compat_parallel = St_parallel.
Proof. split; vm_compute; reflexivity. Qed.

(** C3 (amended): a text that matches a compatibility keyword pattern is
    classified [compat] when it matches no parallel keyword pattern and
    [parallel] when it matches one, whatever the entities and parameters. *)
Theorem determine_status_compat (ee : extracted) (text : ustr)
  (Hcomp : detect_compatibility_query text = true) :
  (detect_parallel_query text = false -> determine_status ee text = St_compat)
  /\ (detect_parallel_query text = true -> determine_status ee text = St_parallel).
Proof.
  unfold determine_status; rewrite Hcomp.
  split; intros Hpar; rewrite Hpar; reflexivity.
Qed.

Lemma determine_status_compat_witness :
  detect_compatibility_query q_compat = true
  /\ determine_status ee_compat q_compat = St_compat
  /\ detect_compatibility_query q_compat_parallel = true
  /\ determine_status ee_compat q_compat_parallel = St_parallel.
Proof.
  assert (H1 : detect_parallel_query q_compat = false) by (vm_compute; reflexivity).
  assert (H2 : detect_compatibility_query q_compat = true) by (vm_compute; reflexivity).
  assert (H3 : detect_parallel_query q_compat_parallel = true) by (vm_compute; reflexivity).
  assert (H4 : detect_compatibility_query q_compat_parallel = true) by (vm_compute; reflexivity).
  split; [exact H2 | split; [| split; [exact H4 |]]].
  - exact (proj1 (determine_status_compat ee_compat q_compat H2) H1).
  - exact (proj2 (determine_status_compat ee_compat q_compat_parallel H4) H3).
Defined.

End StatusFacts.

(** ** Binding and routing *)
Module RoutingFacts.
Import Data Detect Status Segment Binder Pipeline StatusFacts.

Lemma min_by_nil {A} (f : A -> nat) (x : A) : min_by f x [] = x.
Proof. reflexivity. Qed.

Lemma flat_map_filter_one {A B} (P : A -> B -> bool) (g : A -> B -> sub_query)
      (p : B) (segs : list A) :
  flat_map (fun seg => map (g seg) (filter (P seg) [p])) segs
  = map (fun seg => g seg p) (filter (fun seg => P seg p) segs).
Proof.
  induction segs as [|a segs IH]; [reflexivity|].
  change (map (g a) (filter (P a) [p]) ++ flat_map (fun seg => map (g seg) (filter (P seg) [p])) segs
          = map (fun seg => g seg p) (filter (fun seg => P seg p) (a :: segs))).
  rewrite IH; cbn; destruct (P a p); reflexivity.
Qed.

Lemma bind_param_one_model mans eqs cm seg p :
  sq_model (bind_param mans eqs cm [] seg p) = cm_canonical cm
  /\ sq_parameter (bind_param mans eqs cm [] seg p) = key p.
Proof.
  unfold bind_param; cbn.
  destruct (in_segment seg (cm_pos cm)); cbn; split; reflexivity.
Qed.

(** A query of [map_parameters_to_models]: one resolved model and a
    glossary phrase (of ["grid_monitoring"]) that contains the conjunction
    " і ". *)
Definition q_straddle : ustr := u "контроль напруги і частоти мережі для US5000".
Definition nm_demo (s : ustr) : option ustr :=
  if ustr_eqb s (u "US5000") then Some (u "us5000") else None.
Definition m_us5000 (pos : nat) : entity :=
  mkEntity (Some (u "us5000")) (95 # 100) pos (pos + 6) (Some (u "US5000")) None.
Definition p_grid : param_match :=
  mkParam (u "grid_monitoring") (u "контроль напруги і частоти мережі") (95 # 100)
          0 33 (u "контроль напруги і частоти мережі") (u "exact") None.
Definition p_weight : param_match :=
  mkParam (u "weight_kg") (u "вага") (95 # 100) 0 4 (u "Вага") (u "exact") None.

(** C2: one resolved model and one parameter match whose phrase
    straddles a conjunction give two identical sub-queries, one per
    segment the phrase overlaps, and so [multi_query], not
    [single_query]. *)
Lemma build_routing_straddling_param_cex :
  valid_cmodels nm_demo [m_us5000 38] = [mkCModel (m_us5000 38) (u "us5000")]
  /\ (exists sq, map_parameters_to_models nm_demo [p_grid] [m_us5000 38] [] [] q_straddle
                 = [sq; sq])
  /\ strategy (build_routing nm_demo [] [m_us5000 38] [] [p_grid] q_straddle)
     = u "multi_query".
Proof. split; [|split; [eexists|]]; vm_compute; reflexivity. Qed.

(** With exactly one MODEL entity whose canonical value is non-empty
    and exactly one parameter match, every sub-query of
    [map_parameters_to_models] carries that canonical value as its model,
    and when the parameter's span overlaps exactly one segment (with the
    border tolerance) [build_routing] returns [single_query] with a
    sub-query for that model and parameter. *)
Theorem build_routing_one_model_one_param (nm : ustr -> option ustr)
  (mans models eqs : list entity) (p : param_match) (text : ustr) (cm : cmodel)
  (Hvalid : valid_cmodels nm models = [cm])
  (Hseg : length (filter (fun seg => overlaps_with_segment (p_position p)
                                       (p_end_position p) (seg_start seg) (seg_end seg))
                         (split_into_segments text)) = 1%nat) :
  (forall sq, In sq (map_parameters_to_models nm [p] models mans eqs text) ->
              sq_model sq = cm_canonical cm)
  /\ exists sq, build_routing nm mans models eqs [p] text = R_single sq
                /\ sq_model sq = cm_canonical cm /\ sq_parameter sq = key p.
Proof.
  assert (Hmap : map_parameters_to_models nm [p] models mans eqs text
                 = map (fun seg => bind_param mans eqs cm [] seg p)
                       (filter (fun seg => overlaps_with_segment (p_position p)
                                  (p_end_position p) (seg_start seg) (seg_end seg))
                               (split_into_segments text))).
  { unfold map_parameters_to_models; rewrite Hvalid.
    apply (flat_map_filter_one
             (fun seg q => overlaps_with_segment (p_position q) (p_end_position q)
                             (seg_start seg) (seg_end seg))
             (fun seg => bind_param mans eqs cm [] seg)). }
  split.
  - intros sq Hin; rewrite Hmap in Hin; apply in_map_iff in Hin.
    destruct Hin as [seg [<- _]]; apply bind_param_one_model.
  - destruct (filter _ (split_into_segments text)) as [|seg [|seg' rest]] eqn:E;
      cbn in Hseg; try discriminate.
    exists (bind_param mans eqs cm [] seg p).
    assert (Hm : models <> []) by (intros ->; discriminate Hvalid).
    unfold build_routing; rewrite Hmap.
    destruct mans, models; try contradiction; cbn [map];
      (split; [reflexivity | apply bind_param_one_model]).
Qed.

End RoutingFacts.

(** ** The pipeline's final routing *)
Module PipelineFacts.
Import Data Detect Status Binder Pipeline StatusFacts.

(** Collaborators used to run [process] on examples: a question-type
    detector built on the compatibility keywords, an extractor returning
    the entities of the example query, and an LLM step that answers
    [simple] with no bindings. *)
Definition dqt_demo (t : ustr) : ustr :=
  if detect_compatibility_query t then u "compat" else u "other".
Definition ext_demo (_ : ustr) : extracted := ee_compat.
Definition nm_demo_pf (_ : ustr) : option ustr := None.
Definition llm_demo (_ : extracted) (_ : ustr) : llm_result :=
  mkLLMResult (Some (u "simple")) (Some (u "sql_query")) [].

Definition routing_strategies : list ustr :=
  [u "noEntities"; u "single_query"; u "multi_query"].

Lemma strategy_in {SQ} (r : routing SQ) : In (strategy r) routing_strategies.
Proof. destruct r; cbn; tauto. Qed.

(** C4 (as stated): a query of compatibility type is routed [noEntities],
    not [compatibility_check]. *)
Lemma process_compat_routing_cex :
  out_question_type (process dqt_demo ext_demo llm_demo q_compat) = u "compat"
  /\ strategy (out_routing (process dqt_demo ext_demo llm_demo q_compat)) = u "noEntities"
  /\ strategy (out_routing (process dqt_demo ext_demo llm_demo q_compat))
     <> u "compatibility_check".
Proof. split; [|split]; vm_compute; [reflexivity | reflexivity | discriminate]. Qed.

(** C4 (amended): the routing of [IPGPipeline.process] is always
    [noEntities], [single_query] or [multi_query] (never
    [compatibility_check]); for a query whose question type is [compat]
    the LLM step is skipped, the reported status is [complex] with intent
    [compatibility_query], the parameter list is empty, and the routing is
    [noEntities] with message "No valid parameter bindings found" and no
    sub-queries. *)
Theorem process_compat_question
  (detect_question_type : ustr -> ustr) (extract_entities : ustr -> extracted)
  (llm_process_question : extracted -> ustr -> llm_result) (text : ustr)
  (Hqt : detect_question_type text = u "compat") :
  (forall t, In (strategy (out_routing
                  (process detect_question_type extract_entities llm_process_question t)))
                routing_strategies)
  /\ out_routing (process detect_question_type extract_entities llm_process_question text)
     = R_noEntities (u "No valid parameter bindings found")
  /\ out_status (process detect_question_type extract_entities llm_process_question text)
     = u "complex"
  /\ out_intent (process detect_question_type extract_entities llm_process_question text)
     = u "compatibility_query"
  /\ out_parameters (process detect_question_type extract_entities llm_process_question text)
     = [].
Proof.
  split; [intros t; apply strategy_in|].
  assert (E : ustr_eqb (u "compat") (u "compat") = true) by reflexivity.
  unfold process; rewrite Hqt, E; cbn.
  repeat split; reflexivity.
Qed.

Lemma process_compat_question_witness :
  out_routing (process dqt_demo ext_demo llm_demo q_compat)
  = R_noEntities (u "No valid parameter bindings found").
Proof.
  apply (process_compat_question dqt_demo ext_demo llm_demo q_compat).
  vm_compute; reflexivity.
Defined.

(** C5 (as stated): a [simple] query whose binding step yields nothing
    is routed [noEntities], not [complex_query]. *)
Lemma simple_without_bindings_cex :
  determine_status ee_weight q_weight = St_simple
  /\ strategy (build_final_routing (llm_demo ee_weight q_weight) ee_weight q_weight) = u "noEntities"
  /\ strategy (build_final_routing (llm_demo ee_weight q_weight) ee_weight q_weight) <> u "complex_query".
Proof. split; [|split]; vm_compute; [reflexivity | reflexivity | discriminate]. Qed.

Lemma complex_query_not_strategy {SQ} (r : routing SQ) :
  strategy r <> u "complex_query".
Proof.
  intros E; pose proof (strategy_in r) as H; rewrite E in H.
  vm_compute in H; intuition discriminate.
Qed.

(** C5 (amended): no router returns [complex_query]. When the binding
    step yields no sub-query, [build_routing] returns [noEntities] with no
    options, with the message "No valid parameter-model bindings" once
    some manufacturer, model or parameter was found and "No entities
    detected" otherwise; [IPGPipeline.build_final_routing] returns
    [noEntities] with "No valid parameter bindings found" and no options
    whenever there are no parameter bindings. *)
Theorem routing_without_bindings (nm : ustr -> option ustr)
  (mans models eqs : list entity) (params : list param_match) (text : ustr)
  (Hnone : map_parameters_to_models nm params models mans eqs text = []) :
  (mans <> [] \/ models <> [] \/ params <> [] ->
   build_routing nm mans models eqs params text
   = R_noEntities (u "No valid parameter-model bindings"))
  /\ (mans = [] -> models = [] -> params = [] ->
      build_routing nm mans models eqs params text
      = R_noEntities (u "No entities detected"))
  /\ (forall llm ee t, lr_param_bindings llm = [] ->
        build_final_routing llm ee t = R_noEntities (u "No valid parameter bindings found"))
  /\ (forall nm' mans' models' eqs' params' t',
        strategy (build_routing nm' mans' models' eqs' params' t') <> u "complex_query")
  /\ (forall llm ee t, strategy (build_final_routing llm ee t) <> u "complex_query").
Proof.
  split; [|split; [|split; [|split]]].
  - intros Hent; unfold build_routing; rewrite Hnone.
    destruct mans, models, params; try reflexivity.
    destruct Hent as [H|[H|H]]; contradiction.
  - intros -> -> ->; reflexivity.
  - intros llm ee t H; unfold build_final_routing; rewrite H; reflexivity.
  - intros; apply complex_query_not_strategy.
  - intros; apply complex_query_not_strategy.
Qed.

Lemma routing_without_bindings_witness :
  build_routing nm_demo_pf [ent (Some "pylontech"%string) 0] [] [] [] (u "Pylontech")
  = R_noEntities (u "No valid parameter-model bindings").
Proof.
  refine (proj1 (routing_without_bindings nm_demo_pf [ent (Some "pylontech"%string) 0]
                  [] [] [] (u "Pylontech") _) _).
  - vm_compute; reflexivity.
  - left; discriminate.
Defined.

End PipelineFacts.

(** ** String equality *)
Module StrFacts.
Import Pipeline.

Lemma ustr_eqb_eq (a b : ustr) : ustr_eqb a b = true <-> a = b.
Proof.
  revert b; induction a as [|x a IH]; intros [|y b]; cbn;
    try (split; intros; discriminate || reflexivity).
  rewrite andb_true_iff, Z.eqb_eq, IH.
  split; [intros [-> ->]; reflexivity | intros H; injection H; auto].
Qed.

Lemma ustr_eqb_refl (a : ustr) : ustr_eqb a a = true.
Proof. apply ustr_eqb_eq; reflexivity. Qed.

Lemma opt_ustr_eqb_eq (a b : option ustr) : opt_ustr_eqb a b = true <-> a = b.
Proof.
  destruct a as [x|], b as [y|]; cbn;
    try (split; intros; discriminate || reflexivity).
  rewrite ustr_eqb_eq; split; [intros ->; reflexivity | intros H; injection H; auto].
Qed.

End StrFacts.

(** ** The canonical-model registry *)
Module RegistryFacts.
Import Registry StrFacts.

Lemma reg_get_set (k k' v : ustr) (m : registry) :
  reg_get k (reg_set k' v m) = if ustr_eqb k' k then Some v else reg_get k m.
Proof.
  induction m as [|[k0 v0] m IH]; cbn.
  - destruct (ustr_eqb k' k); reflexivity.
  - destruct (ustr_eqb k0 k') eqn:E0; cbn.
    + apply ustr_eqb_eq in E0; subst k0.
      destruct (ustr_eqb k' k); reflexivity.
    + rewrite IH. destruct (ustr_eqb k0 k) eqn:E1; [|reflexivity].
      apply ustr_eqb_eq in E1; subst k0.
      destruct (ustr_eqb k' k) eqn:E2; [|reflexivity].
      apply ustr_eqb_eq in E2; subst k'; rewrite ustr_eqb_refl in E0; discriminate.
Qed.

Lemma load_lines_source (k c : ustr) (lines : list ustr) (m : registry) :
  reg_get k (fold_left load_line lines m) = Some c ->
  reg_get k m = Some c
  \/ exists line l r, In line lines /\ split_arrow (strip line) = Some (l, r)
                      /\ lower (strip l) = k /\ strip r = c.
Proof.
  revert m; induction lines as [|line lines IH]; intros m H; [left; exact H|].
  cbn in H; apply IH in H.
  destruct H as [H|[line' [l [r [Hin Hrest]]]]];
    [|right; exists line', l, r; split; [right; exact Hin | exact Hrest]].
  unfold load_line in H.
  destruct (strip line) as [|ch rest] eqn:Es; [left; exact H|].
  destruct (ch =? 35); [left; exact H|].
  destruct (split_arrow (ch :: rest)) as [[l r]|] eqn:Ea; [|left; exact H].
  rewrite reg_get_set in H.
  destruct (ustr_eqb (lower (strip l)) k) eqn:Ek.
  - right; exists line, l, r; apply ustr_eqb_eq in Ek.
    injection H as <-; rewrite Es; repeat split; auto; left; reflexivity.
  - left; exact H.
Qed.

(** C8 (as stated): without the registry file, [normalize_model] raises. *)
Lemma normalize_model_missing_file_cex :
  normalize_model None (u "US5000") = Raise FileNotFoundError.
Proof. reflexivity. Qed.

(** C8 (amended): [normalize_model] returns [None] for empty input
    (without reading the registry); otherwise it raises
    [FileNotFoundError] when the registry file is missing, and when the
    file exists it returns the registry's entry for the stripped,
    lowercased input, or [None] when there is no such key.  A canonical
    name it returns always comes from a registry line whose stripped,
    lowercased left side is the stripped, lowercased input: there is no
    fallback to the input. *)
Theorem normalize_model_registry (data_file : option (list ustr)) (name : ustr) :
  (name = [] -> normalize_model data_file name = Ok None)
  /\ (data_file = None -> name <> [] -> normalize_model data_file name = Raise FileNotFoundError)
  /\ (forall lines, data_file = Some lines -> name <> [] ->
        normalize_model data_file name
        = Ok (reg_get (lower (strip name)) (fold_left load_line lines [])))
  /\ (forall c, normalize_model data_file name = Ok (Some c) ->
        exists lines line l r, data_file = Some lines /\ In line lines
          /\ split_arrow (strip line) = Some (l, r)
          /\ lower (strip l) = lower (strip name) /\ strip r = c).
Proof.
  split; [intros ->; reflexivity|].
  split; [intros -> Hn; destruct name; [contradiction | reflexivity]|].
  split; [intros lines -> Hn; destruct name; [contradiction | reflexivity]|].
  intros c H; destruct name as [|x name]; [discriminate|].
  destruct data_file as [lines|]; [|discriminate].
  cbn in H; injection H as H.
  apply load_lines_source in H; destruct H as [H|[line [l [r [Hin [Ha [Hk Hc]]]]]]];
    [discriminate|].
  exists lines, line, l, r; repeat split; auto.
Qed.

End RegistryFacts.

(** ** Entity extraction *)
Module ExtractFacts.
Import Data Status Pipeline Extract StrFacts.

Lemma group_get_set (l l' : ustr) (es : list entity) (g : grouped) :
  group_get l (group_set l' es g) = if ustr_eqb l' l then es else group_get l g.
Proof.
  induction g as [|[l0 es0] g IH]; cbn.
  - destruct (ustr_eqb l' l); reflexivity.
  - destruct (ustr_eqb l0 l') eqn:E0; cbn.
    + apply ustr_eqb_eq in E0; subst l0.
      destruct (ustr_eqb l' l); reflexivity.
    + rewrite IH. destruct (ustr_eqb l0 l) eqn:E1; [|reflexivity].
      apply ustr_eqb_eq in E1; subst l0.
      destruct (ustr_eqb l' l) eqn:E2; [|reflexivity].
      apply ustr_eqb_eq in E2; subst l'; rewrite ustr_eqb_refl in E0; discriminate.
Qed.

Lemma group_set_same (l : ustr) (g : grouped) :
  group_get l g <> [] -> group_set l (group_get l g) g = g.
Proof.
  induction g as [|[l0 es0] g IH]; cbn; intros H; [contradiction|].
  destruct (ustr_eqb l0 l) eqn:E; [reflexivity|].
  rewrite (IH H); reflexivity.
Qed.

Lemma stopwords_normal : forall w, In w stopwords -> strip (lower w) = w.
Proof.
  assert (H : forallb (fun w => ustr_eqb (strip (lower w)) w) stopwords = true)
    by (vm_compute; reflexivity).
  intros w Hw; rewrite forallb_forall in H.
  apply ustr_eqb_eq, H, Hw.
Qed.

Lemma stopword_in (w : ustr) : In w stopwords -> is_stopword_or_common w = true.
Proof.
  intros Hw; unfold is_stopword_or_common; rewrite (stopwords_normal w Hw).
  apply existsb_exists; exists w; split; [exact Hw | apply ustr_eqb_refl].
Qed.

Lemma stopword_not_in (w : ustr) : is_stopword_or_common w = false -> ~ In w stopwords.
Proof. intros H Hw; rewrite (stopword_in w Hw) in H; discriminate. Qed.

Lemma fold_left_filter_skip {A B} (f : A -> B -> A) (keep : B -> bool) (l : list B) (a : A) :
  (forall a' x, keep x = false -> f a' x = a') ->
  fold_left f (filter keep l) a = fold_left f l a.
Proof.
  intros Hskip; revert a; induction l as [|x l IH]; intros a; [reflexivity|].
  cbn; destruct (keep x) eqn:Ek; cbn; [apply IH|].
  rewrite (Hskip a x Ek); apply IH.
Qed.

Lemma manufacturer_not_model : ustr_eqb (u "MANUFACTURER") (u "MODEL") = false.
Proof. reflexivity. Qed.

Section WithHelpers.
Variable clean_word : ustr -> ustr.
Variable normalize_entity : ustr -> ustr -> ustr.
Variable normalize_model : ustr -> option ustr.
Variable get_model_metadata : ustr -> option model_metadata.

Let extract := extract_entities_with_metadata clean_word normalize_entity
                 normalize_model get_model_metadata.
Let step := extract_step clean_word normalize_entity normalize_model get_model_metadata.
Let ent_of := entity_of normalize_model get_model_metadata.
Let norm (ent : ner_span) : ustr := normalize_entity (clean_word (ent_text ent)) (label ent).

Lemma extract_step_get (g : grouped) (ent : ner_span) (l : ustr) :
  group_get l (step g ent)
  = if ustr_eqb (label ent) (u "MANUFACTURER") && is_stopword_or_common (norm ent)
    then group_get l g
    else if ustr_eqb (label ent) l then
      (if existsb (fun e => opt_ustr_eqb (value e) (value (ent_of ent (norm ent))))
                  (group_get (label ent) g)
       then group_get (label ent) g
       else group_get (label ent) g ++ [ent_of ent (norm ent)])
    else group_get l g.
Proof.
  unfold step, extract_step, norm, ent_of.
  destruct (_ && _)%bool; [reflexivity|].
  destruct (existsb _ _); rewrite group_get_set; reflexivity.
Qed.

Lemma manufacturers_invariant (ents : list ner_span) (g : grouped) :
  (forall e, In e (group_get (u "MANUFACTURER") g) ->
     exists v, value e = Some v /\ is_stopword_or_common v = false) ->
  forall e, In e (group_get (u "MANUFACTURER") (fold_left step ents g)) ->
     exists v, value e = Some v /\ is_stopword_or_common v = false.
Proof.
  revert g; induction ents as [|ent ents IH]; intros g Hg; [exact Hg|].
  cbn [fold_left]; apply IH; intros e He.
  rewrite extract_step_get in He.
  destruct (ustr_eqb (label ent) (u "MANUFACTURER")) eqn:Em; cbn [andb] in He.
  - destruct (is_stopword_or_common (norm ent)) eqn:Es; [exact (Hg e He)|].
    apply ustr_eqb_eq in Em; rewrite Em in He.
    destruct (existsb _ _); [exact (Hg e He)|].
    apply in_app_or in He; destruct He as [He|[<-|[]]]; [exact (Hg e He)|].
    unfold ent_of, entity_of; rewrite Em, manufacturer_not_model; cbn [value].
    exists (norm ent); split; [reflexivity | exact Es].
  - destruct (ustr_eqb (label ent) (u "MANUFACTURER")) eqn:Em'; [discriminate|].
    exact (Hg e He).
Qed.

(** C9: spans labelled MANUFACTURER whose normalized text is one of the
    stopwords (among them "inverter" and "battery") are dropped: removing
    them from the NER output does not change the result, and no
    manufacturer entity of the result has a stopword as its value. *)
Theorem extract_drops_stopword_manufacturers (ents : list ner_span) :
  In (u "inverter") stopwords /\ In (u "battery") stopwords
  /\ extract ents
     = extract (filter (fun ent => negb (ustr_eqb (label ent) (u "MANUFACTURER")
                                         && existsb (ustr_eqb (norm ent)) stopwords))
                       ents)
  /\ (forall e, In e (group_get (u "MANUFACTURER") (extract ents)) ->
        exists v, value e = Some v /\ ~ In v stopwords).
Proof.
  split; [cbn; tauto|]. split; [cbn; tauto|]. split.
  - unfold extract, extract_entities_with_metadata; symmetry.
    apply fold_left_filter_skip; intros g ent Hk.
    apply negb_false_iff, andb_true_iff in Hk; destruct Hk as [Hl Hs].
    apply existsb_exists in Hs; destruct Hs as [w [Hw Hwe]].
    apply ustr_eqb_eq in Hwe; subst w.
    unfold norm in Hw; unfold extract_step; rewrite Hl, (stopword_in _ Hw); reflexivity.
  - intros e He.
    destruct (manufacturers_invariant ents [] ltac:(intros e' [])
                e He) as [v [Hv Hs]].
    exists v; split; [exact Hv | exact (stopword_not_in v Hs)].
Qed.

Lemma extract_step_values (g : grouped) (ent : ner_span) :
  (forall l, NoDup (map value (group_get l g))) ->
  forall l, NoDup (map value (group_get l (step g ent))).
Proof.
  intros Hg l; rewrite extract_step_get.
  destruct (_ && _)%bool; [apply Hg|].
  destruct (ustr_eqb (label ent) l) eqn:El; [|apply Hg].
  destruct (existsb _ _) eqn:Ex; [apply Hg|].
  rewrite map_app; cbn [map].
  apply NoDup_app; [apply Hg | constructor; [intros []| constructor] |].
  intros v Hv [Hv'|[]]; subst v.
  apply in_map_iff in Hv; destruct Hv as [e [He Hin]].
  assert (Hx : existsb (fun e => opt_ustr_eqb (value e) (value (ent_of ent (norm ent))))
                 (group_get (label ent) g) = true).
  { apply existsb_exists; exists e; split; [exact Hin|].
    apply opt_ustr_eqb_eq; exact He. }
  rewrite Hx in Ex; discriminate.
Qed.

Lemma extract_values_nodup (ents : list ner_span) (g : grouped) :
  (forall l, NoDup (map value (group_get l g))) ->
  forall l, NoDup (map value (group_get l (fold_left step ents g))).
Proof.
  revert g; induction ents as [|ent ents IH]; intros g Hg; [exact Hg|].
  cbn [fold_left]; apply IH, extract_step_values, Hg.
Qed.

Lemma extract_step_dup (g : grouped) (s : ner_span) (e : entity) :
  In e (group_get (label s) g) -> value e = value (ent_of s (norm s)) ->
  step g s = g.
Proof.
  intros He Hv; unfold step, extract_step.
  destruct (_ && _)%bool; [reflexivity|].
  assert (Hx : existsb (fun e' => opt_ustr_eqb (value e') (value (ent_of s (norm s))))
                 (group_get (label s) g) = true).
  { apply existsb_exists; exists e; split; [exact He|].
    apply opt_ustr_eqb_eq; exact Hv. }
  unfold ent_of, norm in Hx; rewrite Hx; apply group_set_same.
  intros Hnil; rewrite Hnil in He; exact He.
Qed.

Lemma nodup_map_inj {A B} (f : A -> B) (xs : list A) (x y : A) :
  NoDup (map f xs) -> In x xs -> In y xs -> f x = f y -> x = y.
Proof.
  induction xs as [|z xs IH]; cbn; intros Hnd Hx Hy Hf; [contradiction|].
  inversion Hnd as [|? ? Hnotin Hnd']; subst.
  destruct Hx as [<-|Hx], Hy as [<-|Hy]; [reflexivity | | | exact (IH Hnd' Hx Hy Hf)].
  - exfalso; apply Hnotin; rewrite Hf; apply in_map, Hy.
  - exfalso; apply Hnotin; rewrite <- Hf; apply in_map, Hx.
Qed.

(** C10: for every label the kept entities have pairwise distinct values
    (for MODEL, the canonical value, possibly [None]); a further span
    whose value equals the value of an entity already kept under its label
    leaves the result unchanged; hence at most one MODEL entity has the
    value [None]. *)
Theorem extract_one_entity_per_value (ents : list ner_span) :
  (forall l, NoDup (map value (group_get l (extract ents))))
  /\ (forall (s : ner_span) (e : entity),
        In e (group_get (label s) (extract ents)) ->
        value e = value (ent_of s (norm s)) ->
        extract (ents ++ [s]) = extract ents)
  /\ (forall e1 e2, In e1 (group_get (u "MODEL") (extract ents)) ->
        In e2 (group_get (u "MODEL") (extract ents)) ->
        value e1 = None -> value e2 = None -> e1 = e2).
Proof.
  assert (Hnd : forall l, NoDup (map value (group_get l (extract ents)))).
  { apply extract_values_nodup; intros l; constructor. }
  split; [exact Hnd|]. split.
  - intros s e He Hv.
    change (fold_left step (ents ++ [s]) [] = fold_left step ents []).
    rewrite fold_left_app; cbn [fold_left].
    apply (extract_step_dup _ s e He Hv).
  - intros e1 e2 H1 H2 Hv1 Hv2.
    apply (nodup_map_inj value _ e1 e2 (Hnd (u "MODEL")) H1 H2).
    rewrite Hv1, Hv2; reflexivity.
Qed.

End WithHelpers.

(** Example collaborators: spaCy spans are kept verbatim and no model is in
    the registry. *)
Definition cw_demo (w : ustr) : ustr := w.
Definition ne_demo (w : ustr) (lbl : ustr) : ustr := w.
Definition nm_none (w : ustr) : option ustr := None.
Definition gm_none (w : ustr) : option model_metadata := None.
Definition span (lbl txt : string) (st : nat) : ner_span :=
  mkSpan (u lbl) (u txt) st (st + List.length (u txt))%nat.
Definition ents_demo : list ner_span :=
  [span "MANUFACTURER" "inverter" 0; span "MANUFACTURER" "Deye" 9;
   span "MODEL" "SUN-5K" 14].

Lemma extract_drops_stopword_manufacturers_witness :
  group_get (u "MANUFACTURER")
    (extract_entities_with_metadata cw_demo ne_demo nm_none gm_none ents_demo) <> []
  /\ extract_entities_with_metadata cw_demo ne_demo nm_none gm_none ents_demo
     = extract_entities_with_metadata cw_demo ne_demo nm_none gm_none
         [span "MANUFACTURER" "Deye" 9; span "MODEL" "SUN-5K" 14].
Proof.
  split; [vm_compute; discriminate|].
  refine (eq_trans (proj1 (proj2 (proj2
            (extract_drops_stopword_manufacturers cw_demo ne_demo nm_none gm_none
               ents_demo)))) _).
  vm_compute; reflexivity.
Defined.

Lemma extract_one_entity_per_value_witness :
  extract_entities_with_metadata cw_demo ne_demo nm_none gm_none
    (ents_demo ++ [span "MODEL" "LXP-LB-EU" 30])
  = extract_entities_with_metadata cw_demo ne_demo nm_none gm_none ents_demo.
Proof.
  refine (proj1 (proj2 (extract_one_entity_per_value cw_demo ne_demo nm_none gm_none
            ents_demo)) (span "MODEL" "LXP-LB-EU" 30)
            (entity_of nm_none gm_none (span "MODEL" "SUN-5K" 14) (u "SUN-5K")) _ _).
  - vm_compute; auto.
  - vm_compute; reflexivity.
Defined.

End ExtractFacts.

(** ** De-duplication of parameter matches *)
Module ParamsFacts.
Import Data Binder Params StrFacts.

(** [a] ends before [b] starts. *)
Definition before (a b : param_match) : Prop :=
  (p_end_position a <= p_position b)%nat.

Definition pos_le (a b : param_match) : Prop :=
  (p_position a <= p_position b)%nat.

Definition nonempty (a : param_match) : Prop :=
  (p_position a < p_end_position a)%nat.

Lemma In_insert_pos (x r : param_match) (l : list param_match) :
  In x (insert_pos r l) <-> x = r \/ In x l.
Proof.
  induction l as [|y l IH]; cbn; [split; intros [H|H]; subst; auto|].
  destruct (p_position y <=? p_position r)%nat; cbn; [rewrite IH|];
    split; intros H; repeat destruct H as [H|H]; subst; auto.
Qed.

Lemma insert_pos_sorted (r : param_match) (l : list param_match) :
  Sorted pos_le l -> Sorted pos_le (insert_pos r l).
Proof.
  induction l as [|y l IH]; cbn; intros H; [repeat constructor|].
  destruct (p_position y <=? p_position r)%nat eqn:E.
  - apply Nat.leb_le in E.
    apply Sorted_inv in H as [Hl Hhd].
    constructor; [apply IH, Hl|].
    destruct l as [|z l]; cbn; [constructor; exact E|].
    apply HdRel_inv in Hhd.
    destruct (p_position z <=? p_position r)%nat; constructor; assumption.
  - apply Nat.leb_gt in E.
    constructor; [exact H | constructor; unfold pos_le; lia].
Qed.

Lemma sort_fold_In (l acc : list param_match) (x : param_match) :
  In x (fold_left (fun acc r => insert_pos r acc) l acc) <-> In x l \/ In x acc.
Proof.
  revert acc; induction l as [|r l IH]; intros acc; cbn; [tauto|].
  rewrite IH, In_insert_pos; intuition.
Qed.

Lemma sort_fold_sorted (l acc : list param_match) :
  Sorted pos_le acc -> Sorted pos_le (fold_left (fun acc r => insert_pos r acc) l acc).
Proof.
  revert acc; induction l as [|r l IH]; intros acc H; cbn; [exact H|].
  apply IH, insert_pos_sorted, H.
Qed.

Lemma sort_by_position_In (l : list param_match) (x : param_match) :
  In x (sort_by_position l) <-> In x l.
Proof. unfold sort_by_position; rewrite sort_fold_In; cbn; tauto. Qed.

Lemma sort_by_position_sorted (l : list param_match) :
  StronglySorted pos_le (sort_by_position l).
Proof.
  apply Sorted_StronglySorted; [unfold Relations_1.Transitive, pos_le; intros; lia|].
  apply sort_fold_sorted; constructor.
Qed.

Lemma insert_pos_last (r : param_match) (acc : list param_match) :
  (forall y, In y acc -> pos_le y r) -> insert_pos r acc = acc ++ [r].
Proof.
  induction acc as [|y acc IH]; intros H; cbn; [reflexivity|].
  assert (Hy : pos_le y r) by (apply H; left; reflexivity).
  unfold pos_le in Hy; apply Nat.leb_le in Hy; rewrite Hy.
  rewrite IH; [reflexivity|]; intros z Hz; apply H; right; exact Hz.
Qed.

Lemma StronglySorted_app_inv {A} (R : A -> A -> Prop) (l1 l2 : list A) :
  StronglySorted R (l1 ++ l2) ->
  forall x y, In x l1 -> In y l2 -> R x y.
Proof.
  induction l1 as [|a l1 IH]; cbn; intros H x y Hx Hy; [contradiction|].
  apply StronglySorted_inv in H as [H Hf].
  destruct Hx as [<-|Hx]; [|exact (IH H x y Hx Hy)].
  rewrite Forall_forall in Hf; apply Hf, in_or_app; right; exact Hy.
Qed.

Lemma sort_fold_id (l acc : list param_match) :
  StronglySorted pos_le (acc ++ l) ->
  fold_left (fun acc r => insert_pos r acc) l acc = acc ++ l.
Proof.
  revert acc; induction l as [|r l IH]; intros acc H; cbn; [rewrite app_nil_r; reflexivity|].
  rewrite insert_pos_last.
  - rewrite IH; [rewrite <- app_assoc; reflexivity|].
    rewrite <- app_assoc; exact H.
  - intros y Hy; apply (StronglySorted_app_inv _ _ _ H); [exact Hy | left; reflexivity].
Qed.

Lemma sort_by_position_id (l : list param_match) :
  StronglySorted pos_le l -> sort_by_position l = l.
Proof. intros H; apply (sort_fold_id l []); exact H. Qed.

Lemma StronglySorted_app_r {A} (R : A -> A -> Prop) (l1 l2 : list A) :
  StronglySorted R (l1 ++ l2) -> StronglySorted R l2.
Proof.
  induction l1 as [|a l1 IH]; cbn; intros H; [exact H|].
  apply IH; apply StronglySorted_inv in H as [H _]; exact H.
Qed.

Lemma StronglySorted_app_one {A} (R : A -> A -> Prop) (l : list A) (r : A) :
  StronglySorted R l -> Forall (fun y => R y r) l -> StronglySorted R (l ++ [r]).
Proof.
  induction l as [|a l IH]; cbn; intros H Hf; [repeat constructor|].
  apply StronglySorted_inv in H as [H Ha].
  inversion Hf as [|? ? Har Hf']; subst.
  constructor; [apply IH; assumption|].
  apply Forall_app; split; [exact Ha | constructor; [exact Har | constructor]].
Qed.

Lemma StronglySorted_weaken {A} (R R' : A -> A -> Prop) (l : list A) :
  (forall a b, In a l -> In b l -> R a b -> R' a b) ->
  StronglySorted R l -> StronglySorted R' l.
Proof.
  induction l as [|a l IH]; intros Himp H; [constructor|].
  apply StronglySorted_inv in H as [H Hf].
  constructor.
  - apply IH; [intros x y Hx Hy; apply Himp; right; assumption | exact H].
  - rewrite Forall_forall in *; intros y Hy.
    apply Himp; [left; reflexivity | right; exact Hy | apply Hf, Hy].
Qed.

Lemma param_eqb_refl (a : param_match) : param_eqb a a = true.
Proof.
  unfold param_eqb; rewrite !ustr_eqb_refl, Qeq_bool_refl, !Nat.eqb_refl.
  destruct (fuzzy_score a) as [q|]; cbn; [apply Qeq_bool_refl | reflexivity].
Qed.

Lemma param_eqb_pos (a b : param_match) :
  param_eqb a b = true ->
  p_position a = p_position b /\ p_end_position a = p_end_position b.
Proof.
  unfold param_eqb; intros H.
  repeat (apply andb_true_iff in H as [H ?]).
  split; apply Nat.eqb_eq; assumption.
Qed.

Lemma remove_first_incl (x : param_match) (l : list param_match) :
  incl (remove_first x l) l.
Proof.
  induction l as [|y l IH]; cbn; [intros z []|].
  destruct (param_eqb y x); [intros z Hz; right; exact Hz|].
  intros z [<-|Hz]; [left; reflexivity | right; apply IH, Hz].
Qed.

Lemma remove_first_sorted {R} (x : param_match) (l : list param_match) :
  StronglySorted R l -> StronglySorted R (remove_first x l).
Proof.
  induction l as [|y l IH]; cbn; intros H; [constructor|].
  apply StronglySorted_inv in H as [H Hf].
  destruct (param_eqb y x); [exact H|].
  constructor; [apply IH, H|].
  rewrite Forall_forall in *; intros z Hz; apply Hf, (remove_first_incl x l), Hz.
Qed.

Lemma remove_first_split (x : param_match) (l : list param_match) :
  In x l ->
  exists l1 y l2, l = l1 ++ y :: l2 /\ param_eqb y x = true
                  /\ remove_first x l = l1 ++ l2.
Proof.
  induction l as [|z l IH]; cbn; intros Hx; [contradiction|].
  destruct (param_eqb z x) eqn:E.
  - exists [], z, l; repeat split; assumption.
  - destruct Hx as [->|Hx]; [rewrite param_eqb_refl in E; discriminate|].
    destruct (IH Hx) as [l1 [y [l2 [Hl [Hy Hr]]]]].
    exists (z :: l1), y, l2; subst l; repeat split; [assumption|].
    rewrite Hr; reflexivity.
Qed.

(** The code's three-way overlap test against a match that starts no later
    than [r]. *)
Lemma overlaps_false (r y : param_match) :
  pos_le y r -> overlaps r y = false -> before y r.
Proof.
  unfold overlaps, pos_le, before; intros Hle H.
  apply orb_false_iff in H as [H _]; apply orb_false_iff in H as [H _].
  apply andb_false_iff in H as [H|H].
  - apply Nat.leb_gt in H; lia.
  - apply Nat.ltb_ge in H; exact H.
Qed.

Lemma overlaps_true (r y : param_match) :
  pos_le y r -> nonempty r -> nonempty y -> overlaps r y = true ->
  (p_position r < p_end_position y)%nat.
Proof.
  unfold overlaps, pos_le, nonempty; intros Hle Hr Hy H.
  apply orb_true_iff in H as [H|H]; [apply orb_true_iff in H as [H|H]|];
    apply andb_true_iff in H as [H1 H2];
    repeat match goal with
           | h : (_ <=? _)%nat = true |- _ => apply Nat.leb_le in h
           | h : (_ <? _)%nat = true |- _ => apply Nat.ltb_lt in h
           end; lia.
Qed.

Lemma key_step_ok (r : param_match) (final : list param_match) (sk : seen) :
  StronglySorted before final -> Forall (fun y => before y r) final ->
  StronglySorted before (fst (key_step r final sk))
  /\ incl (fst (key_step r final sk)) (r :: final).
Proof.
  intros Hs Hf.
  assert (Happ : forall l, incl l final ->
            StronglySorted before l -> StronglySorted before (l ++ [r])
            /\ incl (l ++ [r]) (r :: final)).
  { intros l Hl Hsl; split.
    - apply StronglySorted_app_one; [exact Hsl|].
      rewrite Forall_forall in *; intros y Hy; apply Hf, Hl, Hy.
    - intros z Hz; apply in_app_or in Hz as [Hz|[<-|[]]];
        [right; apply Hl, Hz | left; reflexivity]. }
  unfold key_step; destruct (seen_get (key r) sk) as [e|].
  - destruct (50 <? _)%nat; [apply Happ; [intros z Hz; exact Hz | exact Hs]|].
    destruct (Qgtb _ _); cbn.
    + apply Happ; [apply remove_first_incl | apply remove_first_sorted, Hs].
    + split; [exact Hs | intros z Hz; right; exact Hz].
  - apply Happ; [intros z Hz; exact Hz | exact Hs].
Qed.

Lemma dedup_step_ok (r : param_match) (final : list param_match) (sk : seen) :
  StronglySorted before final ->
  (forall y, In y final -> nonempty y /\ pos_le y r) -> nonempty r ->
  StronglySorted before (fst (dedup_step (final, sk) r))
  /\ incl (fst (dedup_step (final, sk) r)) (r :: final).
Proof.
  intros Hs Hy Hr; unfold dedup_step.
  destruct (find (overlaps r) final) as [e|] eqn:Hfind.
  - destruct (Qgtb _ _); [|split; [exact Hs | intros z Hz; right; exact Hz]].
    apply find_some in Hfind as [He Hov].
    destruct (Hy e He) as [Hne Hle].
    pose proof (overlaps_true r e Hle Hr Hne Hov) as Hin.
    destruct (remove_first_split e final He) as [l1 [y [l2 [Hl [Hye Hrm]]]]].
    apply param_eqb_pos in Hye as [Hp He'].
    assert (Hsub : incl (remove_first e final) final) by apply remove_first_incl.
    edestruct (key_step_ok r (remove_first e final)) as [H1 H2].
    + apply remove_first_sorted, Hs.
    + rewrite Hrm, Forall_forall; intros z Hz.
      rewrite Hl in Hs.
      apply in_app_or in Hz as [Hz|Hz].
      * pose proof (StronglySorted_app_inv _ _ _ Hs z y Hz (or_introl eq_refl)) as Hzy.
        unfold before in *; unfold pos_le in Hle; lia.
      * exfalso.
        apply StronglySorted_app_r, StronglySorted_inv in Hs as [_ Hf].
        rewrite Forall_forall in Hf; pose proof (Hf z Hz) as Hyz.
        assert (Hz' : In z final) by (rewrite Hl; apply in_or_app; right; right; exact Hz).
        destruct (Hy z Hz') as [_ Hzr].
        unfold before, pos_le in *; lia.
    + split; [exact H1|].
      intros z Hz; destruct (H2 z Hz) as [<-|Hz']; [left; reflexivity|].
      right; apply Hsub, Hz'.
  - apply key_step_ok; [exact Hs|].
    rewrite Forall_forall; intros y Hin.
    apply overlaps_false; [apply Hy, Hin|].
    apply (find_none _ _ Hfind), Hin.
Qed.

Lemma dedup_loop (l final : list param_match) (sk : seen) :
  StronglySorted before final ->
  (forall y, In y final -> nonempty y) ->
  (forall r, In r l -> nonempty r) ->
  StronglySorted pos_le l ->
  (forall y r, In y final -> In r l -> pos_le y r) ->
  StronglySorted before (fst (fold_left dedup_step l (final, sk)))
  /\ incl (fst (fold_left dedup_step l (final, sk))) (l ++ final).
Proof.
  revert final sk; induction l as [|r l IH]; intros final sk Hs Hne Hl Hsl Hle.
  - split; [exact Hs | intros z Hz; exact Hz].
  - cbn [fold_left].
    apply StronglySorted_inv in Hsl as [Hsl Hrl].
    rewrite Forall_forall in Hrl.
    destruct (dedup_step_ok r final sk Hs) as [H1 H2].
    { intros y Hy; split; [apply Hne, Hy | apply Hle; [exact Hy | left; reflexivity]]. }
    { apply Hl; left; reflexivity. }
    destruct (dedup_step (final, sk) r) as [f1 sk1]; cbn [fst] in H1, H2.
    destruct (IH f1 sk1 H1) as [H3 H4].
    + intros y Hy; destruct (H2 y Hy) as [<-|Hy']; [apply Hl; left; reflexivity | apply Hne, Hy'].
    + intros z Hz; apply Hl; right; exact Hz.
    + exact Hsl.
    + intros y z Hy Hz; destruct (H2 y Hy) as [<-|Hy'];
        [apply Hrl, Hz | apply Hle; [exact Hy' | right; exact Hz]].
    + split; [exact H3|].
      intros z Hz; destruct (in_app_or _ _ _ (H4 z Hz)) as [Hz'|Hz'];
        [apply in_or_app; left; right; exact Hz'|].
      destruct (H2 z Hz') as [<-|Hz'']; [left; reflexivity | apply in_or_app; right; exact Hz''].
Qed.

(** Example: [X] and [r] match the same key 15 characters apart, [E]
    (another key) overlaps [r] only. *)
Definition pm (k : string) (conf : Q) (st en : nat) : param_match :=
  mkParam (u k) (u k) conf st en (u k) (u "exact") None.
Definition m_X : param_match := pm "max_charge_current" (95 # 100) 0 4.
Definition m_E : param_match := pm "battery_voltage" (8 # 10) 10 20.
Definition m_r : param_match := pm "max_charge_current" (9 # 10) 15 18.

(** Three matches of one key: [A] at 0, [B] at 60 and [C] at 70. *)
Definition m_A : param_match := pm "max_charge_current" (9 # 10) 0 4.
Definition m_B : param_match := pm "max_charge_current" (9 # 10) 60 64.
Definition m_C : param_match := pm "max_charge_current" (9 # 10) 70 74.

(** C6: two defects of the de-duplication. First, [E] and [r] overlap and
    [r] has the higher confidence, but neither is retained: [r] removes [E]
    and is then dropped by the same-key rule against [X], which lies within
    50 characters and has a higher confidence. Second, [seen_keys] is not
    updated when a far match is appended, so [B] and [C], 10 characters
    apart and of the same key, are both retained (each is more than 50
    characters from [A]). *)
Lemma find_parameters_overlap_cex :
  overlaps m_r m_E = true
  /\ Qgtb (p_confidence m_r) (p_confidence m_E) = true
  /\ resolve_conflicts [m_X; m_E; m_r] = [m_X]
  /\ (dist (p_position m_B) (p_position m_C) <= 50)%nat
  /\ resolve_conflicts [m_A; m_B; m_C] = [m_A; m_B; m_C].
Proof. split; [|split; [|split; [|split]]]; vm_compute; try reflexivity; lia. Qed.

(** X27: for accepted matches with non-empty spans, the list kept by
    [find_parameters] consists of accepted matches, and each kept match
    ends no later than the next one starts: the list is sorted by position
    and no two kept matches have overlapping ranges [position, end_position). *)
Theorem find_parameters_no_overlap (results : list param_match) :
  (forall r, In r results -> (p_position r < p_end_position r)%nat) ->
  StronglySorted (fun a b => (p_end_position a <= p_position b)%nat)
                 (resolve_conflicts results)
  /\ (forall r, In r (resolve_conflicts results) -> In r results).
Proof.
  intros Hne.
  destruct (dedup_loop (sort_by_position results) [] [])
    as [Hs Hincl].
  - constructor.
  - intros y [].
  - intros r Hr; apply Hne, sort_by_position_In, Hr.
  - apply sort_by_position_sorted.
  - intros y r [].
  - rewrite app_nil_r in Hincl.
    assert (Hin : forall r, In r (fst (fold_left dedup_step (sort_by_position results) ([], [])))
                            -> In r results)
      by (intros r Hr; apply sort_by_position_In, Hincl, Hr).
    unfold resolve_conflicts; rewrite sort_by_position_id.
    + split; [exact Hs | exact Hin].
    + apply (StronglySorted_weaken before); [|exact Hs].
      intros a b Ha _ Hab; pose proof (Hne a (Hin a Ha)).
      unfold before, pos_le in *; lia.
Qed.

Lemma find_parameters_no_overlap_witness :
  (forall r, In r [m_X; m_E; m_r] -> (p_position r < p_end_position r)%nat)
  /\ StronglySorted (fun a b => (p_end_position a <= p_position b)%nat)
                    (resolve_conflicts [m_X; m_E; m_r]).
Proof.
  assert (Hne : forall r, In r [m_X; m_E; m_r] -> (p_position r < p_end_position r)%nat).
  { intros r [<-|[<-|[<-|[]]]]; vm_compute; lia. }
  split; [exact Hne|].
  exact (proj1 (find_parameters_no_overlap [m_X; m_E; m_r] Hne)).
Defined.

End ParamsFacts.

(** ** Segmentation *)
Module SegmentFacts.
Import Re Segment.

(** *** Match positions of the regular-expression engine *)

Lemma lit_prefix_length (icase : bool) (cs t : ustr) :
  lit_prefix icase cs t = true -> (List.length cs <= List.length t)%nat.
Proof.
  revert t; induction cs as [|c cs IH]; intros [|x t] H; cbn in *;
    [lia | lia | discriminate|].
  apply andb_true_iff in H as [_ H]; apply IH in H; lia.
Qed.

(** The loop of a greedy [r*]. *)
Lemma star_bounds (icase : bool) (s : ustr) (r1 : regex) :
  (forall i e, In e (ends icase s r1 i) -> (i <= e /\ e <= Nat.max i (List.length s))%nat) ->
  forall n j e,
  In e ((fix go (n j : nat) {struct n} : list nat :=
           match n with
           | O => [j]
           | S n' =>
               flat_map (fun e => if (j <? e)%nat then go n' e else []) (ends icase s r1 j)
                 ++ [j]
           end) n j) ->
  (j <= e /\ e <= Nat.max j (List.length s))%nat.
Proof.
  intros IH1 n; induction n as [|n IHn]; intros j e H; cbv beta iota in H; [destruct H as [<-|[]]; lia|].
  apply in_app_or in H as [H|[<-|[]]]; [|lia].
  apply in_flat_map in H as [e1 [H1 H2]].
  destruct (j <? e1)%nat; [|contradiction].
  apply IHn in H2; apply IH1 in H1; lia.
Qed.

Lemma ends_bounds (icase : bool) (s : ustr) (r : regex) :
  forall i e, In e (ends icase s r i) ->
  (i <= e /\ e <= Nat.max i (List.length s))%nat.
Proof.
  induction r as [cs|p| |r1 IH1 r2 IH2|r1 IH1 r2 IH2|r1 IH1|r1 IH1];
    intros i e H; cbn [ends] in H.
  - destruct (lit_prefix icase cs (skipn i s)) eqn:E; [|contradiction].
    destruct H as [<-|[]].
    apply lit_prefix_length in E; rewrite length_skipn in E; lia.
  - destruct (nth_error s i) as [c|] eqn:E; [|contradiction].
    destruct (p c); [|contradiction].
    destruct H as [<-|[]].
    assert (i < List.length s)%nat by (apply nth_error_Some; congruence); lia.
  - destruct (boundary s i); [destruct H as [<-|[]]; lia | contradiction].
  - apply in_flat_map in H as [e1 [H1 H2]].
    apply IH1 in H1; apply IH2 in H2; lia.
  - apply in_app_or in H as [H|H]; [apply IH1 in H | apply IH2 in H]; lia.
  - apply in_app_or in H as [H|[<-|[]]]; [apply IH1 in H|]; lia.
  - exact (star_bounds icase s r1 IH1 (S (List.length s)) i e H).
Qed.

(** A pattern each of whose matches is non-empty and inside the text. *)
Definition consuming (icase : bool) (s : ustr) (r : regex) : Prop :=
  forall i e, In e (ends icase s r i) -> (i < e /\ e <= List.length s)%nat.

Lemma consuming_Cls (icase : bool) (s : ustr) (p : Z -> bool) :
  consuming icase s (Cls p).
Proof.
  intros i e H; cbn [ends] in H.
  destruct (nth_error s i) as [c|] eqn:E; [|contradiction].
  destruct (p c); [|contradiction].
  destruct H as [<-|[]].
  assert (i < List.length s)%nat by (apply nth_error_Some; congruence); lia.
Qed.

Lemma consuming_Seq (icase : bool) (s : ustr) (r1 r2 : regex) :
  consuming icase s r1 -> consuming icase s (Seq r1 r2).
Proof.
  intros H1 i e H; cbn [ends] in H.
  apply in_flat_map in H as [e1 [He1 He]].
  apply H1 in He1; apply ends_bounds in He; lia.
Qed.

Lemma consuming_Alt (icase : bool) (s : ustr) (r1 r2 : regex) :
  consuming icase s r1 -> consuming icase s r2 -> consuming icase s (Alt r1 r2).
Proof.
  intros H1 H2 i e H; cbn [ends] in H.
  apply in_app_or in H as [H|H]; [apply H1 | apply H2]; exact H.
Qed.

Lemma CONJUNCTION_REGEX_consuming (s : ustr) : consuming true s CONJUNCTION_REGEX.
Proof.
  apply consuming_Alt; apply consuming_Seq, consuming_Seq, consuming_Cls.
Qed.

Lemma first_from_some (icase : bool) (s : ustr) (r : regex) (fuel pos st en : nat) :
  first_from icase s r fuel pos = Some (st, en) ->
  (pos <= st)%nat /\ In en (ends icase s r st).
Proof.
  revert pos; induction fuel as [|f IH]; intros pos H; cbn in H; [discriminate|].
  destruct (ends icase s r pos) as [|e es] eqn:E.
  - apply IH in H; split; [lia | apply H].
  - injection H as <- <-; split; [lia | rewrite E; left; reflexivity].
Qed.

(** Successive matches [(start, end)], each non-empty, inside the text and
    starting no earlier than the end of the previous one. *)
Fixpoint chained (len p : nat) (ms : list (nat * nat)) : Prop :=
  match ms with
  | [] => True
  | (st, en) :: ms' => (p <= st /\ st < en /\ en <= len)%nat /\ chained len en ms'
  end.

Lemma finditer_go_chained (icase : bool) (s : ustr) (r : regex) :
  consuming icase s r ->
  forall fuel pos, chained (List.length s) pos (finditer_go icase s r fuel pos).
Proof.
  intros Hc fuel; induction fuel as [|f IH]; intros pos; cbn [finditer_go]; [exact I|].
  destruct (first_from icase s r (S (List.length s - pos)) pos) as [[st en]|] eqn:E;
    [|exact I].
  apply first_from_some in E as [Hle Hin].
  apply Hc in Hin as [Hlt Hlen].
  replace (st <? en)%nat with true by (symmetry; apply Nat.ltb_lt; exact Hlt).
  cbn; split; [lia | apply IH].
Qed.

Lemma finditer_chained (text : ustr) :
  chained (List.length text) 0 (finditer true text CONJUNCTION_REGEX).
Proof. apply finditer_go_chained, CONJUNCTION_REGEX_consuming. Qed.

(** *** Slices and [strip] *)

Lemma firstn_add {A} (n m : nat) (l : list A) :
  firstn (n + m) l = firstn n l ++ firstn m (skipn n l).
Proof.
  revert l; induction n as [|n IH]; intros [|x l]; cbn; try reflexivity.
  - destruct m; reflexivity.
  - rewrite IH; reflexivity.
Qed.

Lemma slice_app (t : ustr) (a b c : nat) :
  (a <= b <= c)%nat -> slice t a b ++ slice t b c = slice t a c.
Proof.
  intros H; unfold slice.
  replace (skipn b t) with (skipn (b - a) (skipn a t))
    by (rewrite skipn_skipn; f_equal; lia).
  rewrite <- firstn_add; f_equal; lia.
Qed.

Lemma slice_all (t : ustr) : slice t 0 (List.length t) = t.
Proof. unfold slice; rewrite Nat.sub_0_r; apply firstn_all. Qed.

Lemma slice_nth (t : ustr) (a b i : nat) (c : Z) :
  (a <= i < b)%nat -> nth_error t i = Some c -> In c (slice t a b).
Proof.
  intros H Hc; unfold slice.
  apply nth_error_In with (n := (i - a)%nat).
  rewrite nth_error_firstn.
  replace (i - a <? b - a)%nat with true by (symmetry; apply Nat.ltb_lt; lia).
  rewrite nth_error_skipn; replace (a + (i - a))%nat with i by lia; exact Hc.
Qed.

Lemma drop_space_nil (x : ustr) :
  drop_space x = [] -> forall c, In c x -> is_space c = true.
Proof.
  induction x as [|y x IH]; cbn; intros H c Hc; [contradiction|].
  destruct (is_space y) eqn:E; [|discriminate].
  destruct Hc as [<-|Hc]; [exact E | apply IH; assumption].
Qed.

Lemma drop_space_split (x : ustr) :
  exists p, x = p ++ drop_space x /\ forall c, In c p -> is_space c = true.
Proof.
  induction x as [|y x [p [Hp Hs]]]; cbn; [exists []; split; [reflexivity | intros _ []]|].
  destruct (is_space y) eqn:E.
  - exists (y :: p); split; [rewrite Hp at 1; reflexivity|].
    intros c [<-|Hc]; [exact E | apply Hs, Hc].
  - exists []; split; [reflexivity | intros _ []].
Qed.

Lemma strip_nil (x : ustr) :
  strip x = [] -> forall c, In c x -> is_space c = true.
Proof.
  unfold strip; intros H c Hc.
  apply (f_equal (@rev Z)) in H; rewrite rev_involutive in H; cbn in H.
  destruct (drop_space_split x) as [p [Hp Hs]].
  rewrite Hp in Hc; apply in_app_or in Hc as [Hc|Hc]; [apply Hs, Hc|].
  apply (drop_space_nil _ H); apply in_rev in Hc; exact Hc.
Qed.

(** *** The segments *)

(** Segments laid out from position [lo] to position [hi]: each is
    non-empty, starts no earlier than the previous one ends, and holds the
    non-empty stripped text of its span. *)
Fixpoint segs_from (text : ustr) (lo : nat) (segs : list segment) (hi : nat) : Prop :=
  match segs with
  | [] => (lo <= hi)%nat
  | sg :: rest =>
      (lo <= seg_start sg < seg_end sg)%nat
      /\ seg_text sg = strip (slice text (seg_start sg) (seg_end sg))
      /\ seg_text sg <> []
      /\ segs_from text (seg_end sg) rest hi
  end.

(** The text of the segment spans together with the text before, between
    and after them. *)
Fixpoint concat_spans (text : ustr) (lo : nat) (segs : list segment) : ustr :=
  match segs with
  | [] => slice text lo (List.length text)
  | sg :: rest =>
      slice text lo (seg_start sg) ++ slice text (seg_start sg) (seg_end sg)
      ++ concat_spans text (seg_end sg) rest
  end.

(** Position [i] is inside a segment span, holds a whitespace character,
    or lies in one of the matches [ms] of the separator pattern. *)
Definition covered (text : ustr) (ms : list (nat * nat)) (segs : list segment) (i : nat)
  : Prop :=
  (exists sg, In sg segs /\ (seg_start sg <= i < seg_end sg)%nat)
  \/ (forall c, nth_error text i = Some c -> is_space c = true)
  \/ (exists m, In m ms /\ (fst m <= i < snd m)%nat).

Lemma segs_from_le (text : ustr) (segs : list segment) :
  forall lo hi, segs_from text lo segs hi -> (lo <= hi)%nat.
Proof.
  induction segs as [|sg segs IH]; cbn; intros lo hi H; [exact H|].
  destruct H as [H [_ [_ Hr]]]; apply IH in Hr; lia.
Qed.

Lemma segs_from_mono (text : ustr) (segs : list segment) :
  forall lo hi hi', segs_from text lo segs hi -> (hi <= hi')%nat ->
  segs_from text lo segs hi'.
Proof.
  induction segs as [|sg segs IH]; cbn; intros lo hi hi' H Hle; [lia|].
  destruct H as [H1 [H2 [H3 H4]]]; split; [exact H1|]; split; [exact H2|].
  split; [exact H3|]; apply (IH _ hi); assumption.
Qed.

Lemma segs_from_snoc (text : ustr) (segs : list segment) :
  forall lo hi a b x, segs_from text lo segs hi -> (hi <= a < b)%nat ->
  strip (slice text a b) = x -> x <> [] ->
  segs_from text lo (segs ++ [mkSegment x a b]) b.
Proof.
  induction segs as [|sg segs IH]; cbn; intros lo hi a b x H Hab Hx Hne.
  - cbn; split; [lia|]; split; [symmetry; exact Hx|]; split; [exact Hne | lia].
  - destruct H as [H1 [H2 [H3 H4]]]; split; [exact H1|]; split; [exact H2|].
    split; [exact H3|]; apply (IH _ hi); assumption.
Qed.

Lemma concat_spans_ok (text : ustr) (segs : list segment) :
  forall lo, segs_from text lo segs (List.length text) ->
  concat_spans text lo segs = slice text lo (List.length text).
Proof.
  induction segs as [|sg segs IH]; cbn; intros lo H; [reflexivity|].
  destruct H as [H1 [_ [_ H4]]].
  pose proof (segs_from_le _ _ _ _ H4) as Hle.
  rewrite (IH _ H4), slice_app, slice_app by lia; reflexivity.
Qed.

Lemma covered_mono (text : ustr) (ms ms' : list (nat * nat)) (segs segs' : list segment) (i : nat) :
  incl ms ms' -> incl segs segs' -> covered text ms segs i -> covered text ms' segs' i.
Proof.
  intros Hm Hs [[sg [H1 H2]]|[H|[m [H1 H2]]]].
  - left; exists sg; split; [apply Hs, H1 | exact H2].
  - right; left; exact H.
  - right; right; exists m; split; [apply Hm, H1 | exact H2].
Qed.

(** The piece [last, stop) of the text becomes a segment when its
    stripped text is not empty; either way its positions are covered. *)
Lemma piece_ok (text : ustr) (ms : list (nat * nat)) (segs : list segment) (last stop : nat) :
  segs_from text 0 segs last -> (last < stop <= List.length text)%nat ->
  let segs' := match strip (slice text last stop) with
               | [] => segs
               | segment_text => segs ++ [mkSegment segment_text last stop]
               end in
  segs_from text 0 segs' stop /\ incl segs segs'
  /\ forall i, (last <= i < stop)%nat -> covered text ms segs' i.
Proof.
  intros Hs Hlt segs'.
  destruct (strip (slice text last stop)) as [|c x] eqn:Es; subst segs'.
  - split; [apply (segs_from_mono _ _ _ last); [exact Hs | lia]|].
    split; [intros z Hz; exact Hz|].
    intros i Hi; right; left; intros c Hc.
    apply (strip_nil _ Es), (slice_nth _ _ _ i); assumption.
  - split; [apply (segs_from_snoc _ _ _ last); [exact Hs | lia | exact Es | discriminate]|].
    split; [intros z Hz; apply in_or_app; left; exact Hz|].
    intros i Hi; left; exists (mkSegment (c :: x) last stop); split; [|cbn; lia].
    apply in_or_app; right; left; reflexivity.
Qed.

Lemma split_step_eq (text : ustr) (segs : list segment) (last mst men : nat) :
  split_step text (segs, last) (mst, men)
  = (if (last <? mst)%nat then
       match strip (slice text last mst) with
       | [] => segs
       | segment_text => segs ++ [mkSegment segment_text last mst]
       end
     else segs, men).
Proof. reflexivity. Qed.

Lemma split_fold_ok (text : ustr) (all : list (nat * nat)) (ms : list (nat * nat)) :
  forall segs last,
  chained (List.length text) last ms -> incl ms all ->
  segs_from text 0 segs last -> (last <= List.length text)%nat ->
  (forall i, (i < last)%nat -> covered text all segs i) ->
  let st := fold_left (split_step text) ms (segs, last) in
  segs_from text 0 (fst st) (snd st) /\ (snd st <= List.length text)%nat
  /\ forall i, (i < snd st)%nat -> covered text all (fst st) i.
Proof.
  induction ms as [|[mst men] ms IH]; intros segs last Hch Hincl Hs Hle Hcov;
    cbn [fold_left]; [split; [exact Hs|]; split; assumption|].
  rewrite split_step_eq.
  - destruct Hch as [[H1 [H2 H3]] Hch].
    assert (Hm : In (mst, men) all) by (apply Hincl; left; reflexivity).
    assert (Hincl' : incl ms all) by (intros z Hz; apply Hincl; right; exact Hz).
    assert (Hmatch : forall i segs', (mst <= i < men)%nat -> covered text all segs' i)
      by (intros i segs' Hi; right; right; exists (mst, men); split; [exact Hm | cbn; lia]).
    destruct (last <? mst)%nat eqn:Elt.
    + apply Nat.ltb_lt in Elt.
      destruct (piece_ok text all segs last mst Hs ltac:(lia)) as [Hs' [Hsub Hpiece]].
      apply IH; [exact Hch | exact Hincl' | | lia |].
      * apply (segs_from_mono _ _ _ mst); [exact Hs' | lia].
      * intros i Hi.
        destruct (Nat.lt_ge_cases i last) as [Hi'|Hi'];
          [apply (covered_mono _ all all segs); [intros z Hz; exact Hz | exact Hsub | apply Hcov, Hi']|].
        destruct (Nat.lt_ge_cases i mst) as [Hi''|Hi''];
          [apply Hpiece; lia | apply Hmatch; lia].
    + apply Nat.ltb_ge in Elt.
      apply IH; [exact Hch | exact Hincl' | | lia |].
      * apply (segs_from_mono _ _ _ last); [exact Hs | lia].
      * intros i Hi.
        destruct (Nat.lt_ge_cases i last) as [Hi'|Hi']; [apply Hcov, Hi' | apply Hmatch; lia].
Qed.

Lemma split_tail_ok (text : ustr) (all : list (nat * nat)) (segs : list segment) (last : nat) :
  segs_from text 0 segs last -> (last <= List.length text)%nat ->
  (forall i, (i < last)%nat -> covered text all segs i) ->
  segs_from text 0 (split_tail text (segs, last)) (List.length text)
  /\ forall i, (i < List.length text)%nat -> covered text all (split_tail text (segs, last)) i.
Proof.
  intros Hs Hle Hcov; unfold split_tail.
  destruct (last <? List.length text)%nat eqn:Elt.
  - apply Nat.ltb_lt in Elt.
    destruct (piece_ok text all segs last (List.length text) Hs ltac:(lia)) as [Hs' [Hsub Hpiece]].
    split; [exact Hs'|].
    intros i Hi; destruct (Nat.lt_ge_cases i last) as [Hi'|Hi'];
      [apply (covered_mono _ all all segs); [intros z Hz; exact Hz | exact Hsub | apply Hcov, Hi']|].
    apply Hpiece; lia.
  - apply Nat.ltb_ge in Elt.
    split; [apply (segs_from_mono _ _ _ last); [exact Hs | lia]|].
    intros i Hi; apply Hcov; lia.
Qed.

(** Example: a query that starts with a space. *)
Definition q_lead_space : ustr := u " Deye and Victron".

(** C7 (counterexample): the segment texts are stripped, so re-joining them
    with the separators loses the leading space of the query. *)
Lemma split_into_segments_rejoin_cex :
  split_into_segments q_lead_space
  = [mkSegment (u "Deye") 0 5; mkSegment (u "Victron") 10 17]
  /\ rejoin q_lead_space (split_into_segments q_lead_space) = u "Deye and Victron"
  /\ rejoin q_lead_space (split_into_segments q_lead_space) <> q_lead_space.
Proof.
  split; [vm_compute; reflexivity|].
  split; [vm_compute; reflexivity | vm_compute; discriminate].
Qed.

(** C7 (amended): the segments returned by [split_into_segments] are
    either the whole text as a single segment (when no segment was found),
    or are laid out in order inside the text, non-empty, pairwise
    non-overlapping, each holding the stripped text of its span.  The
    spans together with the text around them give back the input; every
    position outside the spans holds a whitespace character or lies inside
    a separator match.  So re-joining the segment texts reproduces the
    input only up to the whitespace stripped at the segment borders. *)
Theorem split_into_segments_spans (text : ustr) :
  (split_into_segments text = [mkSegment text 0 (List.length text)]
   \/ segs_from text 0 (split_into_segments text) (List.length text))
  /\ concat_spans text 0 (split_into_segments text) = text
  /\ (forall i c, nth_error text i = Some c ->
        (forall sg, In sg (split_into_segments text) -> ~ (seg_start sg <= i < seg_end sg)%nat) ->
        is_space c = true
        \/ exists m, In m (finditer true text CONJUNCTION_REGEX) /\ (fst m <= i < snd m)%nat).
Proof.
  set (ms := finditer true text CONJUNCTION_REGEX).
  destruct (split_fold_ok text ms ms [] 0 (finditer_chained text) (fun z Hz => Hz)
              ltac:(cbn; lia) ltac:(lia) ltac:(intros i Hi; lia)) as [Hs [Hle Hcov]].
  destruct (fold_left (split_step text) ms ([], 0%nat)) as [segs last] eqn:Efold.
  cbn [fst snd] in Hs, Hle, Hcov.
  destruct (split_tail_ok text ms segs last Hs Hle Hcov) as [Hs' Hcov'].
  unfold split_into_segments; fold ms; rewrite Efold.
  destruct (split_tail text (segs, last)) as [|sg segs'] eqn:Et.
  - split; [left; reflexivity|]; split.
    + cbn [concat_spans seg_start seg_end]; rewrite slice_all; unfold slice at 1 2.
      rewrite !Nat.sub_diag; cbn [firstn app]; apply app_nil_r.
    + intros i c Hc Hout; exfalso.
      apply (Hout (mkSegment text 0 (List.length text))); [left; reflexivity|].
      cbn; split; [lia | apply nth_error_Some; congruence].
  - split; [right; exact Hs'|]; split.
    + rewrite concat_spans_ok, slice_all; [reflexivity | exact Hs'].
    + intros i c Hc Hout.
      assert (Hi : (i < List.length text)%nat) by (apply nth_error_Some; congruence).
      destruct (Hcov' i Hi) as [[sg' [Hin Hsp]]|[Hsp|Hm]].
      * exfalso; exact (Hout sg' Hin Hsp).
      * left; apply Hsp, Hc.
      * right; exact Hm.
Qed.

End SegmentFacts.
(** ** Python's [min] and the [bindings_dict] of [build_param_bindings_logic] *)
Module LLMFacts.
Import Data Status Binder Pipeline LLMLogic StrFacts.

Lemma existsb_ustr_eqb (k : ustr) (l : list ustr) :
  existsb (ustr_eqb k) l = true <-> In k l.
Proof.
  rewrite existsb_exists; split.
  - intros [x [Hx E]]; apply ustr_eqb_eq in E; subst; exact Hx.
  - intros H; exists k; split; [exact H | apply ustr_eqb_refl].
Qed.

Lemma min_by_spec {A} (f : A -> nat) (x : A) (xs : list A) :
  In (min_by f x xs) (x :: xs) /\ forall y, In y (x :: xs) -> (f (min_by f x xs) <= f y)%nat.
Proof.
  unfold min_by; revert x; induction xs as [|y xs IH]; intros x.
  - cbn; split; [left; reflexivity | intros y [<-|[]]; lia].
  - cbn [fold_left].
    destruct (IH (if (f y <? f x)%nat then y else x)) as [Hin Hmin].
    split.
    + destruct (f y <? f x)%nat; destruct Hin as [E|E]; rewrite <- ?E;
        [right; left | right; right | left | right; right]; auto.
    + intros z Hz.
      destruct (f y <? f x)%nat eqn:Ey; apply Nat.ltb_lt in Ey || apply Nat.ltb_ge in Ey.
      * destruct Hz as [<-|Hz]; [specialize (Hmin y (or_introl eq_refl)); lia|].
        apply Hmin; exact Hz.
      * destruct Hz as [<-|[<-|Hz]]; [apply Hmin; left; reflexivity| |apply Hmin; right; exact Hz].
        specialize (Hmin x (or_introl eq_refl)); lia.
Qed.

Lemma bd_get_set (k k' : ustr) (v : list ustr) (d : bdict) :
  bd_get k (bd_set k' v d) = if ustr_eqb k' k then Some v else bd_get k d.
Proof.
  induction d as [|[k0 v0] d IH]; cbn.
  - destruct (ustr_eqb k' k); reflexivity.
  - destruct (ustr_eqb k0 k') eqn:E0; cbn.
    + apply ustr_eqb_eq in E0; subst k0.
      destruct (ustr_eqb k' k); reflexivity.
    + rewrite IH. destruct (ustr_eqb k0 k) eqn:E1; [|reflexivity].
      apply ustr_eqb_eq in E1; subst k0.
      destruct (ustr_eqb k' k) eqn:E2; [|reflexivity].
      apply ustr_eqb_eq in E2; subst k'; rewrite ustr_eqb_refl in E0; discriminate.
Qed.

Lemma bd_get_In (k : ustr) (ks : list ustr) (d : bdict) :
  bd_get k d = Some ks -> In (k, ks) d.
Proof.
  induction d as [|[k0 v0] d IH]; cbn; [discriminate|].
  destruct (ustr_eqb k0 k) eqn:E; [apply ustr_eqb_eq in E; subst; intros [=<-]; left; reflexivity|].
  intros H; right; auto.
Qed.

Lemma In_bd_get (k : ustr) (ks : list ustr) (d : bdict) :
  NoDup (map fst d) -> In (k, ks) d -> bd_get k d = Some ks.
Proof.
  induction d as [|[k0 v0] d IH]; cbn; [intros _ []|].
  intros Hnd Hin; inversion Hnd as [|? ? Hn Hnd']; subst.
  destruct (ustr_eqb k0 k) eqn:E.
  - apply ustr_eqb_eq in E; subst k0.
    destruct Hin as [[=->]|Hin]; [reflexivity|].
    exfalso; apply Hn; apply (in_map fst) in Hin; exact Hin.
  - destruct Hin as [[=]|Hin]; [subst; rewrite ustr_eqb_refl in E; discriminate|].
    apply IH; assumption.
Qed.

Lemma bd_set_keys (k : ustr) (v : list ustr) (d : bdict) :
  forall x, In x (map fst (bd_set k v d)) <-> x = k \/ In x (map fst d).
Proof.
  induction d as [|[k0 v0] d IH]; intros x; cbn.
  - split; intros H; repeat destruct H as [H|H]; subst; auto.
  - destruct (ustr_eqb k0 k) eqn:E; cbn.
    + apply ustr_eqb_eq in E; subst.
      split; intros H; repeat destruct H as [H|H]; subst; auto.
    + rewrite IH; tauto.
Qed.

Lemma bd_set_nodup (k : ustr) (v : list ustr) (d : bdict) :
  NoDup (map fst d) -> NoDup (map fst (bd_set k v d)).
Proof.
  induction d as [|[k0 v0] d IH]; cbn; intros Hnd.
  - constructor; [intros []|constructor].
  - inversion Hnd as [|? ? Hn Hnd']; subst.
    destruct (ustr_eqb k0 k) eqn:E; cbn; constructor; auto.
    rewrite bd_set_keys; intros [->|H]; [|contradiction].
    rewrite ustr_eqb_refl in E; discriminate.
Qed.

Section Step.
Variables (vm0 : nat * ustr) (vms : list (nat * ustr)).
Let closest (p : param_match) : ustr :=
  snd (min_by (fun m => dist (fst m) (p_position p)) vm0 vms).

Lemma bindings_step_get (d : bdict) (p : param_match) (x : ustr) :
  bd_get x (bindings_step vm0 vms d p)
  = if ustr_eqb (closest p) x
    then Some (let cur := match bd_get x d with Some l => l | None => [] end in
               if existsb (ustr_eqb (key p)) cur then cur else cur ++ [key p])
    else bd_get x d.
Proof.
  unfold bindings_step; fold (closest p).
  destruct (ustr_eqb (closest p) x) eqn:Ex.
  - apply ustr_eqb_eq in Ex; subst x.
    destruct (bd_get (closest p) d) as [l|] eqn:Eg.
    + rewrite Eg; destruct (existsb (ustr_eqb (key p)) l);
        [exact Eg | rewrite bd_get_set, ustr_eqb_refl; reflexivity].
    + rewrite bd_get_set, ustr_eqb_refl; cbn.
      rewrite bd_get_set, ustr_eqb_refl; reflexivity.
  - destruct (bd_get (closest p) d) as [l|] eqn:Eg.
    + rewrite Eg; destruct (existsb (ustr_eqb (key p)) l); [reflexivity|].
      rewrite bd_get_set, Ex; reflexivity.
    + rewrite bd_get_set, ustr_eqb_refl.
      destruct (existsb (ustr_eqb (key p)) []); rewrite ?bd_get_set, Ex; reflexivity.
Qed.

Lemma bindings_step_nodup (d : bdict) (p : param_match) :
  NoDup (map fst d) -> NoDup (map fst (bindings_step vm0 vms d p)).
Proof.
  intros H; unfold bindings_step; fold (closest p).
  assert (H1 : NoDup (map fst (match bd_get (closest p) d with
                               | Some _ => d | None => bd_set (closest p) [] d end)))
    by (destruct (bd_get (closest p) d); [exact H | apply bd_set_nodup, H]).
  destruct existsb; [exact H1 | apply bd_set_nodup, H1].
Qed.

(** What the dictionary holds after the parameters [ps]. *)
Definition binds_inv (ps : list param_match) (d : bdict) : Prop :=
  NoDup (map fst d)
  /\ forall x, match bd_get x d with
               | Some ks => ks <> [] /\ NoDup ks
                            /\ forall k, In k ks <-> exists p, In p ps /\ key p = k /\ closest p = x
               | None => forall p, In p ps -> closest p <> x
               end.

Lemma binds_inv_step (ps : list param_match) (d : bdict) (p : param_match) :
  binds_inv ps d -> binds_inv (ps ++ [p]) (bindings_step vm0 vms d p).
Proof.
  intros [Hnd Hx]; split; [apply bindings_step_nodup; exact Hnd|].
  intros x; rewrite bindings_step_get; cbv zeta.
  specialize (Hx x).
  destruct (ustr_eqb (closest p) x) eqn:Ex.
  - apply ustr_eqb_eq in Ex.
    destruct (bd_get x d) as [ks|] eqn:Eg.
    + destruct Hx as [Hne [Hnd' Hiff]].
      destruct (existsb (ustr_eqb (key p)) ks) eqn:Ek.
      * apply existsb_ustr_eqb in Ek.
        split; [exact Hne|]; split; [exact Hnd'|].
        intros k; rewrite Hiff; split.
        -- intros [q [Hq Hr]]; exists q; split; [apply in_or_app; left; exact Hq | exact Hr].
        -- intros [q [Hq [Hk Hc]]]; apply in_app_or in Hq; destruct Hq as [Hq|[<-|[]]];
             [exists q; auto|].
           apply Hiff in Ek; rewrite <- Hk; exact Ek.
      * split; [destruct ks; discriminate|].
        split.
        -- apply NoDup_app; [exact Hnd' | constructor; [intros []|constructor] |].
           intros y Hy [<-|[]]; apply (existsb_ustr_eqb (key p)) in Hy; congruence.
        -- intros k; rewrite in_app_iff, Hiff; split.
           ++ intros [[q [Hq Hr]]|[<-|[]]];
                [exists q; split; [apply in_or_app; left|]; auto|].
              exists p; split; [apply in_or_app; right; left|]; auto.
           ++ intros [q [Hq [Hk Hc]]]; apply in_app_or in Hq;
                destruct Hq as [Hq|[<-|[]]]; [left; exists q; auto | right; left; auto].
    + split; [discriminate|]; split; [constructor; [intros []|constructor]|].
      intros k; cbn; split.
      * intros [<-|[]]; exists p; split; [apply in_or_app; right; left|]; auto.
      * intros [q [Hq [Hk Hc]]]; apply in_app_or in Hq; destruct Hq as [Hq|[<-|[]]];
          [exfalso; exact (Hx q Hq Hc) | left; exact Hk].
  - destruct (bd_get x d) as [ks|] eqn:Eg.
    + destruct Hx as [Hne [Hnd' Hiff]]; split; [exact Hne|]; split; [exact Hnd'|].
      intros k; rewrite Hiff; split.
      * intros [q [Hq Hr]]; exists q; split; [apply in_or_app; left|]; auto.
      * intros [q [Hq [Hk Hc]]]; apply in_app_or in Hq; destruct Hq as [Hq|[<-|[]]];
          [exists q; auto|].
        subst x; rewrite ustr_eqb_refl in Ex; discriminate.
    + intros q Hq; apply in_app_or in Hq; destruct Hq as [Hq|[<-|[]]]; [exact (Hx q Hq)|].
      intros E; subst x; rewrite ustr_eqb_refl in Ex; discriminate.
Qed.

Lemma binds_inv_fold (ps qs : list param_match) (d : bdict) :
  binds_inv qs d -> binds_inv (qs ++ ps) (fold_left (bindings_step vm0 vms) ps d).
Proof.
  revert qs d; induction ps as [|p ps IH]; intros qs d H; cbn.
  - rewrite app_nil_r; exact H.
  - replace (qs ++ p :: ps) with ((qs ++ [p]) ++ ps) by (rewrite <- app_assoc; reflexivity).
    apply IH, binds_inv_step, H.
Qed.

Lemma binds_inv_all (ps : list param_match) :
  binds_inv ps (fold_left (bindings_step vm0 vms) ps []).
Proof.
  apply (binds_inv_fold ps []); split; [constructor|].
  intros x; cbn; intros p [].
Qed.

End Step.

Lemma in_bindings_of (d : bdict) (b : binding) :
  In b (flat_map (fun '(model, params) =>
                    match model with [] => [] | _ => [mkBinding model params] end) d)
  <-> In (b_model b, b_parameters b) d /\ b_model b <> [].
Proof.
  rewrite in_flat_map; split.
  - intros [[m ks] [Hin Hb]]; destruct m as [|c m]; [destruct Hb|].
    destruct Hb as [<-|[]]; cbn; split; [exact Hin | discriminate].
  - intros [Hin Hne]; exists (b_model b, b_parameters b); split; [exact Hin|].
    destruct b as [[|c m] ks]; [contradiction|]; left; reflexivity.
Qed.

Lemma models_of_bindings (d : bdict) :
  map b_model (flat_map (fun '(model, params) =>
                           match model with [] => [] | _ => [mkBinding model params] end) d)
  = filter (fun m => match m with [] => false | _ => true end) (map fst d).
Proof.
  induction d as [|[[|c m] ks] d IH]; cbn; [reflexivity | exact IH | f_equal; exact IH].
Qed.

Lemma In_valid_values (models : list entity) (pos : nat) (v : ustr) :
  In (pos, v) (valid_values models) <-> exists m, In m models /\ value m = Some v /\ position m = pos.
Proof.
  unfold valid_values; rewrite in_flat_map; split.
  - intros [m [Hm Hin]]; destruct (value m) as [w|] eqn:Ev; [|destruct Hin].
    destruct Hin as [[=<- <-]|[]]; exists m; auto.
  - intros [m [Hm [Ev Ep]]]; exists m; split; [exact Hm|]; rewrite Ev, Ep; left; reflexivity.
Qed.

Lemma valid_values_nil (models : list entity) :
  valid_values models = [] <-> forall m, In m models -> value m = None.
Proof.
  induction models as [|m models IH]; cbn; [split; [intros _ _ []|reflexivity]|].
  destruct (value m) as [v|] eqn:Ev; cbn.
  - split; [discriminate|]; intros H; rewrite (H m (or_introl eq_refl)) in Ev; discriminate.
  - unfold valid_values in IH; rewrite IH; split.
    + intros H m' [<-|Hm']; [exact Ev | apply H, Hm'].
    + intros H m' Hm'; apply H; right; exact Hm'.
Qed.

Lemma bindings_result (models : list entity) (parameters : list param_match) :
  build_param_bindings_logic models parameters = []
  \/ exists vm0 vms, valid_values models = vm0 :: vms
       /\ build_param_bindings_logic models parameters
          = flat_map (fun '(model, params) =>
                        match model with [] => [] | _ => [mkBinding model params] end)
                     (fold_left (bindings_step vm0 vms) parameters []).
Proof.
  unfold build_param_bindings_logic.
  destruct (valid_values models) as [|vm0 vms]; [left; reflexivity|].
  destruct parameters as [|p ps]; [left; reflexivity|].
  right; exists vm0, vms; split; reflexivity.
Qed.

(** X2: the bindings of [build_param_bindings_logic] name pairwise
    distinct, non-empty models, and each lists a non-empty parameter-key
    list without repetitions. *)
Theorem build_param_bindings_logic_shape (models : list entity) (parameters : list param_match) :
  let bs := build_param_bindings_logic models parameters in
  NoDup (map b_model bs)
  /\ forall b, In b bs -> b_model b <> [] /\ b_parameters b <> [] /\ NoDup (b_parameters b).
Proof.
  cbv zeta.
  destruct (bindings_result models parameters) as [->|[vm0 [vms [_ ->]]]];
    [split; [constructor | intros _ []]|].
  destruct (binds_inv_all vm0 vms parameters) as [Hnd Hx].
  split.
  - rewrite models_of_bindings; apply NoDup_filter, Hnd.
  - intros b Hb; apply in_bindings_of in Hb; destruct Hb as [Hin Hne].
    specialize (Hx (b_model b)); rewrite (In_bd_get _ _ _ Hnd Hin) in Hx.
    destruct Hx as [H1 [H2 _]]; auto.
Qed.

(** X3: when some MODEL entity has a canonical value, a binding of [m]
    lists the key [k] exactly when [m] is not empty and some parameter
    with key [k] has [m] as the value of its closest such model (Python's
    [min] by distance: the first of the closest ones). *)
Theorem build_param_bindings_logic_pairs (models : list entity) (parameters : list param_match)
    (vm0 : nat * ustr) (vms : list (nat * ustr)) :
  valid_values models = vm0 :: vms ->
  forall m k,
    (exists b, In b (build_param_bindings_logic models parameters)
               /\ b_model b = m /\ In k (b_parameters b))
    <-> m <> [] /\ exists p, In p parameters /\ key p = k
                   /\ snd (min_by (fun vm => dist (fst vm) (p_position p)) vm0 vms) = m.
Proof.
  intros Hv m k.
  assert (Hr : build_param_bindings_logic models parameters
               = flat_map (fun '(model, params) =>
                             match model with [] => [] | _ => [mkBinding model params] end)
                          (fold_left (bindings_step vm0 vms) parameters [])).
  { unfold build_param_bindings_logic; rewrite Hv.
    destruct parameters; [cbn; reflexivity | reflexivity]. }
  rewrite Hr.
  destruct (binds_inv_all vm0 vms parameters) as [Hnd Hx].
  specialize (Hx m).
  split.
  - intros [b [Hb [<- Hk]]]; apply in_bindings_of in Hb; destruct Hb as [Hin Hne].
    rewrite (In_bd_get _ _ _ Hnd Hin) in Hx; destruct Hx as [_ [_ Hiff]].
    split; [exact Hne|]; apply Hiff, Hk.
  - intros [Hne [p [Hp [Hk Hc]]]].
    destruct (bd_get m (fold_left (bindings_step vm0 vms) parameters [])) as [ks|] eqn:Eg;
      [|exfalso; exact (Hx p Hp Hc)].
    destruct Hx as [_ [_ Hiff]].
    exists (mkBinding m ks); split; [|split; [reflexivity | apply Hiff; exists p; auto]].
    apply in_bindings_of; split; [apply bd_get_In, Eg | exact Hne].
Qed.

(** X4: every parameter key bound to a model comes from a parameter for
    which that model is the canonical value of a MODEL entity at minimal
    distance among the MODEL entities with a canonical value. *)
Theorem build_param_bindings_logic_nearest (models : list entity) (parameters : list param_match) :
  Forall (fun b => Forall (fun k =>
    exists p, In p parameters /\ key p = k
      /\ exists m, In m models /\ value m = Some (b_model b)
         /\ forall m', In m' models -> value m' <> None ->
                       (dist (position m) (p_position p) <= dist (position m') (p_position p))%nat)
    (b_parameters b)) (build_param_bindings_logic models parameters).
Proof.
  apply Forall_forall; intros b Hb; apply Forall_forall; intros k Hk.
  destruct (bindings_result models parameters) as [E|[vm0 [vms [Hv E]]]];
    rewrite E in Hb; [destruct Hb|].
  destruct (binds_inv_all vm0 vms parameters) as [Hnd Hx].
  apply in_bindings_of in Hb; destruct Hb as [Hin Hne].
  specialize (Hx (b_model b)); rewrite (In_bd_get _ _ _ Hnd Hin) in Hx.
  destruct Hx as [_ [_ Hiff]]; apply Hiff in Hk; destruct Hk as [p [Hp [Hk Hc]]].
  exists p; split; [exact Hp|]; split; [exact Hk|].
  destruct (min_by_spec (fun vm => dist (fst vm) (p_position p)) vm0 vms) as [Hmin Hle].
  rewrite <- Hv in Hmin.
  destruct (min_by (fun vm => dist (fst vm) (p_position p)) vm0 vms) as [mpos mv] eqn:Em.
  cbn in Hc; subst mv.
  apply In_valid_values in Hmin; destruct Hmin as [m [Hm [Hval Hpos]]].
  exists m; split; [exact Hm|]; split; [exact Hval|].
  intros m' Hm' Hn; destruct (value m') as [v'|] eqn:Ev'; [|contradiction].
  specialize (Hle (position m', v')); rewrite <- Hv in Hle.
  rewrite Hpos; apply Hle, In_valid_values; exists m'; auto.
Qed.

End LLMFacts.


Module PipelineMore.
Import Data Binder Pipeline StrFacts.

Definition sub_queries_of {SQ} (r : routing SQ) : list SQ :=
  match r with R_noEntities _ => [] | R_single q => [q] | R_multi qs => qs end.

Lemma build_final_routing_queries (llm : llm_result) (ee : extracted) (text : ustr) :
  lr_param_bindings llm <> [] ->
  let sqs := flat_map (fun b =>
               map (fun param =>
                      mkFinalSubQuery (find_closest_manufacturer (b_model b) ee) (b_model b)
                                      (first_value (equipment_type ee)) param (firstn 100 text))
                   (b_parameters b)) (lr_param_bindings llm) in
  sub_queries_of (build_final_routing llm ee text) = sqs
  /\ (build_final_routing llm ee text = R_single (hd (mkFinalSubQuery None [] None [] []) sqs)
      <-> length sqs = 1%nat)
  /\ (length sqs <> 1%nat -> build_final_routing llm ee text = R_multi sqs).
Proof.
  intros Hne; cbv zeta; unfold build_final_routing.
  destruct (lr_param_bindings llm) as [|b0 bs]; [contradiction|].
  destruct (flat_map _ (b0 :: bs)) as [|q [|q' qs]];
    cbn; repeat split; intros H; try discriminate; try reflexivity; try lia; congruence.
Qed.

Lemma map_pairs_queries (ee : extracted) (text : ustr) (bs : list binding) :
  map (fun q => (fq_model q, fq_parameter q))
      (flat_map (fun b =>
         map (fun param =>
                mkFinalSubQuery (find_closest_manufacturer (b_model b) ee) (b_model b)
                                (first_value (equipment_type ee)) param (firstn 100 text))
             (b_parameters b)) bs)
  = flat_map (fun b => map (fun k => (b_model b, k)) (b_parameters b)) bs.
Proof.
  induction bs as [|b bs IH]; [reflexivity|].
  cbn [flat_map]; rewrite map_app, IH, map_map; reflexivity.
Qed.

(** X6: with at least one binding, [build_final_routing] makes one
    sub-query per (binding, parameter key) pair, in order; the strategy is
    ["single_query"] exactly when there is one such pair, and otherwise
    ["multi_query"], also when every binding has an empty parameter list
    (then with no sub-query at all).  Without bindings it answers
    ["noEntities"]. *)
Theorem build_final_routing_pairs (llm : llm_result) (ee : extracted) (text : ustr) :
  let bs := lr_param_bindings llm in
  let r := build_final_routing llm ee text in
  (bs = [] -> r = R_noEntities (u "No valid parameter bindings found"))
  /\ (bs <> [] ->
        map (fun q => (fq_model q, fq_parameter q)) (sub_queries_of r)
          = flat_map (fun b => map (fun k => (b_model b, k)) (b_parameters b)) bs
        /\ (strategy r = u "single_query" <-> length (flat_map b_parameters bs) = 1%nat)
        /\ (flat_map b_parameters bs = [] -> r = R_multi [])).
Proof.
  cbv zeta; split; [unfold build_final_routing; intros ->; reflexivity|].
  intros Hne.
  destruct (build_final_routing_queries llm ee text Hne) as [Hq [Hs Hm]].
  set (sqs := flat_map _ (lr_param_bindings llm)) in *.
  assert (Hlen : length sqs = length (flat_map b_parameters (lr_param_bindings llm))).
  { subst sqs; clear; induction (lr_param_bindings llm) as [|b bs IH]; [reflexivity|].
    cbn [flat_map]; rewrite !length_app, length_map, IH; reflexivity. }
  split; [rewrite Hq; apply map_pairs_queries|].
  split.
  - rewrite <- Hlen; split.
    + intros Hst.
      destruct (Nat.eq_dec (length sqs) 1) as [E|E]; [exact E|].
      rewrite (Hm E) in Hst; vm_compute in Hst; discriminate.
    + intros E; apply Hs in E; rewrite E; reflexivity.
  - intros E; rewrite Hm; [|rewrite Hlen, E; discriminate].
    f_equal; apply length_zero_iff_nil; rewrite Hlen, E; reflexivity.
Qed.


(** The test of [find_closest_manufacturer] that picks the target model. *)
Definition names_model (model_value : ustr) (m : entity) : bool :=
  opt_ustr_eqb (value m) (Some model_value)
  || is_substring (lower (match original_value m with Some o => o | None => [] end))
                  (lower model_value).

Lemma find_app_none {A} (f : A -> bool) (pre : list A) (t : A) (post : list A) :
  (forall m, In m pre -> f m = false) -> f t = true -> find f (pre ++ t :: post) = Some t.
Proof.
  induction pre as [|x pre IH]; cbn; intros Hpre Ht; [rewrite Ht; reflexivity|].
  rewrite (Hpre x (or_introl eq_refl)); apply IH; auto.
Qed.

Lemma find_all_false {A} (f : A -> bool) (l : list A) :
  (forall m, In m l -> f m = false) -> find f l = None.
Proof.
  induction l as [|x l IH]; cbn; intros H; [reflexivity|].
  rewrite (H x (or_introl eq_refl)); apply IH; auto.
Qed.

(** X8: [find_closest_manufacturer] returns [""] when there is no
    manufacturer entity; otherwise the value of a manufacturer entity:
    the first one when no MODEL entity names the model, and else one at
    minimal distance from the first MODEL entity that names it. *)
Theorem find_closest_manufacturer_spec (model_value : ustr) (ee : extracted) :
  (manufacturer ee = [] -> find_closest_manufacturer model_value ee = Some [])
  /\ (forall f0 fs, manufacturer ee = f0 :: fs ->
        (forall m, In m (model ee) -> names_model model_value m = false) ->
        find_closest_manufacturer model_value ee = value f0)
  /\ (forall f0 fs pre t post, manufacturer ee = f0 :: fs ->
        model ee = pre ++ t :: post ->
        (forall m, In m pre -> names_model model_value m = false) ->
        names_model model_value t = true ->
        exists f, In f (manufacturer ee)
          /\ find_closest_manufacturer model_value ee = value f
          /\ forall f', In f' (manufacturer ee) ->
               (dist (position f) (position t) <= dist (position f') (position t))%nat).
Proof.
  unfold find_closest_manufacturer; split; [intros ->; reflexivity|].
  split.
  - intros f0 fs -> Hn.
    erewrite find_all_false; [reflexivity | exact Hn].
  - intros f0 fs pre t post Ef Em Hpre Ht; rewrite Ef, Em.
    erewrite find_app_none; [| exact Hpre | exact Ht].
    destruct (LLMFacts.min_by_spec (fun m => dist (position m) (position t)) f0 fs) as [Hin Hle].
    exists (min_by (fun m => dist (position m) (position t)) f0 fs).
    split; [exact Hin|]; split; [reflexivity|]; exact Hle.
Qed.

Lemma In_dedup (l : list ustr) (x : ustr) : In x (dedup l) <-> In x l.
Proof.
  induction l as [|y l IH]; cbn; [reflexivity|].
  rewrite filter_In, IH; cbv beta; split.
  - intros [<-|[H _]]; auto.
  - intros [<-|H]; [left; reflexivity|].
    destruct (ustr_eqb y x) eqn:E; [left; apply ustr_eqb_eq, E|].
    right; split; [exact H | reflexivity].
Qed.

Lemma NoDup_dedup (l : list ustr) : NoDup (dedup l).
Proof.
  induction l as [|y l IH]; cbn; constructor.
  - rewrite filter_In, ustr_eqb_refl; intros [_ H]; discriminate.
  - apply NoDup_filter, IH.
Qed.

Definition fp_key (e : final_param) : ustr :=
  match e with FP_fuzzy p _ _ => key p | FP_llm k _ _ => k end.
Definition fp_mapped (e : final_param) : ustr :=
  match e with FP_fuzzy _ m _ | FP_llm _ m _ => m end.
Definition fp_batch (e : final_param) : bool :=
  match e with FP_fuzzy _ _ b | FP_llm _ _ b => b end.

Lemma build_parameters_from_llm_In (fuzzy : list param_match) (llm : llm_result) (e : final_param) :
  In e (build_parameters_from_llm fuzzy llm) ->
  let bs := lr_param_bindings llm in
  let k := fp_key e in
  let models := flat_map (fun b => map (fun _ => b_model b) (filter (ustr_eqb k) (b_parameters b))) bs in
  In k (dedup (flat_map b_parameters bs))
  /\ fp_batch e = (1 <? length models)%nat
  /\ fp_mapped e = (if (1 <? length models)%nat then join (u ", ") models
                    else match models with m :: _ => m | [] => u "UNKNOWN" end)
  /\ match e with
     | FP_fuzzy p _ _ => find (fun p => ustr_eqb (key p) k) (rev fuzzy) = Some p
     | FP_llm _ _ _ => find (fun p => ustr_eqb (key p) k) (rev fuzzy) = None
     end.
Proof.
  unfold build_parameters_from_llm; intros He; apply in_map_iff in He.
  destruct He as [k [<- Hk]].
  destruct (find (fun p => ustr_eqb (key p) k) (rev fuzzy)) as [p|] eqn:Ef; cbn.
  - assert (Ek : key p = k)
      by (apply find_some in Ef; destruct Ef as [_ E]; apply ustr_eqb_eq, E).
    rewrite Ek; repeat split; [exact Hk | exact Ef].
  - repeat split; [exact Hk | exact Ef].
Qed.

Lemma keys_of_build_parameters (fuzzy : list param_match) (llm : llm_result) :
  map fp_key (build_parameters_from_llm fuzzy llm) = dedup (flat_map b_parameters (lr_param_bindings llm)).
Proof.
  unfold build_parameters_from_llm; rewrite map_map.
  rewrite <- (map_id (dedup _)) at 2; apply map_ext; intros k.
  destruct (find (fun p => ustr_eqb (key p) k) (rev fuzzy)) as [p|] eqn:Ef; [|reflexivity].
  apply find_some in Ef; apply ustr_eqb_eq, (proj2 Ef).
Qed.

(** X9: the parameters of [build_parameters_from_llm] have pairwise
    distinct keys, and a key occurs there exactly when some LLM binding
    lists it; fuzzy matches whose key no binding lists are dropped. *)
Theorem build_parameters_from_llm_keys (fuzzy : list param_match) (llm : llm_result) :
  NoDup (map fp_key (build_parameters_from_llm fuzzy llm))
  /\ forall k, In k (map fp_key (build_parameters_from_llm fuzzy llm))
               <-> exists b, In b (lr_param_bindings llm) /\ In k (b_parameters b).
Proof.
  rewrite keys_of_build_parameters; split; [apply NoDup_dedup|].
  intros k; rewrite In_dedup, in_flat_map; reflexivity.
Qed.

(** X10: a parameter of [build_parameters_from_llm] keeps the fuzzy match
    of its key when there is one, and then the last fuzzy match with that
    key; it is an LLM-only entry exactly when no fuzzy match has its key. *)
Theorem build_parameters_from_llm_source (fuzzy : list param_match) (llm : llm_result) :
  Forall (fun e =>
    match e with
    | FP_fuzzy p _ _ => exists pre post, fuzzy = pre ++ p :: post
                          /\ forall q, In q post -> key q <> key p
    | FP_llm k _ _ => forall q, In q fuzzy -> key q <> k
    end) (build_parameters_from_llm fuzzy llm).
Proof.
  apply Forall_forall; intros e He; apply build_parameters_from_llm_In in He; cbv zeta in He.
  destruct He as [_ [_ [_ Hf]]].
  destruct e as [p m b|k m b]; cbn [fp_key] in Hf.
  - remember (key p) as k eqn:Ek; clear Ek.
    assert (H : forall l, find (fun p => ustr_eqb (key p) k) l = Some p ->
                  exists pre post, l = pre ++ p :: post /\ forall q, In q pre -> key q <> k).
    { induction l as [|x l IH]; cbn; [discriminate|].
      destruct (ustr_eqb (key x) k) eqn:Ex.
      - intros [=->]; exists [], l; split; [reflexivity | intros q []].
      - intros Hl; destruct (IH Hl) as [pre [post [-> Hpre]]].
        exists (x :: pre), post; split; [reflexivity|].
        intros q [<-|Hq]; [intros E; rewrite E, ustr_eqb_refl in Ex; discriminate | auto]. }
    destruct (H _ Hf) as [pre [post [Er Hpre]]].
    assert (Hk : key p = k) by (apply find_some in Hf; apply ustr_eqb_eq, (proj2 Hf)).
    exists (rev post), (rev pre); split.
    + rewrite <- (rev_involutive fuzzy), Er, rev_app_distr; cbn; rewrite <- app_assoc; reflexivity.
    + intros q Hq; apply Hpre, in_rev, Hq.
  - intros q Hq E.
    assert (Hin : In q (rev fuzzy)) by (apply in_rev; rewrite rev_involutive; exact Hq).
    pose proof (List.find_none _ _ Hf q Hin) as Hx; cbn in Hx.
    rewrite E, ustr_eqb_refl in Hx; discriminate.
Qed.

Lemma models_count (k : ustr) (bs : list binding) :
  length (flat_map (fun b => map (fun _ => b_model b) (filter (ustr_eqb k) (b_parameters b))) bs)
  = length (filter (ustr_eqb k) (flat_map b_parameters bs)).
Proof.
  induction bs as [|b bs IH]; [reflexivity|].
  cbn [flat_map]; rewrite length_app, filter_app, length_app, length_map, IH; reflexivity.
Qed.

Lemma models_In (k m : ustr) (bs : list binding) :
  In m (flat_map (fun b => map (fun _ => b_model b) (filter (ustr_eqb k) (b_parameters b))) bs)
  -> exists b, In b bs /\ In k (b_parameters b) /\ b_model b = m.
Proof.
  rewrite in_flat_map; intros [b [Hb Hm]]; apply in_map_iff in Hm.
  destruct Hm as [k' [<- Hk]]; apply filter_In in Hk; destruct Hk as [Hk E].
  apply ustr_eqb_eq in E; subst k'; exists b; auto.
Qed.

(** X11: a parameter of [build_parameters_from_llm] is marked [batch]
    exactly when its key is listed more than once over all the bindings;
    otherwise it is mapped to the model of the binding that lists it, so
    the ["UNKNOWN"] default is never used. *)
Theorem build_parameters_from_llm_mapping (fuzzy : list param_match) (llm : llm_result) :
  let bs := lr_param_bindings llm in
  Forall (fun e =>
    (fp_batch e = true
     <-> (1 < length (filter (ustr_eqb (fp_key e)) (flat_map b_parameters bs)))%nat)
    /\ (fp_batch e = false ->
        exists b, In b bs /\ In (fp_key e) (b_parameters b) /\ fp_mapped e = b_model b))
    (build_parameters_from_llm fuzzy llm).
Proof.
  cbv zeta; apply Forall_forall; intros e He; apply build_parameters_from_llm_In in He; cbv zeta in *.
  destruct He as [Hk [Hb [Hm _]]].
  rewrite <- models_count; split.
  - rewrite Hb; apply Nat.ltb_lt.
  - intros Hf; rewrite Hf in Hb; symmetry in Hb; rewrite Hb in Hm.
    rewrite In_dedup in Hk.
    destruct (flat_map (fun b => map (fun _ => b_model b) (filter (ustr_eqb (fp_key e)) (b_parameters b)))
                       (lr_param_bindings llm)) as [|m ms] eqn:Ems.
    + exfalso.
      assert (Hc : length (filter (ustr_eqb (fp_key e)) (flat_map b_parameters (lr_param_bindings llm))) = 0%nat)
        by (rewrite <- models_count, Ems; reflexivity).
      apply length_zero_iff_nil in Hc.
      assert (Hin : In (fp_key e) (filter (ustr_eqb (fp_key e)) (flat_map b_parameters (lr_param_bindings llm))))
        by (apply filter_In; split; [exact Hk | apply ustr_eqb_refl]).
      rewrite Hc in Hin; destruct Hin.
    + destruct (models_In (fp_key e) m (lr_param_bindings llm)) as [b [Hb' [Hkb Hmb]]];
        [rewrite Ems; left; reflexivity|].
      exists b; split; [exact Hb'|]; split; [exact Hkb|]; rewrite Hm, Hmb; reflexivity.
Qed.

End PipelineMore.

Module BinderMore.
Import Data Segment Binder StrFacts PipelineMore.

Definition original_or_empty (m : entity) : ustr :=
  match original_value m with Some o => o | None => [] end.

Lemma In_valid_cmodels (nm : ustr -> option ustr) (models : list entity) (cm : cmodel) :
  In cm (valid_cmodels nm models)
  <-> In (cm_entity cm) models /\ nm (original_or_empty (cm_entity cm)) = Some (cm_canonical cm)
      /\ cm_canonical cm <> [].
Proof.
  unfold valid_cmodels, original_or_empty; rewrite in_flat_map; split.
  - intros [m [Hm Hin]].
    destruct (nm _) as [[|c cs]|] eqn:E; [destruct Hin| |destruct Hin].
    destruct Hin as [<-|[]]; cbn; repeat split; [exact Hm | exact E | discriminate].
  - intros [Hm [E Hne]]; exists (cm_entity cm); split; [exact Hm|].
    rewrite E; destruct cm as [m [|c cs]]; [contradiction|]; left; reflexivity.
Qed.

Lemma valid_cmodels_nil (nm : ustr -> option ustr) (models : list entity) :
  valid_cmodels nm models = [] <-> forall m, In m models -> truthy (nm (original_or_empty m)) = false.
Proof.
  split.
  - intros E m Hm; destruct (nm (original_or_empty m)) as [[|c cs]|] eqn:En; try reflexivity.
    exfalso; assert (H : In (mkCModel m (c :: cs)) (valid_cmodels nm models))
      by (apply In_valid_cmodels; cbn; repeat split; [exact Hm | exact En | discriminate]).
    rewrite E in H; destruct H.
  - intros H; destruct (valid_cmodels nm models) as [|cm cms] eqn:E; [reflexivity|].
    exfalso; assert (Hin : In cm (valid_cmodels nm models)) by (rewrite E; left; reflexivity).
    apply In_valid_cmodels in Hin; destruct Hin as [Hm [En Hne]].
    specialize (H _ Hm); rewrite En in H; destruct (cm_canonical cm); [contradiction | discriminate].
Qed.

Lemma all_listed_sub_queries (nm : ustr -> option ustr) (parameters : list param_match)
    (models manufacturers eq_types : list entity) (text : ustr) :
  (forall m, In m models -> truthy (nm (original_or_empty m)) = false) ->
  let sqs := map_parameters_to_models nm parameters models manufacturers eq_types text in
  map sq_parameter sqs = map key parameters
  /\ forall q, In q sqs ->
       sq_model q = u "ALL_LISTED"
       /\ sq_manufacturer q = (match manufacturers with m :: _ => value m | [] => Some [] end)
       /\ sq_equipment_type q = first_value eq_types.
Proof.
  intros H; apply valid_cmodels_nil in H; cbv zeta.
  unfold map_parameters_to_models; rewrite H; split.
  - rewrite map_map; reflexivity.
  - intros q Hq; apply in_map_iff in Hq; destruct Hq as [p [<- _]]; cbn; auto.
Qed.

Lemma list_sum_map_add {A} (f g : A -> nat) (l : list A) :
  list_sum (map (fun x => f x + g x)%nat l) = (list_sum (map f l) + list_sum (map g l))%nat.
Proof. unfold list_sum; induction l as [|x l IH]; cbn; [reflexivity|]; rewrite IH; lia. Qed.

Lemma list_sum_cons (n : nat) (l : list nat) : list_sum (n :: l) = (n + list_sum l)%nat.
Proof. reflexivity. Qed.

Lemma count_filter_swap {A B} (P : A -> B -> bool) (xs : list A) (ys : list B) :
  list_sum (map (fun x => length (filter (P x) ys)) xs)
  = list_sum (map (fun y => length (filter (fun x => P x y) xs)) ys).
Proof.
  induction xs as [|x xs IH]; cbn [map].
  - induction ys as [|y ys IH]; [reflexivity|].
    cbn [map]; rewrite list_sum_cons, <- IH; reflexivity.
  - rewrite list_sum_cons, IH.
    transitivity (list_sum (map (fun y => (if P x y then 1 else 0)
                                          + length (filter (fun x0 => P x0 y) xs))%nat ys)).
    + rewrite list_sum_map_add; f_equal.
      clear; induction ys as [|y ys IH]; [reflexivity|].
      cbn [map filter]; rewrite list_sum_cons, <- IH.
      destruct (P x y); reflexivity.
    + f_equal; apply map_ext; intros y; cbn [filter]; destruct (P x y); reflexivity.
Qed.

Lemma flat_map_app_perm {A B} (g h : A -> list B) (ys : list A) :
  Permutation (flat_map (fun y => g y ++ h y) ys) (flat_map g ys ++ flat_map h ys).
Proof.
  induction ys as [|y ys IH]; cbn; [reflexivity|].
  rewrite <- !app_assoc; apply Permutation_app_head.
  rewrite IH, !app_assoc; apply Permutation_app_tail, Permutation_app_comm.
Qed.

Lemma double_loop_swap {A B C} (P : A -> B -> bool) (f : B -> C) (xs : list A) (ys : list B) :
  Permutation (flat_map (fun x => map f (filter (P x) ys)) xs)
              (flat_map (fun y => repeat (f y) (length (filter (fun x => P x y) xs))) ys).
Proof.
  induction xs as [|x xs IH]; cbn.
  - induction ys; cbn; [reflexivity | exact IHys].
  - rewrite IH.
    transitivity (flat_map (fun y => (if P x y then [f y] else [])
                                     ++ repeat (f y) (length (filter (fun x => P x y) xs))) ys).
    + rewrite flat_map_app_perm; apply Permutation_app_tail.
      clear IH; apply Permutation_refl'.
      induction ys as [|y ys IHy]; cbn; [reflexivity|].
      destruct (P x y); cbn; [f_equal|]; exact IHy.
    + apply Permutation_refl'; apply flat_map_ext; intros y.
      destruct (P x y); reflexivity.
Qed.

Definition sq_fields (q : sub_query) : ustr * ustr * Q * ustr :=
  (sq_parameter q, sq_original_part q, sq_confidence q, sq_match_type q).
Definition param_fields (p : param_match) : ustr * ustr * Q * ustr :=
  (key p, extracted_value p, p_confidence p, match_type p).

Lemma bind_param_fields mans eqs vm0 vms seg p :
  sq_fields (bind_param mans eqs vm0 vms seg p) = param_fields p.
Proof. reflexivity. Qed.

(** X13: when some MODEL entity has a non-empty canonical form, each
    sub-query of [map_parameters_to_models] names the canonical form of a
    MODEL entity and carries the key, text, confidence and match type of
    one parameter; each parameter yields exactly one sub-query for each
    segment of the text it overlaps (within [BORDER_TOLERANCE]): up to
    order, the fields of the sub-queries are those of the parameters, each
    repeated as many times as it overlaps a segment, so a parameter
    overlapping no segment yields none and one straddling two segments
    yields two. *)
Theorem map_parameters_resolved (nm : ustr -> option ustr) (parameters : list param_match)
    (models manufacturers eq_types : list entity) (text : ustr) (m0 : entity) :
  In m0 models -> truthy (nm (original_or_empty m0)) = true ->
  let sqs := map_parameters_to_models nm parameters models manufacturers eq_types text in
  (forall q, In q sqs ->
     (exists m, In m models /\ nm (original_or_empty m) = Some (sq_model q) /\ sq_model q <> [])
     /\ exists p, In p parameters /\ sq_parameter q = key p
                  /\ sq_original_part q = extracted_value p
                  /\ sq_confidence q = p_confidence p /\ sq_match_type q = match_type p)
  /\ Permutation (map sq_fields sqs)
       (flat_map (fun p => repeat (param_fields p)
                    (length (filter (fun seg => overlaps_with_segment (p_position p)
                                                  (p_end_position p) (seg_start seg) (seg_end seg))
                                    (split_into_segments text))))
                 parameters)
  /\ length sqs
     = list_sum (map (fun p => length (filter (fun seg =>
                         overlaps_with_segment (p_position p) (p_end_position p)
                                               (seg_start seg) (seg_end seg))
                                       (split_into_segments text)))
                     parameters).
Proof.
  intros Hm0 Ht; cbv zeta.
  unfold map_parameters_to_models.
  destruct (valid_cmodels nm models) as [|vm0 vms] eqn:Ev.
  { apply valid_cmodels_nil with (m := m0) in Ev; [congruence | exact Hm0]. }
  split.
  - intros q Hq; apply in_flat_map in Hq; destruct Hq as [seg [_ Hq]].
    apply in_map_iff in Hq; destruct Hq as [p [<- Hp]]; apply filter_In in Hp.
    destruct Hp as [Hp _].
    split; [|exists p; unfold bind_param; cbn; repeat split; exact Hp].
    set (f := fun m => dist (cm_pos m) (p_position p)).
    assert (Hc : forall cm, In cm (vm0 :: vms) ->
                   exists m, In m models /\ nm (original_or_empty m) = Some (cm_canonical cm)
                             /\ cm_canonical cm <> []).
    { intros cm Hcm; rewrite <- Ev in Hcm; apply In_valid_cmodels in Hcm.
      destruct Hcm as [H1 [H2 H3]]; exists (cm_entity cm); auto. }
    unfold bind_param; cbn [sq_model].
    destruct (filter (fun m => in_segment seg (cm_pos m)) (vm0 :: vms)) as [|s0 ss] eqn:Es.
    + apply Hc, (proj1 (LLMFacts.min_by_spec f vm0 vms)).
    + apply Hc.
      assert (Hin : In (min_by f s0 ss) (s0 :: ss)) by apply (proj1 (LLMFacts.min_by_spec f s0 ss)).
      rewrite <- Es in Hin; apply filter_In in Hin; exact (proj1 Hin).
  - split.
    + rewrite flat_map_concat_map, concat_map, map_map, <- flat_map_concat_map.
      rewrite <- (double_loop_swap (fun seg p => overlaps_with_segment (p_position p)
                                                  (p_end_position p) (seg_start seg) (seg_end seg))
                                   param_fields).
      apply Permutation_refl'; apply flat_map_ext; intros seg.
      rewrite map_map; apply map_ext; intros p; reflexivity.
    + rewrite <- count_filter_swap.
      induction (split_into_segments text) as [|seg segs IH]; [reflexivity|].
      cbn [flat_map map]; rewrite list_sum_cons, length_app, length_map, IH; reflexivity.
Qed.

(** X14: with no parameter, [build_routing] answers ["noEntities"]; the
    message is ["No entities detected"] exactly when there is also no
    manufacturer and no MODEL entity (equipment types are not looked at),
    and ["No valid parameter-model bindings"] otherwise.  With parameters
    but no MODEL entity with a canonical form, it never answers
    ["noEntities"]: there is one ["ALL_LISTED"] sub-query per parameter. *)
Theorem build_routing_edges (nm : ustr -> option ustr) (manufacturers models eq_types : list entity)
    (parameters : list param_match) (text : ustr) :
  let r := build_routing nm manufacturers models eq_types parameters text in
  (parameters = [] ->
     r = R_noEntities (match manufacturers, models with
                       | [], [] => u "No entities detected"
                       | _, _ => u "No valid parameter-model bindings"
                       end))
  /\ (parameters <> [] ->
      (forall m, In m models -> truthy (nm (original_or_empty m)) = false) ->
      strategy r <> u "noEntities"
      /\ length (sub_queries_of r) = length parameters
      /\ forall q, In q (sub_queries_of r) -> sq_model q = u "ALL_LISTED").
Proof.
  cbv zeta; split.
  - intros ->; unfold build_routing, map_parameters_to_models.
    destruct manufacturers, models; try reflexivity;
      (destruct (valid_cmodels nm _); [reflexivity|]);
      cbn; induction (split_into_segments text); cbn; auto.
  - intros Hp Hv.
    destruct (all_listed_sub_queries nm parameters models manufacturers eq_types text Hv)
      as [Hk Hq]; cbv zeta in Hk, Hq.
    assert (Hl : length (map_parameters_to_models nm parameters models manufacturers eq_types text)
                 = length parameters)
      by (rewrite <- (length_map sq_parameter), Hk, length_map; reflexivity).
    unfold build_routing.
    assert (Hr : match manufacturers, models, parameters with
                 | [], [], [] => R_noEntities (u "No entities detected")
                 | _, _, _ =>
                     match map_parameters_to_models nm parameters models manufacturers eq_types text with
                     | [] => R_noEntities (u "No valid parameter-model bindings")
                     | [sq] => R_single sq
                     | sqs => R_multi sqs
                     end
                 end
                 = match map_parameters_to_models nm parameters models manufacturers eq_types text with
                   | [] => R_noEntities (u "No valid parameter-model bindings")
                   | [sq] => R_single sq
                   | sqs => R_multi sqs
                   end)
      by (destruct manufacturers, models, parameters; try reflexivity; contradiction).
    rewrite Hr; clear Hr.
    revert Hl Hq.
    destruct (map_parameters_to_models nm parameters models manufacturers eq_types text)
      as [|q [|q' qs]]; intros Hl Hq.
    + destruct parameters; [contradiction | discriminate].
    + split; [vm_compute; discriminate|]; split; [exact Hl|]; intros x Hx; apply Hq, Hx.
    + split; [vm_compute; discriminate|]; split; [exact Hl|]; intros x Hx; apply Hq, Hx.
Qed.

End BinderMore.


Module ExtractMore.
Import Data Binder Pipeline Extract StrFacts.

Lemma confidence_bounds (n : nat) :
  let c := ((70 # 100) + inject_Z (Z.of_nat n) / 50)%Q in
  let confidence := if Qle_bool (95 # 100) c then 95 # 100 else c in
  (70 # 100 <= confidence <= 95 # 100)%Q.
Proof.
  cbv zeta.
  assert (H0 : (0 <= inject_Z (Z.of_nat n) / 50)%Q).
  { unfold Qdiv; apply Qmult_le_0_compat; [|discriminate].
    unfold Qle; cbn; lia. }
  destruct (Qle_bool (95 # 100) _) eqn:E.
  - split; [discriminate | apply Qle_refl].
  - split.
    + rewrite <- (Qplus_0_r (70 # 100)) at 1; apply Qplus_le_compat; [apply Qle_refl | exact H0].
    + apply Qlt_le_weak, Qnot_le_lt; intros Hle; apply Qle_bool_iff in Hle; congruence.
Qed.

Section WithHelpers.
Variable clean_word : ustr -> ustr.
Variable normalize_entity : ustr -> ustr -> ustr.
Variable normalize_model : ustr -> option ustr.
Variable get_model_metadata : ustr -> option model_metadata.

(** How the entity [e] of group [l] was built from the span [s]. *)
Definition from_span (l : ustr) (e : entity) (s : ner_span) : Prop :=
  label s = l /\ position e = start_char s /\ end_position e = end_char s
  /\ (70 # 100 <= confidence e <= 95 # 100)%Q
  /\ (l = u "MODEL" ->
        value e = normalize_model (ent_text s) /\ original_value e = Some (ent_text s)
        /\ (metadata e <> None -> truthy (value e) = true))
  /\ (l <> u "MODEL" ->
        value e = Some (normalize_entity (clean_word (ent_text s)) l)
        /\ original_value e = None /\ metadata e = None).

Lemma entity_of_from_span (s : ner_span) :
  from_span (label s)
    (entity_of normalize_model get_model_metadata s
       (normalize_entity (clean_word (ent_text s)) (label s))) s.
Proof.
  unfold entity_of, from_span.
  pose proof (confidence_bounds (length (ent_text s))) as Hc; cbv zeta in Hc.
  destruct (ustr_eqb (label s) (u "MODEL")) eqn:Em;
    cbn [position end_position confidence value original_value metadata].
  - apply ustr_eqb_eq in Em.
    split; [reflexivity|]; split; [reflexivity|]; split; [reflexivity|].
    split; [exact Hc|]; split.
    + intros _; split; [reflexivity|]; split; [reflexivity|].
      destruct (normalize_model (ent_text s)) as [[|c cs]|]; cbn; try reflexivity;
        intros Hmd; contradiction.
    + intros Hn; contradiction.
  - split; [reflexivity|]; split; [reflexivity|]; split; [reflexivity|].
    split; [exact Hc|]; split.
    + intros Hl; rewrite Hl, ustr_eqb_refl in Em; discriminate.
    + intros _; repeat split.
Qed.

Lemma extract_from_spans (ents pre : list ner_span) (g : grouped) :
  (forall l e, In e (group_get l g) -> exists s, In s pre /\ from_span l e s) ->
  forall l e, In e (group_get l (fold_left (extract_step clean_word normalize_entity
                                              normalize_model get_model_metadata) ents g)) ->
    exists s, In s (pre ++ ents) /\ from_span l e s.
Proof.
  revert pre g; induction ents as [|ent ents IH]; intros pre g Hg.
  - rewrite app_nil_r; exact Hg.
  - replace (pre ++ ent :: ents) with ((pre ++ [ent]) ++ ents)
      by (rewrite <- app_assoc; reflexivity).
    cbn [fold_left]; apply IH; intros l e He.
    assert (Hold : In e (group_get l g) -> exists s, In s (pre ++ [ent]) /\ from_span l e s).
    { intros H; destruct (Hg l e H) as [s [Hs Hf]]; exists s; split; [apply in_or_app; left|]; auto. }
    rewrite ExtractFacts.extract_step_get in He.
    destruct (_ && _)%bool; [apply Hold, He|].
    destruct (ustr_eqb (label ent) l) eqn:El; [|apply Hold, He].
    apply ustr_eqb_eq in El; subst l.
    destruct (existsb _ _); [apply Hold, He|].
    apply in_app_or in He; destruct He as [He|[<-|[]]]; [apply Hold, He|].
    exists ent; split; [apply in_or_app; right; left; reflexivity | apply entity_of_from_span].
Qed.

(** X16: every entity in the group [l] returned by
    [extract_entities_with_metadata] comes from a span of the NER output
    labelled [l]: it has the span's start and end, a confidence between
    0.7 and 0.95; a MODEL entity has the span text as ["original_value"],
    the canonical form of the span text as ["value"] and metadata only when
    that form is non-empty; any other entity has the normalized span text
    as ["value"] and neither ["original_value"] nor metadata. *)
Theorem extract_entities_from_spans (ents : list ner_span) (l : ustr) :
  Forall (fun e => exists s, In s ents /\ from_span l e s)
    (group_get l (extract_entities_with_metadata clean_word normalize_entity
                    normalize_model get_model_metadata ents)).
Proof.
  apply Forall_forall; intros e He.
  apply (extract_from_spans ents [] []) in He; [exact He|].
  intros l' e' []. 
Qed.

End WithHelpers.
End ExtractMore.

(** ** Facts about [strip], [lower] and [split_arrow] *)
Module StrMore.
Import Registry SegmentFacts.

Lemma in_range_false (lo hi c : Z) : c < lo \/ hi < c -> in_range lo hi c = false.
Proof.
  unfold in_range; intros [H|H]; apply andb_false_iff;
    [left; apply Z.leb_gt; exact H | right; apply Z.leb_gt; exact H].
Qed.

Lemma in_range_true (lo hi c : Z) : in_range lo hi c = true <-> lo <= c <= hi.
Proof. unfold in_range; rewrite andb_true_iff, !Z.leb_le; reflexivity. Qed.

Lemma lower_cp_out (c : Z) : c < 65 \/ 1215 < c -> lower_cp c = c.
Proof.
  intros H; unfold lower_cp.
  rewrite !(in_range_false _ _ c) by lia; reflexivity.
Qed.

(** A property of code points holds everywhere when it holds on
    [[65, 1215]] (checked by evaluation) and on the points [lower_cp]
    leaves alone. *)
Lemma lower_cp_range (P : Z -> bool) :
  forallb P (map Z.of_nat (seq 65 1151)) = true ->
  (forall c, (c < 65 \/ 1215 < c) -> P c = true) ->
  forall c, P c = true.
Proof.
  intros Hin Hout c.
  destruct (Z_lt_le_dec c 65) as [H|H]; [apply Hout; lia|].
  destruct (Z_lt_le_dec 1215 c) as [H'|H']; [apply Hout; lia|].
  rewrite forallb_forall in Hin; apply Hin, in_map_iff.
  exists (Z.to_nat c); split; [apply Z2Nat.id; lia|].
  apply in_seq; lia.
Qed.

Lemma lower_cp_idem (c : Z) : lower_cp (lower_cp c) = lower_cp c.
Proof.
  apply Z.eqb_eq; revert c.
  apply (lower_cp_range (fun c => lower_cp (lower_cp c) =? lower_cp c));
    [vm_compute; reflexivity|].
  intros c H; rewrite !(lower_cp_out c H); apply Z.eqb_refl.
Qed.

Lemma lower_cp_space (c : Z) : is_space (lower_cp c) = is_space c.
Proof.
  apply Bool.eqb_true_iff; revert c.
  apply (lower_cp_range (fun c => Bool.eqb (is_space (lower_cp c)) (is_space c)));
    [vm_compute; reflexivity|].
  intros c H; rewrite (lower_cp_out c H); apply Bool.eqb_reflx.
Qed.

Lemma lower_idem (s : ustr) : lower (lower s) = lower s.
Proof. unfold lower; rewrite map_map; apply map_ext, lower_cp_idem. Qed.

Definition spaces (a : ustr) : Prop := forall c, In c a -> is_space c = true.

(** No whitespace at either end. *)
Definition tight (t : ustr) : Prop :=
  t = [] \/ ((exists c t', t = c :: t' /\ is_space c = false)
             /\ (exists c t', rev t = c :: t' /\ is_space c = false)).

Lemma drop_space_spaces (a y : ustr) : spaces a -> drop_space (a ++ y) = drop_space y.
Proof.
  induction a as [|c a IH]; intros H; [reflexivity|].
  cbn; rewrite (H c (or_introl eq_refl)); apply IH; intros d Hd; apply H; right; exact Hd.
Qed.

Lemma drop_space_tight (c : Z) (t : ustr) : is_space c = false -> drop_space (c :: t) = c :: t.
Proof. intros H; cbn; rewrite H; reflexivity. Qed.

Lemma spaces_rev (a : ustr) : spaces a -> spaces (rev a).
Proof. intros H c Hc; apply H, in_rev, Hc. Qed.

Lemma strip_eq (a t b : ustr) : spaces a -> spaces b -> tight t -> strip (a ++ t ++ b) = t.
Proof.
  intros Ha Hb [->|[[c [t' [Ht Hc]]] [d [t'' [Hr Hd]]]]]; unfold strip.
  - rewrite drop_space_spaces by exact Ha; cbn [app].
    assert (E : drop_space b = []) by (rewrite <- (app_nil_r b); apply drop_space_spaces, Hb).
    rewrite E; reflexivity.
  - rewrite drop_space_spaces by exact Ha.
    rewrite Ht at 1; rewrite <- app_comm_cons, drop_space_tight by exact Hc.
    rewrite app_comm_cons, <- Ht, rev_app_distr.
    rewrite drop_space_spaces by (apply spaces_rev, Hb).
    rewrite Hr, drop_space_tight by exact Hd.
    rewrite <- Hr, rev_involutive; reflexivity.
Qed.

Lemma drop_space_head (s : ustr) :
  drop_space s = [] \/ exists c t, drop_space s = c :: t /\ is_space c = false.
Proof.
  induction s as [|c s IH]; cbn; [left; reflexivity|].
  destruct (is_space c) eqn:E; [exact IH|right; exists c, s; auto].
Qed.

Lemma strip_decomp (s : ustr) :
  exists a b, s = a ++ strip s ++ b /\ spaces a /\ spaces b /\ tight (strip s).
Proof.
  destruct (drop_space_split s) as [a [Ha Hsa]].
  set (D := drop_space s) in *.
  destruct (drop_space_split (rev D)) as [p [Hp Hsp]].
  set (E := drop_space (rev D)) in *.
  assert (HD : D = rev E ++ rev p)
    by (rewrite <- (rev_involutive D), Hp, rev_app_distr; reflexivity).
  exists a, (rev p); unfold strip; fold D; fold E.
  split; [rewrite Ha at 1; f_equal; exact HD|].
  split; [exact Hsa|]; split; [exact (spaces_rev p Hsp)|].
  destruct E as [|d e] eqn:EE; [left; reflexivity|right].
  split.
  - destruct (rev (d :: e)) as [|x y] eqn:Er.
    + apply (f_equal (@length Z)) in Er; rewrite length_rev in Er; discriminate.
    + exists x, y; split; [reflexivity|].
      destruct (drop_space_head s) as [E0|[c [t [E0 Hc]]]];
        fold D in E0; rewrite HD in E0; [discriminate|].
      injection E0 as -> _; exact Hc.
  - exists d, e; split; [apply rev_involutive|].
    destruct (drop_space_head (rev D)) as [E1|[c [t [E1 Hc]]]]; fold E in E1;
      rewrite EE in E1; [discriminate|].
    injection E1 as -> _; exact Hc.
Qed.

Lemma strip_idem (s : ustr) : strip (strip s) = strip s.
Proof.
  destruct (strip_decomp s) as [a [b [_ [_ [_ Ht]]]]].
  rewrite <- (app_nil_r (strip s)) at 1; rewrite <- (app_nil_l (strip s ++ [])).
  apply strip_eq; [intros c []|intros c []|exact Ht].
Qed.

Lemma lower_tight (t : ustr) : tight t -> tight (lower t).
Proof.
  unfold lower; intros [->|[[c [t' [Ht Hc]]] [d [t'' [Hr Hd]]]]]; [left; reflexivity|right].
  split.
  - exists (lower_cp c), (map lower_cp t'); rewrite Ht; split; [reflexivity|].
    rewrite lower_cp_space; exact Hc.
  - exists (lower_cp d), (map lower_cp t''); rewrite <- map_rev, Hr; split; [reflexivity|].
    rewrite lower_cp_space; exact Hd.
Qed.

Lemma lower_spaces (a : ustr) : spaces a -> spaces (lower a).
Proof.
  intros H c Hc; unfold lower in Hc; apply in_map_iff in Hc.
  destruct Hc as [x [<- Hx]]; rewrite lower_cp_space; apply H, Hx.
Qed.

(** [s.strip().lower()] and [s.lower().strip()] agree. *)
Lemma strip_lower (s : ustr) : strip (lower s) = lower (strip s).
Proof.
  destruct (strip_decomp s) as [a [b [Hs [Ha [Hb Ht]]]]].
  rewrite Hs at 1; unfold lower at 1; rewrite !map_app; fold (lower a) (lower (strip s)) (lower b).
  apply strip_eq; [apply lower_spaces, Ha | apply lower_spaces, Hb | apply lower_tight, Ht].
Qed.

(** Looking a name up by [name.strip().lower()] is insensitive to the
    case and the surrounding whitespace of [name]. *)
Lemma lower_strip_idem (s : ustr) : lower (strip (lower (strip s))) = lower (strip s).
Proof. rewrite strip_lower, strip_idem, lower_idem; reflexivity. Qed.

Lemma split_arrow_app (x y : ustr) :
  (forall c, In c x -> c <> 45) ->
  split_arrow (x ++ y) = match split_arrow y with
                         | Some (l, r) => Some (x ++ l, r)
                         | None => None
                         end.
Proof.
  induction x as [|c x IH]; intros H.
  - cbn [app]; destruct (split_arrow y) as [[l r]|]; reflexivity.
  - cbn [app split_arrow].
    replace (c =? 45) with false by (symmetry; apply Z.eqb_neq, H; left; reflexivity).
    cbn [andb]; rewrite IH by (intros d Hd; apply H; right; exact Hd).
    destruct (split_arrow y) as [[l r]|]; reflexivity.
Qed.

End StrMore.


Module RegistryMore.
Import Registry CleanCanon StrFacts RegistryFacts StrMore.

(** The raw left and right sides of a mapping line. *)
Definition mapping_parts (line : ustr) : option (ustr * ustr) :=
  match strip line with
  | [] => None
  | c :: rest => if c =? 35 then None else split_arrow (c :: rest)
  end.

(** The registry entry a line of the file sets. *)
Definition line_entry (line : ustr) : option (ustr * ustr) :=
  match mapping_parts line with
  | Some (l, r) => Some (lower (strip l), strip r)
  | None => None
  end.

Lemma load_line_entry (m : registry) (line : ustr) :
  load_line m line = match line_entry line with Some (k, v) => reg_set k v m | None => m end.
Proof.
  unfold load_line, line_entry, mapping_parts.
  destruct (strip line) as [|c rest]; [reflexivity|].
  destruct (c =? 35); [reflexivity|].
  destruct (split_arrow (c :: rest)) as [[l r]|]; reflexivity.
Qed.

Definition no_entry (k : ustr) (line : ustr) : Prop := forall v, line_entry line <> Some (k, v).

Lemma reg_get_load_line (k : ustr) (m : registry) (line : ustr) :
  reg_get k (load_line m line)
  = match line_entry line with
    | Some (k', v) => if ustr_eqb k' k then Some v else reg_get k m
    | None => reg_get k m
    end.
Proof.
  rewrite load_line_entry; destruct (line_entry line) as [[k' v]|]; [apply reg_get_set|reflexivity].
Qed.

Lemma load_lines_keep (k : ustr) (lines : list ustr) (m : registry) :
  Forall (no_entry k) lines -> reg_get k (fold_left load_line lines m) = reg_get k m.
Proof.
  revert m; induction lines as [|line lines IH]; intros m H; [reflexivity|].
  inversion H as [|? ? Hl Hls]; subst; cbn [fold_left]; rewrite IH by exact Hls.
  rewrite reg_get_load_line; destruct (line_entry line) as [[k' v]|] eqn:E; [|reflexivity].
  destruct (ustr_eqb k' k) eqn:Ek; [|reflexivity].
  apply ustr_eqb_eq in Ek; subst; exfalso; exact (Hl v E).
Qed.

Lemma load_lines_lookup (k v : ustr) (lines : list ustr) :
  reg_get k (fold_left load_line lines []) = Some v
  <-> exists pre line post, lines = pre ++ line :: post /\ line_entry line = Some (k, v)
                            /\ Forall (no_entry k) post.
Proof.
  split.
  - induction lines as [|x lines IH] using rev_ind; [discriminate|].
    rewrite fold_left_app; cbn [fold_left]; rewrite reg_get_load_line.
    destruct (line_entry x) as [[k' v']|] eqn:E.
    + destruct (ustr_eqb k' k) eqn:Ek.
      * apply ustr_eqb_eq in Ek; subst; intros [=<-].
        exists lines, x, []; split; [reflexivity|]; split; [exact E | constructor].
      * intros H; destruct (IH H) as [pre [line [post [-> [Hl Hp]]]]].
        exists pre, line, (post ++ [x]); split; [rewrite <- app_assoc; reflexivity|].
        split; [exact Hl|]; apply Forall_app; split; [exact Hp|].
        constructor; [|constructor]; intros w Ew; rewrite E in Ew; injection Ew as -> _.
        rewrite ustr_eqb_refl in Ek; discriminate.
    + intros H; destruct (IH H) as [pre [line [post [-> [Hl Hp]]]]].
      exists pre, line, (post ++ [x]); split; [rewrite <- app_assoc; reflexivity|].
      split; [exact Hl|]; apply Forall_app; split; [exact Hp|].
      constructor; [|constructor]; intros w Ew; rewrite E in Ew; discriminate.
  - intros [pre [line [post [-> [Hl Hp]]]]].
    rewrite fold_left_app; cbn [fold_left]; rewrite load_lines_keep by exact Hp.
    rewrite reg_get_load_line, Hl, ustr_eqb_refl; reflexivity.
Qed.

Lemma load_lines_none (k : ustr) (lines : list ustr) :
  reg_get k (fold_left load_line lines []) = None <-> Forall (no_entry k) lines.
Proof.
  split.
  - intros H; apply Forall_forall; intros line Hin v E.
    apply in_split in Hin; destruct Hin as [pre [post ->]].
    (* the last line of [line :: post] with key [k] gives a value *)
    assert (Hs : exists w, reg_get k (fold_left load_line (line :: post)
                                        (fold_left load_line pre [])) = Some w).
    { clear H; revert E; generalize (fold_left load_line pre []) as m.
      induction post as [|x post IH] using rev_ind; intros m E.
      - exists v; cbn; rewrite reg_get_load_line, E, ustr_eqb_refl; reflexivity.
      - rewrite app_comm_cons, fold_left_app; cbn [fold_left]; rewrite reg_get_load_line.
        destruct (line_entry x) as [[k' v']|]; [destruct (ustr_eqb k' k); [exists v'; reflexivity|]|];
          apply IH, E. }
    destruct Hs as [w Hw]; rewrite <- fold_left_app in Hw; rewrite Hw in H; discriminate.
  - intros H; rewrite load_lines_keep by exact H; reflexivity.
Qed.

(** X17: for a non-empty name and an existing registry file,
    [normalize_model] returns the canonical name of the last line of the
    file whose left side, stripped and lowercased, is the stripped,
    lowercased name; it returns [None] when no line has that key.
    Later lines override earlier ones. *)
Theorem normalize_model_last_line (lines : list ustr) (name : ustr) :
  name <> [] ->
  let k := lower (strip name) in
  (forall v, normalize_model (Some lines) name = Ok (Some v)
             <-> exists pre line post, lines = pre ++ line :: post
                   /\ line_entry line = Some (k, v) /\ Forall (no_entry k) post)
  /\ (normalize_model (Some lines) name = Ok None <-> Forall (no_entry k) lines).
Proof.
  intros Hn; cbv zeta.
  assert (E : normalize_model (Some lines) name
              = Ok (reg_get (lower (strip name)) (fold_left load_line lines [])))
    by (destruct name; [contradiction | reflexivity]).
  rewrite E; split.
  - intros v; rewrite <- load_lines_lookup; split; [intros [=]; assumption | intros ->; reflexivity].
  - rewrite <- load_lines_none; split; [intros [=]; assumption | intros ->; reflexivity].
Qed.

Lemma is_model_in_canon_via (data_file : option (list ustr)) (model_name : ustr) :
  is_model_in_canon data_file model_name
  = match normalize_model data_file model_name with
    | Ok (Some _) => Ok true
    | Ok None => Ok false
    | Raise e => Raise e
    end.
Proof.
  unfold is_model_in_canon, normalize_model.
  destruct model_name as [|c cs]; [reflexivity|].
  destruct (load_canonical_models data_file) as [m|e]; [|reflexivity].
  destruct (reg_get _ m); reflexivity.
Qed.

(** X18: [is_model_in_canon] answers [True] exactly when [normalize_model]
    finds a canonical name for the same input, and raises
    [FileNotFoundError] exactly when [normalize_model] does. *)
Theorem is_model_in_canon_normalize (data_file : option (list ustr)) (model_name : ustr) :
  is_model_in_canon data_file model_name
  = match normalize_model data_file model_name with
    | Ok (Some _) => Ok true
    | Ok None => Ok false
    | Raise e => Raise e
    end.
Proof. apply is_model_in_canon_via. Qed.

(** X19: [normalize_model] and [is_model_in_canon] give the same answer
    for a name and for its stripped, lowercased form, as long as the name
    is not blank. *)
Theorem normalize_model_case_insensitive (data_file : option (list ustr)) (name : ustr) :
  strip name <> [] ->
  normalize_model data_file name = normalize_model data_file (lower (strip name))
  /\ is_model_in_canon data_file name = is_model_in_canon data_file (lower (strip name)).
Proof.
  intros Hs.
  assert (Hn : name <> []) by (intros ->; apply Hs; reflexivity).
  assert (Hl : lower (strip name) <> []) by (unfold lower; destruct (strip name); [contradiction|discriminate]).
  assert (E : normalize_model data_file name = normalize_model data_file (lower (strip name))).
  { unfold normalize_model.
    destruct name as [|c cs]; [contradiction|].
    destruct (lower (strip (c :: cs))) as [|d ds] eqn:El; [contradiction|].
    rewrite <- El, lower_strip_idem; reflexivity. }
  split; [exact E|]; rewrite !is_model_in_canon_via, E; reflexivity.
Qed.

End RegistryMore.

Module CleanCanonFacts.
Import Registry CleanCanon SegmentFacts StrMore RegistryMore.

(** The characters left by [clean_model_name]: [[0-9a-z]]. *)
Definition clean_ok (c : Z) : bool := in_range 48 57 c || in_range 97 122 c.

Lemma range_check (P : Z -> bool) (lo n : nat) :
  forallb P (map Z.of_nat (seq lo n)) = true ->
  forall c, Z.of_nat lo <= c < Z.of_nat lo + Z.of_nat n -> P c = true.
Proof.
  intros H c Hc; rewrite forallb_forall in H; apply H, in_map_iff.
  exists (Z.to_nat c); split; [apply Z2Nat.id; lia|apply in_seq; lia].
Qed.

Lemma alnum_bounds (c : Z) : is_ascii_alnum c = true -> 48 <= c <= 122.
Proof.
  unfold is_ascii_alnum; rewrite !orb_true_iff, !in_range_true; lia.
Qed.

Lemma clean_ok_bounds (c : Z) : clean_ok c = true -> 48 <= c <= 122.
Proof. unfold clean_ok; rewrite !orb_true_iff, !in_range_true; lia. Qed.

Lemma lower_alnum (c : Z) : is_ascii_alnum c = true -> clean_ok (lower_cp c) = true.
Proof.
  intros H; pose proof (alnum_bounds c H) as B; revert H.
  apply Bool.implb_true_iff.
  apply (range_check (fun c => implb (is_ascii_alnum c) (clean_ok (lower_cp c))) 48 75);
    [vm_compute; reflexivity|lia].
Qed.

Definition clean_fixed (c : Z) : bool :=
  is_ascii_alnum c && (lower_cp c =? c) && negb (c =? 45) && negb (c =? 35)
  && negb (is_space c).

Lemma clean_ok_fixed (c : Z) : clean_ok c = true ->
  is_ascii_alnum c = true /\ lower_cp c = c /\ c <> 45 /\ c <> 35 /\ is_space c = false.
Proof.
  intros H; pose proof (clean_ok_bounds c H) as B.
  assert (F : clean_fixed c = true).
  { revert H; apply Bool.implb_true_iff.
    apply (range_check (fun c => implb (clean_ok c) (clean_fixed c)) 48 75);
      [vm_compute; reflexivity|lia]. }
  unfold clean_fixed in F; rewrite !andb_true_iff, !negb_true_iff, Z.eqb_eq, !Z.eqb_neq in F.
  tauto.
Qed.

Lemma clean_chars (s : ustr) : forall c, In c (clean_model_name s) -> clean_ok c = true.
Proof.
  intros c; unfold clean_model_name; destruct s as [|d s]; [intros []|].
  unfold lower; rewrite in_map_iff; intros [x [<- Hx]].
  apply filter_In in Hx; apply lower_alnum, Hx.
Qed.

Lemma clean_fix (s : ustr) : (forall c, In c s -> clean_ok c = true) -> clean_model_name s = s.
Proof.
  intros H; unfold clean_model_name; destruct s as [|d s]; [reflexivity|].
  rewrite forallb_filter_id.
  - unfold lower; rewrite <- map_id; apply map_ext_in.
    intros c Hc; apply clean_ok_fixed, H, Hc.
  - apply forallb_forall; intros c Hc; apply clean_ok_fixed, H, Hc.
Qed.

Lemma clean_tight (cl : ustr) : (forall c, In c cl -> clean_ok c = true) -> tight cl.
Proof.
  intros H; destruct cl as [|c cs] eqn:E; [left; reflexivity|right]; rewrite <- E in *.
  split.
  - exists c, cs; split; [exact E|]; apply clean_ok_fixed, H; rewrite E; left; reflexivity.
  - destruct (rev cl) as [|d ds] eqn:Er.
    + apply (f_equal (@length Z)) in Er; rewrite length_rev, E in Er; discriminate.
    + exists d, ds; split; [reflexivity|]; apply clean_ok_fixed, H, in_rev.
      rewrite Er; left; reflexivity.
Qed.

Lemma clean_line_parts (line : ustr) :
  clean_line line
  = match mapping_parts line with
    | Some (l, r) =>
        match clean_model_name (strip l) with
        | [] => line
        | _ => clean_model_name (strip l) ++ u " -> " ++ strip r ++ [10]
        end
    | None => line
    end.
Proof.
  unfold clean_line, mapping_parts; destruct (strip line) as [|c rest]; [reflexivity|].
  destruct (c =? 35); [reflexivity|].
  destruct (split_arrow (c :: rest)) as [[l r]|]; reflexivity.
Qed.

Lemma arrow_u : u " -> " = [32; 45; 62; 32].
Proof. reflexivity. Qed.

(** A line written by [clean_canon_file] splits again at its own arrow. *)
Lemma mapping_parts_out (cl can : ustr) :
  cl <> [] -> (forall c, In c cl -> clean_ok c = true) -> tight can ->
  exists rest, mapping_parts (cl ++ u " -> " ++ can ++ [10]) = Some (cl ++ [32], rest)
               /\ strip rest = can.
Proof.
  intros Hne Hcl Hcan; rewrite arrow_u.
  assert (Hno : forall c, In c (cl ++ [32]) -> c <> 45).
  { intros c Hc; apply in_app_or in Hc; destruct Hc as [Hc|[<-|[]]]; [|discriminate].
    apply clean_ok_fixed, Hcl, Hc. }
  destruct cl as [|c0 cs]; [contradiction|].
  assert (H0 : clean_ok c0 = true) by (apply Hcl; left; reflexivity).
  destruct (clean_ok_fixed c0 H0) as [_ [_ [_ [H35 Hsp]]]].
  assert (Hs : spaces [32; 10]) by (intros c [<-|[<-|[]]]; reflexivity).
  destruct can as [|d ds] eqn:Ec.
  - exists []; split; [|reflexivity].
    replace ((c0 :: cs) ++ [32; 45; 62; 32] ++ [] ++ [10])
      with ([] ++ ((c0 :: cs) ++ [32] ++ [45; 62]) ++ [32; 10])
      by (cbn [app]; rewrite <- !app_assoc; reflexivity).
    unfold mapping_parts; rewrite strip_eq.
    + cbn [app]; replace (c0 =? 35) with false by (symmetry; apply Z.eqb_neq, H35).
      change [32; 45; 62] with ([32] ++ [45; 62]).
      rewrite app_comm_cons, app_assoc, split_arrow_app by exact Hno; simpl; rewrite app_nil_r; reflexivity.
    + intros c [].
    + exact Hs.
    + right; split; [exists c0, (cs ++ [32; 45; 62]); split; [reflexivity|exact Hsp]|].
      exists 62, (rev ((c0 :: cs) ++ [32; 45])).
      split; [|reflexivity].
      replace ((c0 :: cs) ++ [32] ++ [45; 62]) with (((c0 :: cs) ++ [32; 45]) ++ [62])
        by (rewrite <- !app_assoc; reflexivity).
      rewrite rev_app_distr; reflexivity.
  - rewrite <- Ec in Hcan; exists (32 :: can); rewrite <- Ec; split.
    + replace ((c0 :: cs) ++ [32; 45; 62; 32] ++ can ++ [10])
        with ([] ++ ((c0 :: cs) ++ [32] ++ (45 :: 62 :: 32 :: can)) ++ [10])
        by (cbn [app]; rewrite <- !app_assoc; reflexivity).
      unfold mapping_parts; rewrite strip_eq.
      * cbn [app]; replace (c0 =? 35) with false by (symmetry; apply Z.eqb_neq, H35).
        change (32 :: 45 :: 62 :: 32 :: can) with ([32] ++ 45 :: 62 :: 32 :: can).
        rewrite app_comm_cons, app_assoc, split_arrow_app by exact Hno; simpl; rewrite app_nil_r; reflexivity.
      * intros c [].
      * intros c [<-|[]]; reflexivity.
      * destruct Hcan as [Hc|[_ [e [es [Hr He]]]]]; [rewrite Ec in Hc; discriminate|].
        right; split; [exists c0, (cs ++ [32] ++ 45 :: 62 :: 32 :: can); split; [reflexivity|exact Hsp]|].
        exists e, (es ++ rev ((c0 :: cs) ++ [32] ++ [45; 62; 32])).
        split; [|exact He].
        replace ((c0 :: cs) ++ [32] ++ 45 :: 62 :: 32 :: can)
          with (((c0 :: cs) ++ [32] ++ [45; 62; 32]) ++ can)
          by (rewrite <- !app_assoc; reflexivity).
        rewrite rev_app_distr, Hr; reflexivity.
    + replace (32 :: can) with ([32] ++ can ++ []) by (rewrite app_nil_r; reflexivity).
      apply strip_eq; [intros c [<-|[]]; reflexivity|intros c []|exact Hcan].
Qed.

Lemma clean_line_out (line l r : ustr) :
  mapping_parts line = Some (l, r) -> clean_model_name (strip l) <> [] ->
  let cl := clean_model_name (strip l) in
  exists rest, mapping_parts (clean_line line) = Some (cl ++ [32], rest)
               /\ strip rest = strip r
               /\ strip (cl ++ [32]) = cl /\ lower cl = cl
               /\ clean_model_name cl = cl.
Proof.
  intros Hp Hne; cbv zeta; rewrite clean_line_parts, Hp.
  remember (clean_model_name (strip l)) as cl eqn:Ecl.
  assert (Hcl : forall c, In c cl -> clean_ok c = true) by (rewrite Ecl; apply clean_chars).
  assert (Htr : tight (strip r)) by (destruct (strip_decomp r) as [a [b [_ [_ [_ T]]]]]; exact T).
  destruct (mapping_parts_out cl (strip r) Hne Hcl Htr) as [rest [E1 E2]].
  exists rest.
  replace (match cl with [] => line | _ :: _ => cl ++ u " -> " ++ strip r ++ [10] end)
    with (cl ++ u " -> " ++ strip r ++ [10]) by (destruct cl; [contradiction|reflexivity]).
  split; [exact E1|]; split; [exact E2|]; split.
  - rewrite <- (app_nil_l (cl ++ [32])); apply strip_eq;
      [intros c []|intros c [<-|[]]; reflexivity|apply clean_tight, Hcl].
  - split; [|apply clean_fix, Hcl].
    unfold lower; transitivity (map (fun x => x) cl); [|apply map_id].
    apply map_ext_in; intros c Hc; apply clean_ok_fixed, Hcl, Hc.
Qed.

Lemma clean_line_keep (line : ustr) :
  (mapping_parts line = None -> clean_line line = line)
  /\ (forall l r, mapping_parts line = Some (l, r) -> clean_model_name (strip l) = [] ->
                  clean_line line = line).
Proof.
  split; [intros Hp | intros l r Hp He]; rewrite clean_line_parts, Hp; [reflexivity|].
  rewrite He; reflexivity.
Qed.

Lemma clean_line_idem (line : ustr) : clean_line (clean_line line) = clean_line line.
Proof.
  destruct (mapping_parts line) as [[l r]|] eqn:Hp.
  - destruct (clean_model_name (strip l)) as [|c cs] eqn:He.
    + rewrite (proj2 (clean_line_keep line) l r Hp He).
      apply (proj2 (clean_line_keep line) l r Hp He).
    + assert (Hne : clean_model_name (strip l) <> []) by (rewrite He; discriminate).
      destruct (clean_line_out line l r Hp Hne) as [rest [E1 [E2 [E3 [_ E5]]]]].
      rewrite (clean_line_parts (clean_line line)), E1, E3, E5, E2.
      rewrite (clean_line_parts line), Hp.
      destruct (clean_model_name (strip l)); [contradiction|reflexivity].
  - rewrite (proj1 (clean_line_keep line) Hp); apply (proj1 (clean_line_keep line) Hp).
Qed.

(** X20: [clean_model_name] keeps only the characters [[0-9a-z]], and
    cleaning a cleaned name changes nothing. *)
Theorem clean_model_name_charset (model_name : ustr) :
  Forall (fun c => 48 <= c <= 57 \/ 97 <= c <= 122) (clean_model_name model_name)
  /\ clean_model_name (clean_model_name model_name) = clean_model_name model_name.
Proof.
  split.
  - apply Forall_forall; intros c Hc; apply clean_chars in Hc.
    unfold clean_ok in Hc; rewrite orb_true_iff, !in_range_true in Hc; exact Hc.
  - apply clean_fix, clean_chars.
Qed.

(** X21: [clean_canon_file] writes back unchanged every blank line,
    comment, line without an arrow, and mapping line whose left side
    cleans to the empty string; any other mapping line [l -> r] becomes a
    line that the registry loader reads as the key [clean_model_name
    (l.strip())] with the same canonical name [r.strip()]. *)
Theorem clean_canon_line_load (line : ustr) :
  (mapping_parts line = None -> clean_line line = line)
  /\ (forall l r, mapping_parts line = Some (l, r) -> clean_model_name (strip l) = [] ->
                  clean_line line = line)
  /\ (forall l r, mapping_parts line = Some (l, r) -> clean_model_name (strip l) <> [] ->
                  forall m, load_line m (clean_line line)
                            = reg_set (clean_model_name (strip l)) (strip r) m).
Proof.
  split; [exact (proj1 (clean_line_keep line))|].
  split; [exact (proj2 (clean_line_keep line))|].
  intros l r Hp Hne m.
  destruct (clean_line_out line l r Hp Hne) as [rest [E1 [E2 [E3 [E4 _]]]]].
  rewrite load_line_entry; unfold line_entry; rewrite E1, E3, E4, E2; reflexivity.
Qed.

(** X22: running [clean_canon_file] on its own output changes nothing;
    a missing file stays missing. *)
Theorem clean_canon_file_idem (input_file : option (list ustr)) :
  clean_canon_file (clean_canon_file input_file) = clean_canon_file input_file.
Proof.
  destruct input_file as [lines|]; [|reflexivity].
  cbn; f_equal; rewrite map_map; apply map_ext, clean_line_idem.
Qed.

End CleanCanonFacts.

Module MetadataFacts.
Import Registry Metadata StrFacts.

(** The four fields read from a CSV row, [None] when one of them is
    [None] (its [.strip()] raises). *)
Definition row_fields (row : csv_row) : option (ustr * ustr * ustr * ustr) :=
  match row_get row (u "model_code"%string) [], row_get row (u "manufacturer_id"%string) [],
        row_get row (u "equipment_type_id"%string) [], row_get row (u "is_active"%string) (u "1"%string) with
  | Some mc, Some mf, Some et, Some ia => Some (mc, mf, et, ia)
  | _, _, _, _ => None
  end.

(** The entry an active row with a non-empty model code stores. *)
Definition active_entry (row : csv_row) : option (ustr * meta_entry) :=
  match row_fields row with
  | Some (mc, mf, et, ia) =>
      match lower (strip mc) with
      | [] => None
      | _ => if ustr_eqb (strip ia) (u "1"%string)
             then Some (lower (strip mc), mkMeta (lower (strip mf)) (lower (strip et)))
             else None
      end
  | None => None
  end.

Definition row_step (m : mdict) (row : csv_row) : mdict :=
  match active_entry row with Some (k, e) => md_set k e m | None => m end.

Lemma load_rows_cons (row : csv_row) (rows : list csv_row) (m : mdict) :
  load_rows (row :: rows) m
  = match row_fields row with
    | None => m
    | Some _ => load_rows rows (row_step m row)
    end.
Proof.
  unfold row_step, active_entry, row_fields; cbn [load_rows].
  destruct (row_get row (u "model_code"%string) []) as [mc|],
    (row_get row (u "manufacturer_id"%string) []) as [mf|],
    (row_get row (u "equipment_type_id"%string) []) as [et|],
    (row_get row (u "is_active"%string) (u "1"%string)) as [ia|];
    try reflexivity.
  destruct (lower (strip _)); [reflexivity|].
  destruct (ustr_eqb _ _); reflexivity.
Qed.

Lemma load_rows_bad (pre post : list csv_row) (bad : csv_row) (m : mdict) :
  row_fields bad = None -> load_rows (pre ++ bad :: post) m = load_rows pre m.
Proof.
  intros Hb; revert m; induction pre as [|r pre IH]; intros m.
  - cbn [app]; rewrite load_rows_cons, Hb; reflexivity.
  - cbn [app]; rewrite !load_rows_cons; destruct (row_fields r); [apply IH|reflexivity].
Qed.

Lemma load_rows_skip (pre post : list csv_row) (row : csv_row) (m : mdict) :
  row_fields row <> None -> active_entry row = None ->
  load_rows (pre ++ row :: post) m = load_rows (pre ++ post) m.
Proof.
  intros Hf Ha; revert m; induction pre as [|r pre IH]; intros m.
  - cbn [app]; rewrite load_rows_cons; destruct (row_fields row); [|contradiction].
    unfold row_step; rewrite Ha; reflexivity.
  - cbn [app]; rewrite !load_rows_cons; destruct (row_fields r); [apply IH|reflexivity].
Qed.

Lemma load_rows_fold (rows : list csv_row) (m : mdict) :
  Forall (fun r => row_fields r <> None) rows -> load_rows rows m = fold_left row_step rows m.
Proof.
  revert m; induction rows as [|r rows IH]; intros m H; [reflexivity|].
  inversion H as [|? ? Hr Hrs]; subst.
  rewrite load_rows_cons; destruct (row_fields r); [apply IH, Hrs|contradiction].
Qed.

Lemma md_get_set (k k' : ustr) (v : meta_entry) (m : mdict) :
  md_get k (md_set k' v m) = if ustr_eqb k' k then Some v else md_get k m.
Proof.
  induction m as [|[k0 v0] m IH]; cbn.
  - destruct (ustr_eqb k' k); reflexivity.
  - destruct (ustr_eqb k0 k') eqn:E0; cbn.
    + apply ustr_eqb_eq in E0; subst k0.
      destruct (ustr_eqb k' k); reflexivity.
    + rewrite IH. destruct (ustr_eqb k0 k) eqn:E1; [|reflexivity].
      apply ustr_eqb_eq in E1; subst k0.
      destruct (ustr_eqb k' k) eqn:E2; [|reflexivity].
      apply ustr_eqb_eq in E2; subst k'; rewrite ustr_eqb_refl in E0; discriminate.
Qed.

Definition no_row (k : ustr) (row : csv_row) : Prop := forall e, active_entry row <> Some (k, e).

Lemma md_get_row_step (k : ustr) (m : mdict) (row : csv_row) :
  md_get k (row_step m row)
  = match active_entry row with
    | Some (k', e) => if ustr_eqb k' k then Some e else md_get k m
    | None => md_get k m
    end.
Proof.
  unfold row_step; destruct (active_entry row) as [[k' e]|]; [apply md_get_set|reflexivity].
Qed.

Lemma rows_keep (k : ustr) (rows : list csv_row) (m : mdict) :
  Forall (no_row k) rows -> md_get k (fold_left row_step rows m) = md_get k m.
Proof.
  revert m; induction rows as [|row rows IH]; intros m H; [reflexivity|].
  inversion H as [|? ? Hl Hls]; subst; cbn [fold_left]; rewrite IH by exact Hls.
  rewrite md_get_row_step; destruct (active_entry row) as [[k' e]|] eqn:E; [|reflexivity].
  destruct (ustr_eqb k' k) eqn:Ek; [|reflexivity].
  apply ustr_eqb_eq in Ek; subst; exfalso; exact (Hl e E).
Qed.

Lemma rows_lookup (k : ustr) (e : meta_entry) (rows : list csv_row) :
  md_get k (fold_left row_step rows []) = Some e
  <-> exists pre row post, rows = pre ++ row :: post /\ active_entry row = Some (k, e)
                           /\ Forall (no_row k) post.
Proof.
  split.
  - induction rows as [|x rows IH] using rev_ind; [discriminate|].
    rewrite fold_left_app; cbn [fold_left]; rewrite md_get_row_step.
    destruct (active_entry x) as [[k' e']|] eqn:E.
    + destruct (ustr_eqb k' k) eqn:Ek.
      * apply ustr_eqb_eq in Ek; subst; intros [=<-].
        exists rows, x, []; split; [reflexivity|]; split; [exact E | constructor].
      * intros H; destruct (IH H) as [pre [row [post [-> [Hl Hp]]]]].
        exists pre, row, (post ++ [x]); split; [rewrite <- app_assoc; reflexivity|].
        split; [exact Hl|]; apply Forall_app; split; [exact Hp|].
        constructor; [|constructor]; intros w Ew; rewrite E in Ew; injection Ew as -> _.
        rewrite ustr_eqb_refl in Ek; discriminate.
    + intros H; destruct (IH H) as [pre [row [post [-> [Hl Hp]]]]].
      exists pre, row, (post ++ [x]); split; [rewrite <- app_assoc; reflexivity|].
      split; [exact Hl|]; apply Forall_app; split; [exact Hp|].
      constructor; [|constructor]; intros w Ew; rewrite E in Ew; discriminate.
  - intros [pre [row [post [-> [Hl Hp]]]]].
    rewrite fold_left_app; cbn [fold_left]; rewrite rows_keep by exact Hp.
    rewrite md_get_row_step, Hl, ustr_eqb_refl; reflexivity.
Qed.

Lemma rows_none (k : ustr) (rows : list csv_row) :
  md_get k (fold_left row_step rows []) = None <-> Forall (no_row k) rows.
Proof.
  split.
  - intros H; apply Forall_forall; intros row Hin e E.
    apply in_split in Hin; destruct Hin as [pre [post ->]].
    assert (Hs : exists w, md_get k (fold_left row_step (row :: post)
                                       (fold_left row_step pre [])) = Some w).
    { clear H; revert E; generalize (fold_left row_step pre []) as m.
      induction post as [|x post IH] using rev_ind; intros m E.
      - exists e; cbn; rewrite md_get_row_step, E, ustr_eqb_refl; reflexivity.
      - rewrite app_comm_cons, fold_left_app; cbn [fold_left]; rewrite md_get_row_step.
        destruct (active_entry x) as [[k' e']|]; [destruct (ustr_eqb k' k); [exists e'; reflexivity|]|];
          apply IH, E. }
    destruct Hs as [w Hw]; rewrite <- fold_left_app in Hw; rewrite Hw in H; discriminate.
  - intros H; rewrite rows_keep by exact H; reflexivity.
Qed.

(** X23: [load_model_metadata] stops at the first row with a missing
    field (its [.strip()] raises and the [except] clause returns what was
    loaded so far), and a row that is inactive or has a blank model code
    has no effect on the result. *)
Theorem load_model_metadata_rows :
  (forall pre bad post, row_fields bad = None ->
     load_model_metadata (Some (pre ++ bad :: post)) = load_model_metadata (Some pre))
  /\ (forall pre row post mc mf et ia, row_fields row = Some (mc, mf, et, ia) ->
        lower (strip mc) = [] \/ strip ia <> u "1"%string ->
        load_model_metadata (Some (pre ++ row :: post)) = load_model_metadata (Some (pre ++ post))).
Proof.
  split.
  - intros pre bad post Hb; apply load_rows_bad, Hb.
  - intros pre row post mc mf et ia Hf Hs; apply load_rows_skip; [rewrite Hf; discriminate|].
    unfold active_entry; rewrite Hf.
    destruct (lower (strip mc)) as [|c cs]; [reflexivity|].
    destruct Hs as [Hs|Hs]; [discriminate|].
    destruct (ustr_eqb (strip ia) (u "1"%string)) eqn:E; [apply ustr_eqb_eq in E; contradiction|reflexivity].
Qed.

(** X24: on a file whose rows all have their four fields, the metadata of
    a non-empty name is the entry of the last active row whose model code,
    stripped and lowercased, equals the stripped, lowercased name (later
    rows override earlier ones); it is [None] when no active row has that
    code. *)
Theorem get_model_metadata_last_row (rows : list csv_row) (name : ustr) :
  name <> [] -> Forall (fun r => row_fields r <> None) rows ->
  let k := lower (strip name) in
  (forall e, get_model_metadata (Some rows) name = Some e
             <-> exists pre row post, rows = pre ++ row :: post
                   /\ active_entry row = Some (k, e) /\ Forall (no_row k) post)
  /\ (get_model_metadata (Some rows) name = None <-> Forall (no_row k) rows).
Proof.
  intros Hn Hf; cbv zeta.
  assert (E : get_model_metadata (Some rows) name
              = md_get (lower (strip name)) (fold_left row_step rows [])).
  { unfold get_model_metadata, load_model_metadata; rewrite load_rows_fold by exact Hf.
    destruct name; [contradiction|reflexivity]. }
  rewrite E; split; [intros e; apply rows_lookup | apply rows_none].
Qed.

End MetadataFacts.

Module ExactFacts.
Import Data Binder Pipeline Registry ExactMatch StrFacts RegistryFacts.

Lemma is_prefix_firstn (a b : ustr) :
  is_prefix a b = true -> firstn (length a) b = a /\ (length a <= length b)%nat.
Proof.
  revert b; induction a as [|x a IH]; intros [|y b] H; cbn in *;
    try discriminate; [split; [reflexivity|lia]|split; [reflexivity|lia]|].
  apply andb_true_iff in H; destruct H as [Hxy H]; apply Z.eqb_eq in Hxy; subst y.
  destruct (IH b H) as [E L]; rewrite E; split; [reflexivity|lia].
Qed.

Lemma find_at_spec (sub s : ustr) (i j : nat) :
  find_at sub s i = Some j ->
  (i <= j)%nat /\ (j - i <= length s)%nat /\ is_prefix sub (skipn (j - i) s) = true.
Proof.
  revert i; induction s as [|c s IH]; intros i; cbn.
  - destruct (is_prefix sub []) eqn:E; intros H; [|discriminate].
    injection H as <-; rewrite Nat.sub_diag; split; [lia|split; [cbn; lia|exact E]].
  - destruct (is_prefix sub (c :: s)) eqn:E; intros H.
    + injection H as <-; rewrite Nat.sub_diag; split; [lia|split; [cbn; lia|exact E]].
    + destruct (IH (S i) H) as [L [Ls P]]; split; [lia|split; [cbn; lia|]].
      replace (j - i)%nat with (S (j - S i)) by lia; exact P.
Qed.

(** What [lower.find(syn, start)] returns is an occurrence at or after [start]. *)
Lemma str_find_spec (sub s : ustr) (start idx : nat) :
  str_find sub s start = Some idx ->
  (start <= idx)%nat /\ (idx + length sub <= length s)%nat
  /\ slice s idx (idx + length sub) = sub.
Proof.
  unfold str_find; destruct (start <=? length s)%nat eqn:Hs; [|discriminate].
  intros H; destruct (find_at_spec _ _ _ _ H) as [L [Ls P]].
  rewrite length_skipn in Ls; apply Nat.leb_le in Hs.
  rewrite skipn_skipn in P; replace (idx - start + start)%nat with idx in P by lia.
  destruct (is_prefix_firstn _ _ P) as [E Ln]; rewrite length_skipn in Ln.
  split; [exact L|]; split; [lia|].
  unfold slice; replace (idx + length sub - idx)%nat with (length sub) by lia; exact E.
Qed.

(** The properties of one exact match. *)
Definition exact_ok (text : ustr) (m : registry) (p : param_match) : Prop :=
  synonym_matched p <> [] /\ reg_get (synonym_matched p) m = Some (key p)
  /\ p_end_position p = (p_position p + length (synonym_matched p))%nat
  /\ slice (lower text) (p_position p) (p_end_position p) = synonym_matched p
  /\ extracted_value p = strip (slice text (p_position p) (p_end_position p))
  /\ p_confidence p = 95 # 100 /\ match_type p = u "exact" /\ fuzzy_score p = None
  /\ before_ok text (p_position p) = true /\ after_ok text (p_end_position p) = true.

Definition far (p q : param_match) : Prop := (5 <= dist (p_position p) (p_position q))%nat.

Definition scan_inv (text : ustr) (m : registry) (st : list nat * list param_match) : Prop :=
  fst st = rev (map p_position (snd st)) /\ ForallOrdPairs far (snd st)
  /\ Forall (exact_ok text m) (snd st).

Lemma ForallOrdPairs_snoc {A} (R : A -> A -> Prop) (l : list A) (y : A) :
  ForallOrdPairs R l -> (forall x, In x l -> R x y) -> ForallOrdPairs R (l ++ [y]).
Proof.
  induction l as [|x l IH]; intros H Hy; cbn.
  - constructor; [constructor|constructor].
  - inversion H as [|? ? Hx Hl]; subst; constructor.
    + apply Forall_app; split; [exact Hx|constructor; [apply Hy; left; reflexivity|constructor]].
    + apply IH; [exact Hl|intros z Hz; apply Hy; right; exact Hz].
Qed.

Lemma length_lower (s : ustr) : length (lower s) = length s.
Proof. apply length_map. Qed.

Lemma exact_scan_inv (text syn k : ustr) (m : registry) (fuel start : nat)
  (found : list nat) (results : list param_match) :
  syn <> [] -> reg_get syn m = Some k ->
  scan_inv text m (found, results) ->
  scan_inv text m (exact_scan text (lower text) syn k fuel start found results).
Proof.
  intros Hne Hk; revert start found results.
  induction fuel as [|f IH]; intros start found results Hinv; cbn [exact_scan]; [exact Hinv|].
  destruct (str_find syn (lower text) start) as [idx|] eqn:Hf; [|exact Hinv].
  destruct (str_find_spec _ _ _ _ Hf) as [_ [Hlen Hsl]]; rewrite length_lower in Hlen.
  destruct (near found idx) eqn:Hn; [apply IH, Hinv|].
  destruct (negb (before_ok text idx && after_ok text (idx + length syn))) eqn:Hb;
    [apply IH, Hinv|].
  apply negb_false_iff, andb_true_iff in Hb; destruct Hb as [Hb Ha].
  apply IH; destruct Hinv as [Hfound [Hfar Hok]]; cbn [fst snd] in *.
  split; [|split].
  - cbn [fst snd]; rewrite map_app, rev_app_distr, Hfound; reflexivity.
  - apply ForallOrdPairs_snoc; [exact Hfar|].
    intros x Hx; unfold far; cbn [p_position].
    assert (Hin : In (p_position x) found)
      by (rewrite Hfound; apply in_rev; rewrite rev_involutive; apply in_map, Hx).
    unfold near in Hn; destruct (Nat.ltb_spec (dist (p_position x) idx) 5) as [Hlt|Hge]; [|exact Hge].
    exfalso; assert (Hex : existsb (fun p => (dist p idx <? 5)%nat) found = true)
      by (apply existsb_exists; exists (p_position x); split; [exact Hin|apply Nat.ltb_lt, Hlt]).
    rewrite Hex in Hn; discriminate.
  - apply Forall_app; split; [exact Hok|constructor; [|constructor]].
    unfold exact_ok; cbn.
    repeat split; try assumption; try reflexivity; lia.
Qed.

Lemma In_reg_get (k v : ustr) (m : registry) :
  NoDup (map fst m) -> In (k, v) m -> reg_get k m = Some v.
Proof.
  induction m as [|[k0 v0] m IH]; cbn; [intros _ []|].
  intros Hnd Hin; inversion Hnd as [|? ? Hn Hnd']; subst.
  destruct (ustr_eqb k0 k) eqn:E.
  - apply ustr_eqb_eq in E; subst k0.
    destruct Hin as [[=->]|Hin]; [reflexivity|].
    exfalso; apply Hn; apply (in_map fst) in Hin; exact Hin.
  - destruct Hin as [[=]|Hin]; [subst; rewrite ustr_eqb_refl in E; discriminate|].
    apply IH; assumption.
Qed.

Lemma reg_set_keys (k v : ustr) (m : registry) :
  forall x, In x (map fst (reg_set k v m)) <-> x = k \/ In x (map fst m).
Proof.
  induction m as [|[k0 v0] m IH]; intros x; cbn.
  - split; intros H; repeat destruct H as [H|H]; subst; auto.
  - destruct (ustr_eqb k0 k) eqn:E; cbn.
    + apply ustr_eqb_eq in E; subst.
      split; intros H; repeat destruct H as [H|H]; subst; auto.
    + rewrite IH; tauto.
Qed.

Lemma reg_set_nodup (k v : ustr) (m : registry) :
  NoDup (map fst m) -> NoDup (map fst (reg_set k v m)).
Proof.
  induction m as [|[k0 v0] m IH]; cbn; intros Hnd.
  - constructor; [intros []|constructor].
  - inversion Hnd as [|? ? Hn Hnd']; subst.
    destruct (ustr_eqb k0 k) eqn:E; cbn; constructor; auto.
    rewrite reg_set_keys; intros [->|H]; [|contradiction].
    rewrite ustr_eqb_refl in E; discriminate.
Qed.

Lemma synonym_map_nodup (g : glossary) : NoDup (map fst (build_synonym_to_key g)).
Proof.
  unfold build_synonym_to_key.
  assert (H : forall (g : glossary) (m : registry), NoDup (map fst m) ->
              NoDup (map fst (fold_left (fun m ks =>
                 fold_left (fun m syn => reg_set (strip (lower syn)) (fst ks) m) (snd ks) m) g m))).
  { induction g0 as [|ks g0 IH]; intros m Hm; [exact Hm|]; cbn [fold_left]; apply IH.
    generalize (snd ks) as syns; intros syns; revert m Hm.
    induction syns as [|s syns IHs]; intros m Hm; [exact Hm|]; cbn [fold_left].
    apply IHs, reg_set_nodup, Hm. }
  apply H; constructor.
Qed.

Lemma In_insert_desc (x y : ustr * ustr) (l : list (ustr * ustr)) :
  In x (insert_desc y l) <-> y = x \/ In x l.
Proof.
  induction l as [|z l IH]; cbn [insert_desc]; [cbn; tauto|].
  destruct (length (fst z) <? length (fst y))%nat; cbn [In]; [tauto|]; rewrite IH; tauto.
Qed.

Lemma In_sorted_synonyms (x : ustr * ustr) (m : registry) :
  In x (sorted_synonyms m) <-> In x m.
Proof.
  unfold sorted_synonyms.
  assert (H : forall acc, In x (fold_left (fun acc y => insert_desc y acc) m acc)
                          <-> In x m \/ In x acc).
  { induction m as [|y m IH]; intros acc; cbn; [tauto|].
    rewrite IH, In_insert_desc; tauto. }
  rewrite H; cbn; tauto.
Qed.

Lemma exact_phase_inv (text : ustr) (g : glossary) :
  scan_inv text (build_synonym_to_key g) (exact_phase text g).
Proof.
  unfold exact_phase.
  assert (Hin : forall sk, In sk (sorted_synonyms (build_synonym_to_key g)) ->
                           reg_get (fst sk) (build_synonym_to_key g) = Some (snd sk)).
  { intros [s k] H; rewrite In_sorted_synonyms in H; apply In_reg_get; [apply synonym_map_nodup|exact H]. }
  assert (H0 : scan_inv text (build_synonym_to_key g) ([], []))
    by (split; [reflexivity|split; constructor]).
  revert Hin H0; generalize (sorted_synonyms (build_synonym_to_key g)) as l.
  generalize (@nil nat, @nil param_match) as st.
  intros st l; revert st; induction l as [|sk l IH]; intros st Hin Hst; [exact Hst|].
  cbn [fold_left]; apply IH; [intros x Hx; apply Hin; right; exact Hx|].
  destruct sk as [[|c cs] k]; cbn [fst snd]; [exact Hst|].
  destruct st as [found results].
  apply exact_scan_inv; [discriminate| |exact Hst].
  apply (Hin (c :: cs, k)); left; reflexivity.
Qed.


(** X26: any two exact matches start at least 5 characters apart, and
    the set [found_positions] handed on to the fuzzy phase holds exactly
    the start positions of the exact matches. *)
Theorem exact_phase_positions (text : ustr) (param_glossary : glossary) :
  let '(found_positions, results) := exact_phase text param_glossary in
  ForallOrdPairs (fun p q => (5 <= dist (p_position p) (p_position q))%nat) results
  /\ found_positions = rev (map p_position results).
Proof.
  destruct (exact_phase_inv text param_glossary) as [H1 [H2 _]].
  destruct (exact_phase text param_glossary) as [found results]; split; [exact H2|exact H1].
Qed.

End ExactFacts.

Module ExtraExamples.
Import Re Data Binder Pipeline Registry Segment LLMLogic Metadata CleanCanon
       LLMFacts BinderMore RegistryMore MetadataFacts.

Definition e_us5000 : entity := mkEntity (Some (u "us5000")) (9 # 10) 9 15 (Some (u "US5000")) None.
Definition e_unknown : entity := mkEntity None (7 # 10) 9 15 (Some (u "XYZ")) None.
Definition p_weight : param_match :=
  mkParam (u "weight_kg") (u "weight") (95 # 100) 0 6 (u "Weight") (u "exact") None.
Definition q_weight : ustr := u "Weight US5000".

Definition canon_lines : list ustr :=
  [u "US5000 -> us5000"; u "# comment"; u " us5000 -> pylontech_us5000 "].

Definition csv_rows : list csv_row :=
  [[(u "model_code", Some (u "US5000")); (u "manufacturer_id", Some (u "Pylontech"));
    (u "equipment_type_id", Some (u "battery")); (u "is_active", Some (u "1"))];
   [(u "model_code", Some (u "us5000")); (u "manufacturer_id", Some (u "Other"));
    (u "equipment_type_id", Some (u "inverter")); (u "is_active", Some (u "0"))]].

(** X3 at one model and one parameter. *)
Lemma build_param_bindings_logic_pairs_witness :
  exists b, In b (build_param_bindings_logic [e_us5000] [p_weight])
            /\ b_model b = u "us5000" /\ In (u "weight_kg") (b_parameters b).
Proof.
  apply (proj2 (build_param_bindings_logic_pairs [e_us5000] [p_weight] (9%nat, u "us5000") []
                  ltac:(vm_compute; reflexivity) (u "us5000") (u "weight_kg"))).
  split; [vm_compute; discriminate|].
  exists p_weight; split; [left; reflexivity|]; split; reflexivity.
Defined.

(** X13 at a model that normalises: one segment, one sub-query. *)
Lemma map_parameters_resolved_witness :
  length (map_parameters_to_models (fun _ => Some (u "us5000")) [p_weight] [e_us5000] [] []
            q_weight) = 1%nat.
Proof.
  rewrite (proj2 (proj2 (map_parameters_resolved (fun _ => Some (u "us5000")) [p_weight] [e_us5000]
                    [] [] q_weight e_us5000 ltac:(left; reflexivity)
                    ltac:(vm_compute; reflexivity)))).
  vm_compute; reflexivity.
Defined.

(** X17: the later line for [us5000] wins. *)
Lemma normalize_model_last_line_witness :
  normalize_model (Some canon_lines) (u " US5000") = Ok (Some (u "pylontech_us5000")).
Proof.
  apply (proj2 (proj1 (normalize_model_last_line canon_lines (u " US5000")
                         ltac:(vm_compute; discriminate)) (u "pylontech_us5000"))).
  exists [u "US5000 -> us5000"; u "# comment"], (u " us5000 -> pylontech_us5000 "), [].
  split; [reflexivity|]; split; [vm_compute; reflexivity|constructor].
Defined.

(** X19 at a name with surrounding spaces and capitals. *)
Lemma normalize_model_case_insensitive_witness :
  normalize_model (Some canon_lines) (u " US5000 ") = normalize_model (Some canon_lines) (u "us5000").
Proof.
  exact (proj1 (normalize_model_case_insensitive (Some canon_lines) (u " US5000 ")
                  ltac:(vm_compute; discriminate))).
Defined.

(** X24: the inactive second row does not override the first. *)
Lemma get_model_metadata_last_row_witness :
  get_model_metadata (Some csv_rows) (u "US5000") = Some (mkMeta (u "pylontech") (u "battery")).
Proof.
  apply (proj2 (proj1 (get_model_metadata_last_row csv_rows (u "US5000")
                         ltac:(vm_compute; discriminate)
                         ltac:(repeat constructor; vm_compute; discriminate))
                  (mkMeta (u "pylontech") (u "battery")))).
  exists [], (hd [] csv_rows), (tl csv_rows).
  split; [reflexivity|]; split; [vm_compute; reflexivity|].
  constructor; [|constructor]; intros e; vm_compute; discriminate.
Defined.

End ExtraExamples.
